(** * PyRate: covariance engine and staged correction pipeline

    A shallow embedding of [pyrate/vcm.py] and [pyrate/scripts/run_pyrate.py]
    together with the properties of the temporal variance/covariance matrix,
    the covariance-versus-distance selection, the preread registry and the
    reference-pixel / reference-phase stages.

    Conventions of the embedding:
    - [np.float64] values are Rocq's primitive binary64 floats;
    - Python [dict]s are stdpp [gmap]s, Python lists and 1-D arrays are lists,
      2-D arrays are lists of rows;
    - a Python exception is the [Raise] branch of the result type [res];
    - [datetime.date] values are integers (the proleptic ordinal of the date);
    - the ranks of an MPI run are simulated one after the other, a barrier
      being the point where every rank has finished the code before it. *)

From Stdlib Require Import Floats ZArith Bool Lia.
From stdpp Require Import gmap strings list sorting pretty.

Set Default Proof Using "Type".

(** ** Python results and exceptions *)

Module Py.

Inductive exn : Type :=
| KeyError
| IndexError
| ValueError
| TypeError
| ConfigException
| IOError
| MPIError
(** not an exception: the call blocks and never returns *)
| Hang.

Inductive res (A : Type) : Type :=
| Ok (a : A)
| Raise (e : exn).

Arguments Ok {A} a.
Arguments Raise {A} e.

Definition bind {A B : Type} (m : res A) (k : A → res B) : res B :=
  match m with
  | Ok a => k a
  | Raise e => Raise e
  end.

(** [[f(x) for x in l]]: the elements are evaluated from left to right and
    the first exception aborts the comprehension. *)
Fixpoint for_each {A B : Type} (f : A → res B) (l : list A) : res (list B) :=
  match l with
  | [] => Ok []
  | x :: l' =>
      bind (f x) (λ y, bind (for_each f l') (λ ys, Ok (y :: ys)))
  end.

(** [d[k]] on a dict. *)
Definition getitem `{Countable K} {V : Type} (d : gmap K V) (k : K) : res V :=
  match d !! k with
  | Some v => Ok v
  | None => Raise KeyError
  end.

(** [l[i]] on a list, for a non-negative index. *)
Definition index {A : Type} (l : list A) (i : nat) : res A :=
  match l !! i with
  | Some v => Ok v
  | None => Raise IndexError
  end.

End Py.

Import Py.

#[export] Instance res_bind : MBind res := λ A B k m, Py.bind m k.
#[export] Instance res_ret : MRet res := λ A a, Ok a.
#[export] Instance res_fmap : FMap res :=
  λ A B f m, Py.bind m (λ a, Ok (f a)).

(** ** Floating point helpers *)

Module F.

(** A Python [int] as a float ([float(z)], exact for the small magnitudes
    a raster index takes). *)
Definition float_of_Z (z : Z) : float :=
  match z with
  | Zneg p => PrimFloat.opp (PrimFloat.of_uint63 (Uint63.of_Z (Zpos p)))
  | _ => PrimFloat.of_uint63 (Uint63.of_Z z)
  end.

(** [float(n)] of a non-negative Python [int]. *)
Definition float_of_nat (n : nat) : float := float_of_Z (Z.of_nat n).

(** [x ** 2] on a float array: numpy squares by one multiplication. *)
Definition square (x : float) : float := PrimFloat.mul x x.

(** The builtin [max(a, b)]: the first argument is kept unless the second
    compares greater. *)
Definition py_max (a b : float) : float :=
  if PrimFloat.ltb a b then b else a.

(** One step of [np.max]: a NaN on either side is the result. *)
Definition np_maximum (a b : float) : float :=
  if PrimFloat.is_nan a then a
  else if PrimFloat.is_nan b then b
  else if PrimFloat.ltb a b then b else a.

(** [np.max] of a 1-D array; an empty array has no maximum. *)
Definition np_max (l : list float) : res float :=
  match l with
  | [] => Raise ValueError
  | x :: l' => Ok (foldl np_maximum x l')
  end.

(** [ceil(x).astype(int)]: the least integer not below [x].  A NaN or an
    infinity has no integer value; numpy's cast yields the least 64-bit
    integer for them. *)
Definition ceil_int (x : float) : Z :=
  match Prim2SF x with
  | S754_zero _ => 0
  | S754_finite s m e =>
      let v := if s then Zneg m else Zpos m in
      if (0 <=? e)%Z then (v * 2 ^ e)%Z else (- ((- v) / 2 ^ (- e)))%Z
  | _ => (- 2 ^ 63)%Z
  end.

End F.

(** ** Configuration ([pyrate.config]) *)

Module Config.

(** The entries of the [params] dictionary that the two modules read. *)
Record Params : Type := mkParams {
  TMPDIR : string;
  REFX : Z;
  REFY : Z;
  REF_EST_METHOD : Z;
  NAN_CONVERSION : bool
}.

End Config.

Import Config.

(** ** [pyrate/vcm.py] *)

Module Vcm.

(** A [datetime.date], as its ordinal. *)
Definition date : Type := Z.

(** [get_vcmt] reads only the [master] and [slave] attributes of the
    objects it is given: both [Ifg] and [PrereadIfg] provide them. *)
Class Epochs (I : Type) : Type := {
  master : I → date;
  slave : I → date
}.

(** [shared.PrereadIfg]: the snapshot of an interferogram kept in the
    preread registry. *)
Record PrereadIfg : Type := mkPrereadIfg {
  path : string;
  nan_fraction : float;
  pi_master : date;
  pi_slave : date;
  time_span : float;
  pi_nrows : nat;
  pi_ncols : nat;
  metadata : gmap string string
}.

#[export] Instance PrereadIfg_Epochs : Epochs PrereadIfg :=
  {| master := pi_master; slave := pi_slave |}.

(** Modelled from the spec: [pyrate.algorithm.master_slave_ids] is not among
    the sources.  The epoch id map is the "mapping from a calendar date to a
    small dense integer, built once from the concatenation of all master and
    slave dates across the interferogram stack, sorted": the distinct dates
    in ascending order, each mapped to its position. *)
Definition master_slave_ids (dates : list date) : gmap date nat :=
  let dset := merge_sort Z.le (remove_dups dates) in
  list_to_map (imap (λ i d, (d, i)) dset).

(** The body of the inner loop of [get_vcmt]: the entry starts at the zero of
    [zeros((nifgs, nifgs))] and the three [if]s overwrite it in sequence. *)
Definition vcm_pat_entry (mas1 slv1 mas2 slv2 : nat) : float :=
  let v := 0%float in
  let v := if (mas1 =? mas2) || (slv1 =? slv2) then 0.5%float else v in
  let v := if (mas1 =? slv2) || (slv1 =? mas2) then (-0.5)%float else v in
  let v := if (mas1 =? mas2) && (slv1 =? slv2) then 1%float else v in
  v.

(** The double loop over [enumerate(ifgs)] that fills [vcm_pat]. *)
Definition vcm_pat {I : Type} `{!Epochs I} (ids : gmap date nat) (ifgs : list I)
  : res (list (list float)) :=
  for_each (λ ifg,
    mas1 ← getitem ids (master ifg);
    slv1 ← getitem ids (slave ifg);
    for_each (λ ifg2,
      mas2 ← getitem ids (master ifg2);
      slv2 ← getitem ids (slave ifg2);
      Ok (vcm_pat_entry mas1 slv1 mas2 slv2)) ifgs) ifgs.

(** [sqrt(maxvar).reshape((nifgs, 1))]: the reshape raises when the vector
    does not hold exactly [nifgs] values. *)
Definition std_column (maxvar : list float) (nifgs : nat) : res (list float) :=
  if decide (length maxvar = nifgs) then Ok (PrimFloat.sqrt <$> maxvar)
  else Raise ValueError.

(** [std * std.transpose()]: an (n,1) column times a (1,n) row broadcasts to
    the outer product. *)
Definition outer (std : list float) : list (list float) :=
  (λ si, (λ sj, PrimFloat.mul si sj) <$> std) <$> std.

(** Elementwise product of two 2-D arrays of the same shape. *)
Definition mul2d (a b : list (list float)) : list (list float) :=
  zip_with (zip_with PrimFloat.mul) a b.

(** [get_vcmt] on a sequence of interferograms. *)
Definition get_vcmt_seq {I : Type} `{!Epochs I} (ifgs : list I) (maxvar : list float)
  : res (list (list float)) :=
  let nifgs := length ifgs in
  let dates := (master <$> ifgs) ++ (slave <$> ifgs) in
  let ids := master_slave_ids dates in
  pat ← vcm_pat ids ifgs;
  std ← std_column maxvar nifgs;
  let vcm_t := outer std in
  Ok (mul2d vcm_t pat).

(** The values a preread registry holds: a [PrereadIfg] under each path, and
    the extra entries the master process adds under fixed keys. *)
Inductive RegValue : Type :=
| VPreread (p : PrereadIfg)
| VEpochList (epochs : list date)
| VGeoTransform (gt : list float)
| VMetadata (md : gmap string string)
| VProjection (wkt : string).

(** [isinstance(v, PrereadIfg)], returning the instance. *)
Definition as_preread (v : RegValue) : option PrereadIfg :=
  match v with
  | VPreread p => Some p
  | _ => None
  end.

(** Python compares [str] keys lexicographically by code point. *)
Definition str_le (s1 s2 : string) : Prop := String.leb s1 s2 = true.

#[export] Instance str_le_dec : RelDecision str_le.
Proof. intros s1 s2. unfold str_le. apply _. Defined.

Definition key_le {V : Type} (kv1 kv2 : string * V) : Prop :=
  str_le kv1.1 kv2.1.

#[export] Instance key_le_dec {V : Type} : RelDecision (@key_le V).
Proof. intros kv1 kv2. unfold key_le. apply _. Defined.

(** The dict branch of [get_vcmt]: keep the [PrereadIfg] values, sort the
    items (keys are unique, so the sort never looks at a value) and take the
    values in that order. *)
Definition preread_items (ifgs : gmap string RegValue)
  : list (string * PrereadIfg) :=
  merge_sort key_le (map_to_list (omap as_preread ifgs)).

Definition preread_values (ifgs : gmap string RegValue) : list PrereadIfg :=
  (preread_items ifgs).*2.

(** The argument of [get_vcmt]: a sequence of interferograms or the preread
    registry. *)
Inductive IfgsArg (I : Type) : Type :=
| IfgSeq (ifgs : list I)
| IfgDict (registry : gmap string RegValue).

Arguments IfgSeq {I} ifgs.
Arguments IfgDict {I} registry.

Definition get_vcmt (ifgs : IfgsArg PrereadIfg) (maxvar : list float)
  : res (list (list float)) :=
  match ifgs with
  | IfgSeq l => get_vcmt_seq l maxvar
  | IfgDict d => get_vcmt_seq (preread_values d) maxvar
  end.

(** *** The interferogram object and the external numerical routines *)

(** Modelled from the spec: the raster file behind an interferogram, the
    backing store that "write the (otherwise unmodified) phase back" and the
    metadata map are persisted to ([shared.Ifg] is not among the sources). *)
Record Dataset : Type := mkDataset {
  band : list (list float);
  ds_metadata : gmap string string
}.

(** Modelled from the spec: [shared.Ifg], "opened raster handle; phase raster
    (2D array of radians or mm after conversion), nodata value, metadata map,
    georeferencing (pixel size, center, transform)", with the attributes that
    [vcm.py] and [run_pyrate.py] read. *)
Record Ifg : Type := mkIfg {
  dataset : Dataset;
  is_read_only : bool;
  phase_data : list (list float);
  meta_data : gmap string string;
  nan_converted : bool;
  mm_converted : bool;
  nodata_value : float;
  mm_per_radian : float;
  nrows : nat;
  ncols : nat;
  num_cells : nat;
  x_centre : Z;
  y_centre : Z;
  x_size : float;
  y_size : float;
  ifg_master : date;
  ifg_slave : date;
  ifg_nan_fraction : float;
  ifg_time_span : float
}.

#[export] Instance Ifg_Epochs : Epochs Ifg :=
  {| master := ifg_master; slave := ifg_slave |}.

Definition set_phase_data (ifg : Ifg) (ph : list (list float)) : Ifg :=
  mkIfg (dataset ifg) (is_read_only ifg) ph (meta_data ifg)
    (nan_converted ifg) (mm_converted ifg) (nodata_value ifg)
    (mm_per_radian ifg) (nrows ifg) (ncols ifg) (num_cells ifg)
    (x_centre ifg) (y_centre ifg) (x_size ifg) (y_size ifg)
    (ifg_master ifg) (ifg_slave ifg) (ifg_nan_fraction ifg) (ifg_time_span ifg).

Definition set_meta_data (ifg : Ifg) (md : gmap string string) : Ifg :=
  mkIfg (dataset ifg) (is_read_only ifg) (phase_data ifg) md
    (nan_converted ifg) (mm_converted ifg) (nodata_value ifg)
    (mm_per_radian ifg) (nrows ifg) (ncols ifg) (num_cells ifg)
    (x_centre ifg) (y_centre ifg) (x_size ifg) (y_size ifg)
    (ifg_master ifg) (ifg_slave ifg) (ifg_nan_fraction ifg) (ifg_time_span ifg).

Definition set_dataset (ifg : Ifg) (ds : Dataset) : Ifg :=
  mkIfg ds (is_read_only ifg) (phase_data ifg) (meta_data ifg)
    (nan_converted ifg) (mm_converted ifg) (nodata_value ifg)
    (mm_per_radian ifg) (nrows ifg) (ncols ifg) (num_cells ifg)
    (x_centre ifg) (y_centre ifg) (x_size ifg) (y_size ifg)
    (ifg_master ifg) (ifg_slave ifg) (ifg_nan_fraction ifg) (ifg_time_span ifg).

Definition set_read_only (ifg : Ifg) (ro : bool) : Ifg :=
  mkIfg (dataset ifg) ro (phase_data ifg) (meta_data ifg)
    (nan_converted ifg) (mm_converted ifg) (nodata_value ifg)
    (mm_per_radian ifg) (nrows ifg) (ncols ifg) (num_cells ifg)
    (x_centre ifg) (y_centre ifg) (x_size ifg) (y_size ifg)
    (ifg_master ifg) (ifg_slave ifg) (ifg_nan_fraction ifg) (ifg_time_span ifg).

Definition set_converted (ifg : Ifg) (nanc mmc : bool) : Ifg :=
  mkIfg (dataset ifg) (is_read_only ifg) (phase_data ifg) (meta_data ifg)
    nanc mmc (nodata_value ifg)
    (mm_per_radian ifg) (nrows ifg) (ncols ifg) (num_cells ifg)
    (x_centre ifg) (y_centre ifg) (x_size ifg) (y_size ifg)
    (ifg_master ifg) (ifg_slave ifg) (ifg_nan_fraction ifg) (ifg_time_span ifg).

(** Modelled from the spec: [Ifg.write_modified_phase], "write the (otherwise
    unmodified) phase back, marking the update": the phase array and the
    metadata map held in memory replace those of the raster file, which must
    have been opened for writing. *)
Definition write_modified_phase (ifg : Ifg) : res Ifg :=
  if is_read_only ifg then Raise IOError
  else Ok (set_dataset ifg (mkDataset (phase_data ifg) (meta_data ifg))).

(** The collaborators of [vcm.py] whose code is outside the two modules:
    the interferogram I/O of [pyrate.shared], the constants of
    [pyrate.ifgconstants], and the numpy / scipy routines that are not
    reproduced bit for bit. *)
Class External : Type := {
  (** [Ifg(path)] followed by [ifg.open(readonly=...)] *)
  open_ifg : string → bool → Ifg;
  (** [shared.nan_and_mm_convert(ifg, params)], which updates [ifg] in place *)
  nan_and_mm_convert : Ifg → Params → Ifg;
  (** [fftshift(real(ifft2(real(F)**2 + imag(F)**2))) / nzc] for
      [F = fft2(phase)] and [nzc] the number of non-zero phase values *)
  autocorr : list (list float) → list (list float);
  (** [np.add.reduce] on a 1-D array *)
  np_sum : list float → float;
  np_exp : float → float;
  (** [numpy.linalg.norm] of a 1-D array *)
  np_norm : list float → float;
  (** [scipy.optimize.fmin(f, x0=x0, disp=0, xtol=1e-6, ftol=1e-6)[0]];
      an exception raised by [f] leaves through [fmin] *)
  fmin : (float → res float) → float → res float;
  (** [str] of a [float] *)
  float_str : float → string;
  PYRATE_MAXVAR : string;
  PYRATE_ALPHA : string
}.

(** *** [pendiffexp] and [cvd] *)

Section cvd.
Context `{!External}.

(** The (2, maxbin) array [cvdav]: row 0 holds the bin distances, row 1 the
    mean autocorrelation of each bin. *)
Record Cvdav : Type := mkCvdav {
  cvdav_dist : list float;
  cvdav_mean : list float
}.

(** [pendiffexp(alphamod, cvdav)]. *)
Definition pendiffexp (alphamod : float) (cvdav : Cvdav) : res float :=
  mx ← index (cvdav_mean cvdav) 0;
  Ok (np_norm
        (zip_with (λ v r, v - mx * np_exp (- alphamod * r))%float
           (cvdav_mean cvdav) (cvdav_dist cvdav))).

(** [where(isnan(a), 0, a)]. *)
Definition where_nan_zero (a : list (list float)) : list (list float) :=
  (λ row : list float,
     (λ x, if PrimFloat.is_nan x then 0%float else x) <$> row) <$> a.

(** [a.shape] of a 2-D array. *)
Definition shape2 {A : Type} (a : list (list A)) : nat * nat :=
  (length a, match a with row :: _ => length row | [] => 0 end).

(** [reshape(a, n)] of a 2-D array to one dimension, in raster scan order. *)
Definition reshape1 {A : Type} (a : list (list A)) (n : nat) : res (list A) :=
  if decide (length (concat a) = n) then Ok (concat a) else Raise ValueError.

(** [a[mask]] for a boolean mask over a 1-D array. *)
Definition mask_select {A : Type} (mask : list bool) (a : list A) : res (list A) :=
  if decide (length mask = length a)
  then Ok ((filter (λ bx, bx.1 = true) (zip mask a)).*2)
  else Raise IndexError.

(** The radial distance of every pixel from the image centre, in km:
    [np.divide(np.sqrt(((xx-x_centre)*x_size)**2 + ((yy-y_centre)*y_size)**2),
    distfact)] over [meshgrid(range(ncols), range(nrows))]. *)
Definition radial_distance (ifg : Ifg) (nrows_ ncols_ : nat) : list (list float) :=
  (λ yy : nat,
     (λ xx : nat,
        (sqrt (F.square (F.float_of_Z (Z.of_nat xx - x_centre ifg) * x_size ifg)
               + F.square (F.float_of_Z (Z.of_nat yy - y_centre ifg) * y_size ifg))
         / 1000)%float) <$> seq 0 ncols_) <$> seq 0 nrows_.

(** [int(ceil(n / 2.0))]. *)
Definition ceil_half (n : nat) : nat := Nat.div (n + 1) 2.

(** [bin_width = max(ifg.x_size, ifg.y_size) * 2 / distfact]. *)
Definition bin_width (ifg : Ifg) : float :=
  (F.py_max (x_size ifg) (y_size ifg) * 2 / 1000)%float.

(** The radius of the circle search: the smaller of the two half extents. *)
Definition maxdist (ifg : Ifg) : float :=
  let xext := (F.float_of_Z (x_centre ifg) * x_size ifg)%float in
  let yext := (F.float_of_Z (y_centre ifg) * y_size ifg)%float in
  if (xext <? yext)%float then (xext / 1000)%float else (yext / 1000)%float.

(** [mean] of a 1-D array; the mean of an empty slice is NaN. *)
Definition np_mean (l : list float) : float :=
  match l with
  | [] => PrimFloat.nan
  | _ => (np_sum l / F.float_of_nat (length l))%float
  end.

(** The builtin [max] over an array of integers. *)
Definition max_int (l : list Z) : res Z :=
  match l with
  | [] => Raise ValueError
  | x :: l' => Ok (foldl (λ m y, if (m <? y)%Z then y else m) x l')
  end.

(** The values of [acg] whose bin number is [b]: [acg[rbin == b]]. *)
Definition bin_members (rbin : list Z) (acg : list float) (b : Z) : list float :=
  (filter (λ bx, bx.1 = b) (zip rbin acg)).*2.

(** The [calc_alpha] branch up to the array [cvdav]; [zeros(shape=(2, maxbin))]
    raises for a negative [maxbin]. *)
Definition bin_means (r_dist acg : list float) (bw : float) : res (Z * Cvdav) :=
  let rbin := (λ r, F.ceil_int (r / bw)%float) <$> r_dist in
  maxbin ← max_int rbin;
  if (maxbin <? 0)%Z then Raise ValueError
  else
    let bins := Z.of_nat <$> seq 0 (Z.to_nat maxbin) in
    Ok (maxbin,
        mkCvdav ((λ b, (F.float_of_Z b * bw)%float) <$> bins)
                ((λ b, np_mean (bin_members rbin acg b)) <$> bins)).

(** [alphaguess = 2 / (maxbin * bin_width)]. *)
Definition alphaguess (maxbin : Z) (bw : float) : float :=
  (2 / (F.float_of_Z maxbin * bw))%float.

(** The whole [calc_alpha] branch. *)
Definition fit_alpha (r_dist acg : list float) (bw : float) : res float :=
  mc ← bin_means r_dist acg bw;
  fmin (λ a, pendiffexp a mc.2) (alphaguess mc.1 bw).

(** [str(alpha)] for a fitted value or [None]. *)
Definition alpha_str (alpha : option float) : string :=
  match alpha with
  | Some a => float_str a
  | None => "None"
  end.

(** [_add_metadata(ifg, maxvar, alpha)]. *)
Definition _add_metadata (ifg : Ifg) (maxvar : float) (alpha : option float)
  : res Ifg :=
  let md := meta_data ifg in
  let md := <[PYRATE_MAXVAR := float_str maxvar]> md in
  let md := <[PYRATE_ALPHA := alpha_str alpha]> md in
  write_modified_phase (set_meta_data ifg md).

(** The first argument of [cvd]: a path (used during MPI runs) or an
    interferogram that is already open. *)
Inductive IfgArg : Type :=
| ByPath (p : string)
| ByIfg (ifg : Ifg).

(** The points that [cvd] keeps: the flattened distance and autocorrelation
    arrays cut to their first [ceil(num_cells/2) + nrows] elements, then
    masked by [r_dist < maxdist]. *)
Definition cvd_select (ifg : Ifg) (r_flat acg_flat : list float)
  : res (list float * list float) :=
  let r_dist := take (ceil_half (num_cells ifg) + nrows ifg) r_flat in
  let acg := take (length r_dist) acg_flat in
  let indices_to_keep := (λ r, (r <? maxdist ifg)%float) <$> r_dist in
  r_kept ← mask_select indices_to_keep r_dist;
  acg_kept ← mask_select indices_to_keep acg;
  Ok (r_kept, acg_kept).

(** [_save_cvd_data]: the file name is built from [basename(ifg_path)], which
    only a path has. *)
Definition _save_cvd_data (acg r_dist : list float) (ifg_path : IfgArg)
  : res (string * list (float * float)) :=
  match ifg_path with
  | ByPath p => Ok (p, zip acg r_dist)
  | ByIfg _ => Raise TypeError
  end.

(** What a call of [cvd] leaves behind: the returned pair, the interferogram
    object as the call left it, and the autocorrelation samples saved on
    request (with the path they were saved for). *)
Record CvdResult : Type := mkCvdResult {
  cvd_maxvar : float;
  cvd_alpha : option float;
  cvd_ifg : Ifg;
  cvd_saved : option (string * list (float * float))
}.

(** The interferogram that [cvd] works on: opened from the path (for writing
    when the values are to be written) or the object it was given. *)
Definition ifg_of_arg (ifg_path : IfgArg) (write_vals : bool) : Ifg :=
  match ifg_path with
  | ByPath p => open_ifg p (negb write_vals)
  | ByIfg ifg => ifg
  end.

(** The phase that enters the transform: zero in place of NaN once the
    interferogram is NaN-converted. *)
Definition cvd_phase (ifg : Ifg) : list (list float) :=
  if nan_converted ifg then where_nan_zero (phase_data ifg)
  else phase_data ifg.

Definition cvd (ifg_path : IfgArg) (params : Params)
    (calc_alpha write_vals save_acg : bool) : res CvdResult :=
  let ifg := ifg_of_arg ifg_path write_vals in
  let ifg := nan_and_mm_convert ifg params in
  let phase := cvd_phase ifg in
  let autocorr_grid := autocorr phase in
  r_flat ← reshape1 (radial_distance ifg (shape2 phase).1 (shape2 phase).2)
             (num_cells ifg);
  acg_flat ← reshape1 autocorr_grid (num_cells ifg);
  kept ← cvd_select ifg r_flat acg_flat;
  saved ← (if save_acg then Some <$> _save_cvd_data kept.2 kept.1 ifg_path
           else Ok None);
  maxvar ← F.np_max kept.2;
  alpha ← (if calc_alpha then Some <$> fit_alpha kept.1 kept.2 (bin_width ifg)
           else Ok None);
  ifg ← (if write_vals then _add_metadata ifg maxvar alpha else Ok ifg);
  Ok (mkCvdResult maxvar alpha ifg saved).

End cvd.

End Vcm.

(** ** [pyrate/scripts/run_pyrate.py] *)

Module RunPyrate.

Import Vcm.

Definition MASTER_PROCESS : nat := 0.

(** [mpiops.rank] and [mpiops.size] as one process sees them. *)
Record Comm : Type := mkComm {
  rank : nat;
  size : nat
}.

(** [mpiops.array_split(arr, process)] in a world of [size] processes: the
    partition contract of the execution substrate, a deterministic function
    of the collection, the rank and the world size. *)
Class Partition : Type :=
  array_split : ∀ {A : Type}, nat → list A → nat → list A.

(** Partition completeness: "the union of all P shards equals the original
    N-length sequence exactly once each". *)
Definition partition_complete `{!Partition} {A : Type}
    (size : nat) (l : list A) : Prop :=
  concat (array_split size l <$> seq 0 size) ≡ₚ l.

(** The partition [numpy.array_split] computes, which the wrapper indexes by
    rank: contiguous shards, the first [n mod size] of them one element
    longer.  It is used to run the model on concrete inputs. *)
Definition np_array_split : Partition :=
  λ A size l process,
    let n := length l in
    let q := n `div` size in
    let r := n `mod` size in
    take (q + (if process <? r then 1 else 0))
         (drop (process * q + process `min` r) l).

(** The preread registry and the files of the working directory. *)
Record FS : Type := mkFS {
  pickles : gmap string (gmap string RegValue);
  arrays : gmap string (list float)
}.

(** The collaborators of [run_pyrate.py] from other modules of the package. *)
Class Stages : Type := {
  (** [shared.prepare_ifg(path, params)] *)
  prepare_ifg : string → Params → Ifg;
  (** [shared.get_projection_info(path)]: [(gt, md, wkt)] *)
  get_projection_info : string → list float * gmap string string * string;
  (** [algorithm.get_epochs(ifgs_dict)[0]] *)
  get_epochs : gmap string RegValue → list date;
  (** [find_ref_pixel(ifg_paths, params)] with the search of
      [pyrate.refpixel] behind it: [(refy, refx)] *)
  find_ref_pixel : list string → Params → res (Z * Z);
  (** [rpe.check_ref_phs_ifgs(ifg_paths, preread_ifgs)] *)
  check_ref_phs_ifgs : list string → gmap string RegValue → res bool;
  (** opening the interferogram at a path and estimating its reference phase
      by [rpe.est_ref_phs_method1] *)
  est_ref_phs_method1 : string → list bool → res float;
  (** the same by [rpe.est_ref_phs_method2] *)
  est_ref_phs_method2 : string → Z → Z → Params → res float
}.

(** [os.path.join] of a directory and a file name. *)
Definition path_join (dir name : string) : string := dir +:+ "/" +:+ name.

(** A loop whose body updates a state and may raise: the first exception
    ends the loop. *)
Fixpoint for_loop {S A : Type} (body : S → A → res S) (s : S) (l : list A)
  : res S :=
  match l with
  | [] => Ok s
  | x :: l' => s' ← body s x; for_loop body s' l'
  end.

Section pipeline.
Context `{!Partition} `{!External} `{!Stages}.

(** *** [create_ifg_dict] *)

(** [PrereadIfg(path=d, nan_fraction=ifg.nan_fraction, ...)] for the
    interferogram that [prepare_ifg(d, params)] returns. *)
Definition make_preread (params : Params) (d : string) : PrereadIfg :=
  let ifg := prepare_ifg d params in
  mkPrereadIfg d (ifg_nan_fraction ifg) (ifg_master ifg) (ifg_slave ifg)
    (ifg_time_span ifg) (nrows ifg) (ncols ifg) (meta_data ifg).

(** The loop over [process_tifs] that fills the local [ifgs_dict]. *)
Definition local_ifgs_dict (params : Params) (process_tifs : list string)
  : gmap string RegValue :=
  foldl (λ ifgs_dict d, <[d := VPreread (make_preread params d)]> ifgs_dict)
        ∅ process_tifs.

(** [_join_dicts]: [{k: v for D in dicts for k, v in D.items()}], a later
    dictionary overriding an earlier one. *)
Definition _join_dicts (dicts : list (gmap string RegValue))
  : gmap string RegValue :=
  foldl (λ assembled D, D ∪ assembled) ∅ dicts.

Definition preread_ifgs_file (params : Params) : string :=
  path_join (TMPDIR params) "preread_ifgs.pk".

(** The branch of the master process: the extra entries, then the dump. *)
Definition add_global_keys (process_tifs : list string)
    (ifgs_dict : gmap string RegValue) : res (gmap string RegValue) :=
  first ← index process_tifs 0;
  let '(gt, md, wkt) := get_projection_info first in
  let ifgs_dict := <["epochlist" := VEpochList (get_epochs ifgs_dict)]> ifgs_dict in
  let ifgs_dict := <["gt" := VGeoTransform gt]> ifgs_dict in
  let ifgs_dict := <["md" := VMetadata md]> ifgs_dict in
  let ifgs_dict := <["wkt" := VProjection wkt]> ifgs_dict in
  Ok ifgs_dict.

(** One process up to the barrier, given the result of the [allgather]. *)
Definition create_ifg_dict_dump (c : Comm) (dest_tifs : list string)
    (params : Params) (gathered : list (gmap string RegValue)) (fs : FS)
  : res FS :=
  let process_tifs := array_split (size c) dest_tifs (rank c) in
  let ifgs_dict := _join_dicts gathered in
  if rank c =? MASTER_PROCESS then
    ifgs_dict ← add_global_keys process_tifs ifgs_dict;
    Ok (mkFS (<[preread_ifgs_file params := ifgs_dict]> (pickles fs)) (arrays fs))
  else Ok fs.

(** One process after the barrier: [cp.load(open(preread_ifgs_file, 'rb'))]. *)
Definition create_ifg_dict_load (params : Params) (fs : FS)
  : res (gmap string RegValue) :=
  match pickles fs !! preread_ifgs_file params with
  | Some preread_ifgs => Ok preread_ifgs
  | None => Raise IOError
  end.

Fixpoint dump_all (ranks : list nat) (nprocs : nat) (dest_tifs : list string)
    (params : Params) (gathered : list (gmap string RegValue)) (fs : FS)
  : res FS :=
  match ranks with
  | [] => Ok fs
  | r :: ranks' =>
      fs' ← create_ifg_dict_dump (mkComm r nprocs) dest_tifs params gathered fs;
      dump_all ranks' nprocs dest_tifs params gathered fs'
  end.

(** [create_ifg_dict] run by all [nprocs] processes: every process builds its
    local dictionary, the [allgather] hands every process the list of all of
    them in rank order, every process runs up to the barrier, and then every
    process loads the file.  The result holds the registry each rank
    returns. *)
Definition create_ifg_dict (nprocs : nat) (dest_tifs : list string)
    (params : Params) (fs : FS)
  : res (list (gmap string RegValue) * FS) :=
  let ranks := seq 0 nprocs in
  let gathered :=
    (λ r, local_ifgs_dict params (array_split nprocs dest_tifs r)) <$> ranks in
  fs' ← dump_all ranks nprocs dest_tifs params gathered fs;
  regs ← for_each (λ _ : nat, create_ifg_dict_load params fs') ranks;
  Ok (regs, fs').

(** *** [ref_pixel_calc] *)

Inductive LogMsg : Type :=
| Searching
| Selected (refx refy : Z)
| Reusing (refx refy : Z).

Definition ref_pixel_calc (ifg_paths : list string) (params : Params)
  : res (Z * Z * list LogMsg) :=
  let refx := REFX params in
  first ← index ifg_paths 0;
  let ifg := open_ifg first true in
  if (Z.of_nat (ncols ifg) - 1 <? refx)%Z then Raise ValueError
  else
    let refy := REFY params in
    if (Z.of_nat (nrows ifg) - 1 <? refy)%Z then Raise ValueError
    else if (refx <=? 0)%Z || (refy <=? 0)%Z then
      yx ← find_ref_pixel ifg_paths params;
      let '(refy, refx) := yx in
      Ok (refx, refy, [Searching; Selected refx refy])
    else Ok (refx, refy, [Reusing refx refy]).

(** *** [ref_phase_estimation] *)

(** A point-to-point message in flight to the master process. *)
Record Message : Type := mkMessage {
  msg_source : nat;
  msg_tag : nat;
  msg_payload : list float
}.

(** What a process does to the world outside it: it corrects an
    interferogram, sends or receives a point-to-point message, takes part in
    a broadcast or saves an array. *)
Inductive Event : Type :=
| Corrected (ifg_path : string) (ref_phase : float)
| Sent (dest tag : nat) (payload : list float)
| Received (source tag : nat)
| Broadcast (root : nat)
| Saved (file : string) (arr : list float).

(** The first message from [source] carrying [tag], and the other messages. *)
Fixpoint take_message (source tag : nat) (inbox : list Message)
  : option (Message * list Message) :=
  match inbox with
  | [] => None
  | m :: inbox' =>
      if (msg_source m =? source) && (msg_tag m =? tag) then Some (m, inbox')
      else
        match take_message source tag inbox' with
        | Some (m', rest) => Some (m', m :: rest)
        | None => None
        end
  end.

(** [comm.Recv(buf, source, tag)] into a zeroed buffer of [n] values: the
    call waits for a matching message, a shorter message fills the front of
    the buffer and a longer one is a truncation error. *)
Definition Recv (n source tag : nat) (inbox : list Message)
  : res (list float * list Message) :=
  match take_message source tag inbox with
  | None => Raise Hang
  | Some (m, rest) =>
      let data := msg_payload m in
      if length data <=? n
      then Ok (data ++ replicate (n - length data) 0%float, rest)
      else Raise MPIError
  end.

(** The element-wise stores of an index assignment, in order. *)
Definition scatter (a : list float) (indices : list nat) (values : list float)
  : list float :=
  foldl (λ a iv, <[iv.1 := iv.2]> a) a (zip indices values).

(** An index array: its indices and whether its dtype is an integer type. *)
Record IndexArray : Type := mkIndexArray {
  integer_dtype : bool;
  indices : list nat
}.

(** [mpiops.array_split(range(n), r)], the index array of rank [r].  numpy
    makes an array of the range before it splits it: of an empty range an
    array of dtype float64, whose shards are float64 too, and of any other
    range an integer array. *)
Definition range_split `{!Partition} (nprocs n r : nat) : IndexArray :=
  mkIndexArray (negb (n =? 0)) (array_split nprocs (seq 0 n) r).

(** [a[ix] = values] for an index array [ix].  An index array that is not of
    an integer type is an IndexError, whatever it holds; otherwise the
    values are paired with the indices, a single value is broadcast and any
    other length is an error. *)
Definition setitem (a : list float) (ix : IndexArray) (values : list float)
  : res (list float) :=
  if integer_dtype ix then
    if forallb (λ i, i <? length a) (indices ix) then
      if length values =? length (indices ix)
      then Ok (scatter a (indices ix) values)
      else
        match values with
        | [v] =>
            Ok (scatter a (indices ix) (replicate (length (indices ix)) v))
        | _ => Raise ValueError
        end
    else Raise IndexError
  else Raise IndexError.

(** The loop [for r in range(1, mpiops.size)] of the master process. *)
Fixpoint receive_shards (ranks : list nat) (nprocs n : nat)
    (ref_phs : list float) (inbox : list Message)
  : res (list float * list Event * list Message) :=
  match ranks with
  | [] => Ok (ref_phs, [], inbox)
  | r :: ranks' =>
      let process_indices := range_split nprocs n r in
      got ← Recv (length (indices process_indices)) r r inbox;
      ref_phs ← setitem ref_phs process_indices got.1;
      rest ← receive_shards ranks' nprocs n ref_phs got.2;
      Ok (rest.1.1, Received r r :: rest.1.2, rest.2)
  end.

(** The master's assembly of the full-length array (lines 315-323). *)
Definition assemble_ref_phs (nprocs n : nat) (process_ref_phs : list float)
    (inbox : list Message)
  : res (list float * list Event * list Message) :=
  let ref_phs := replicate n 0%float in
  let process_indices := range_split nprocs n MASTER_PROCESS in
  ref_phs ← setitem ref_phs process_indices process_ref_phs;
  receive_shards (seq 1 (nprocs - 1)) nprocs n ref_phs inbox.

(** [np.array([_inner(p) for p in process_ifg_paths])]: each interferogram of
    the shard is opened, corrected in place and written back. *)
Definition correct_shard (est : string → res float) (paths : list string)
  : res (list float * list Event) :=
  vals ← for_each est paths;
  Ok (vals, zip_with Corrected paths vals).

Definition ref_phs_method1 (c : Comm) (ifg_paths : list string)
    (comp : list bool) : res (list float * list Event) :=
  correct_shard (λ p, est_ref_phs_method1 p comp)
    (array_split (size c) ifg_paths (rank c)).

Definition ref_phs_method2 (c : Comm) (ifg_paths : list string)
    (params : Params) (refpx refpy : Z) : res (list float * list Event) :=
  correct_shard (λ p, est_ref_phs_method2 p refpx refpy params)
    (array_split (size c) ifg_paths (rank c)).

(** A dictionary argument is true when it is given and not empty. *)
Definition truthy (preread_ifgs : option (gmap string RegValue)) : bool :=
  match preread_ifgs with
  | Some d => negb (bool_decide (d = ∅))
  | None => false
  end.

(** [sorted(preread_ifgs.keys())]. *)
Definition sorted_keys (d : gmap string RegValue) : list string :=
  merge_sort str_le (map_to_list d).*1.

(** *** [phase_sum] *)

(** [np.zeros(shape=shape)]. *)
Definition zeros2 (shape : nat * nat) : list (list float) :=
  replicate shape.1 (replicate shape.2 0%float).

(** Entry (i, j) of a 2-D array that has one. *)
Definition at2 {A : Type} (a : list (list A)) (i j : nat) : option A :=
  row ← a !! i; row !! j.

(** [a += b] on 2-D arrays: [b] must broadcast to the shape of [a], a
    dimension of [b] being that of [a] or 1. *)
Definition iadd2d (a b : list (list float)) : res (list (list float)) :=
  let '(ra, ca) := shape2 a in
  let '(rb, cb) := shape2 b in
  if ((rb =? ra) || (rb =? 1)) && ((cb =? ca) || (cb =? 1)) then
    Ok (imap (λ i row,
          imap (λ j x,
            let bi := if rb =? 1 then 0 else i in
            let bj := if cb =? 1 then 0 else j in
            PrimFloat.add x (default 0%float (at2 b bi bj))) row) a)
  else Raise ValueError.

(** The part of [phase_sum] that every process runs alone (lines 552-564):
    the sum of the phase arrays of its shard, read as they are on file.  The
    no-data value of [params] is stored on each interferogram object, which
    is closed without a conversion, so it does not enter the sum. *)
Definition local_phase_sum (c : Comm) (ifg_paths : list string)
  : res (nat * nat * list (list float)) :=
  let p_paths := array_split (size c) ifg_paths (rank c) in
  first ← index p_paths 0;
  let ifg := open_ifg first true in
  let shape := (nrows ifg, ncols ifg) in
  let phs_sum := zeros2 shape in
  phs_sum ← for_loop (λ phs_sum d,
               let ifg := open_ifg d true in
               iadd2d phs_sum (phase_data ifg)) phs_sum p_paths;
  Ok (shape, phs_sum).

(** A received buffer seen through the shape of the array it was received
    into. *)
Definition unflatten (shape : nat * nat) (flat : list float)
  : list (list float) :=
  reshape (replicate shape.1 shape.2) flat.

(** The loop [for i in range(1, mpiops.size)] of the master process. *)
Fixpoint receive_sums (ranks : list nat) (shape : nat * nat)
    (phase_sum_all : list (list float)) (inbox : list Message)
  : res (list (list float) * list Event * list Message) :=
  match ranks with
  | [] => Ok (phase_sum_all, [], inbox)
  | i :: ranks' =>
      got ← Recv (shape.1 * shape.2) i i inbox;
      let phs_sum := unflatten shape got.1 in
      phase_sum_all ← iadd2d phase_sum_all phs_sum;
      rest ← receive_sums ranks' shape phase_sum_all got.2;
      Ok (rest.1.1, Received i i :: rest.1.2, rest.2)
  end.

(** [np.ravel(comp, order='F')]: column after column. *)
Definition ravel_F {A : Type} (shape : nat * nat) (a : list (list A))
  : list A :=
  j ← seq 0 shape.2; i ← seq 0 shape.1; option_list (at2 a i j).

(** [phase_sum] as one process runs it, up to the broadcast of line 579: the
    master has [comp], the others have [None].  The events are the send of
    line 577 or the receives of line 571. *)
Definition phase_sum (c : Comm) (ifg_paths : list string)
    (inbox : list Message)
  : res (option (list bool) * list Event * list Message) :=
  local ← local_phase_sum c ifg_paths;
  let '(shape, phs_sum) := local in
  if rank c =? MASTER_PROCESS then
    let phase_sum_all := phs_sum in
    got ← receive_sums (seq 1 (size c - 1)) shape phase_sum_all inbox;
    let comp := (λ row : list float, PrimFloat.is_nan <$> row) <$> got.1.1 in
    let comp := ravel_F shape comp in
    Ok (Some comp, got.1.2, got.2)
  else
    Ok (None, [Sent 0 (rank c) (concat phs_sum)], inbox).

(** Line 579, [comp = mpiops.comm.bcast(comp, root=0)]: the master keeps its
    mask and every other process gets the master's, [root_comp]; on a
    process that no broadcast of the master reaches the call does not
    return. *)
Definition bcast_comp (comp root_comp : option (list bool))
  : res (list bool) :=
  match comp with
  | Some comp => Ok comp
  | None =>
      match root_comp with
      | Some comp => Ok comp
      | None => Raise Hang
      end
  end.

(** *** The reference phase stage *)

(** The stage from the choice of the method on (lines 301-329).  With
    method 1 the process first takes part in [phase_sum]: the gather of the
    partial sums and the broadcast of the mask, [root_comp] being what the
    master broadcasts. *)
Definition estimate_and_gather (c : Comm) (ifg_paths : list string)
    (params : Params) (refpx refpy : Z) (root_comp : option (list bool))
    (inbox : list Message) : res (list Event * list Message) :=
  computed ←
    (if (REF_EST_METHOD params =? 1)%Z then
       summed ← phase_sum c ifg_paths inbox;
       comp ← bcast_comp summed.1.1 root_comp;
       corrected ← ref_phs_method1 c ifg_paths comp;
       Ok (corrected.1, summed.1.2 ++ Broadcast 0 :: corrected.2, summed.2)
     else if (REF_EST_METHOD params =? 2)%Z then
       corrected ← ref_phs_method2 c ifg_paths params refpx refpy;
       Ok (corrected.1, corrected.2, inbox)
     else Raise ConfigException);
  let '(process_ref_phs, events, inbox) := computed in
  let ref_phs_file := path_join (TMPDIR params) "ref_phs.npy" in
  if rank c =? MASTER_PROCESS then
    got ← assemble_ref_phs (size c) (length ifg_paths) process_ref_phs inbox;
    Ok (events ++ got.1.2 ++ [Saved ref_phs_file got.1.1], got.2)
  else
    Ok (events ++ [Sent MASTER_PROCESS (rank c) process_ref_phs], inbox).

(** [ref_phase_estimation] as one process runs it: the events it causes and
    the messages left in the master's inbox. *)
Definition ref_phase_estimation (c : Comm) (ifg_paths : list string)
    (params : Params) (refpx refpy : Z)
    (preread_ifgs : option (gmap string RegValue))
    (root_comp : option (list bool)) (inbox : list Message)
  : res (list Event * list Message) :=
  match preread_ifgs with
  | Some d =>
      if truthy preread_ifgs && (rank c =? MASTER_PROCESS) then
        let ifg_paths := sorted_keys d in
        skip ← check_ref_phs_ifgs ifg_paths d;
        if skip : bool then Ok ([], inbox)
        else estimate_and_gather c ifg_paths params refpx refpy root_comp inbox
      else estimate_and_gather c ifg_paths params refpx refpy root_comp inbox
  | None => estimate_and_gather c ifg_paths params refpx refpy root_comp inbox
  end.

End pipeline.

End RunPyrate.

(** ** The notions in which the properties are stated

    The coefficient rule in the wording of the specification and in the
    order of the code, the points that survive the two filters of [cvd],
    the residual of the exponential model and the messages of a gather. *)

Module Spec.

Import Vcm.

Section structure.
Context {I : Type} `{!Epochs I}.

Definition same_pair (a b : I) : bool :=
  bool_decide (master a = master b) && bool_decide (slave a = slave b).

Definition share_epoch (a b : I) : bool :=
  bool_decide (master a = master b) || bool_decide (slave a = slave b).

Definition connected (a b : I) : bool :=
  bool_decide (master a = slave b) || bool_decide (slave a = master b).

(** "1.0 if i and j share both master and slave epoch; else 0.5 if they
    share only a master or only a slave epoch; else -0.5 if one's master
    equals the other's slave; else 0". *)
Definition structure_coeff_spec (a b : I) : float :=
  if same_pair a b then 1%float
  else if share_epoch a b then 0.5%float
  else if connected a b then (-0.5)%float
  else 0%float.

(** The same cases in the order in which the code lets them win: the
    assignment of -0.5 comes after the assignment of 0.5. *)
Definition structure_coeff (a b : I) : float :=
  if same_pair a b then 1%float
  else if connected a b then (-0.5)%float
  else if share_epoch a b then 0.5%float
  else 0%float.

(** Entry (i, j) of a 2-D array. *)
Definition entry (m : list (list float)) (i j : nat) : option float :=
  row ← m !! i; row !! j.

(** "[get_vcmt] returns the N×N matrix whose (i,j) entry equals
    sqrt(maxvar[i]) * sqrt(maxvar[j]) * C[i,j] ...; consequently the
    returned matrix is symmetric", for a coefficient rule [coeff]. *)
Definition vcmt_entries (coeff : I → I → float)
    (ifgs : list I) (maxvar : list float) : Prop :=
  ∃ vcm, get_vcmt_seq ifgs maxvar = Ok vcm ∧
    length vcm = length ifgs ∧
    (∀ i j a b vi vj,
       ifgs !! i = Some a → ifgs !! j = Some b →
       maxvar !! i = Some vi → maxvar !! j = Some vj →
       entry vcm i j = Some (sqrt vi * sqrt vj * coeff a b)%float) ∧
    (∀ i j, entry vcm i j = entry vcm j i).

End structure.

(** The messages in flight when every process but the master has sent its
    shard, "tagged by sender rank". *)
Definition shard_messages (nprocs : nat) (shards : nat → list float)
  : list RunPyrate.Message :=
  (λ r, RunPyrate.mkMessage r r (shards r)) <$> seq 1 (nprocs - 1).

(** The strict order of Python on [str]. *)
Definition str_lt (s1 s2 : string) : Prop := String.ltb s1 s2 = true.

Section cvd_points.
Context `{!External}.

(** The flattened radial distances and autocorrelations of an interferogram,
    in raster scan order. *)
Definition r_flat (ifg : Ifg) : list float :=
  concat (radial_distance ifg (shape2 (cvd_phase ifg)).1
            (shape2 (cvd_phase ifg)).2).

Definition acg_flat (ifg : Ifg) : list float :=
  concat (autocorr (cvd_phase ifg)).

(** Point [i], at distance [r] and with autocorrelation [a], passes both
    filters of the code: it is among the first [ceil(num_cells/2) + nrows]
    points and passes the mask [r_dist < maxdist] of line 154, so it lies
    strictly inside the circle of radius [maxdist]. *)
Definition survives (ifg : Ifg) (i : nat) (r a : float) : Prop :=
  i < ceil_half (num_cells ifg) + nrows ifg ∧
  r_flat ifg !! i = Some r ∧ acg_flat ifg !! i = Some a ∧
  (r <? maxdist ifg)%float = true.

(** The same point in the wording of the specification, which discards the
    "points beyond the radius": it is among the first
    [ceil(num_cells/2) + nrows] points and its distance is not greater than
    [maxdist], a point on the circle included. *)
Definition not_beyond_radius (ifg : Ifg) (i : nat) (r a : float) : Prop :=
  i < ceil_half (num_cells ifg) + nrows ifg ∧
  r_flat ifg !! i = Some r ∧ acg_flat ifg !! i = Some a ∧
  (maxdist ifg <? r)%float = false.

(** The same points as a list of pairs. *)
Definition kept_points (ifg : Ifg) (rs acgs : list float)
  : list (float * float) :=
  filter (λ ra, (ra.1 <? maxdist ifg)%float = true)
    (take (ceil_half (num_cells ifg) + nrows ifg) (zip rs acgs)).

End cvd_points.

(** The residual of the one-parameter model [amp * exp(-alpha * r)] against
    the bin means: the vector whose norm the fit minimises. *)
Definition model_residual `{!External} (amp : float) (cvdav : Cvdav)
    (alpha : float) : list float :=
  zip_with (λ v r, v - amp * np_exp (- alpha * r))%float
    (cvdav_mean cvdav) (cvdav_dist cvdav).

End Spec.

(** ** Models of the collaborators, used to run the embedding *)

Module Model.

Import Vcm RunPyrate.

(** Modelled from the spec: [Ifg.convert_to_nans] is not among the sources;
    "nan conversion" puts NaN in place of the no-data value, once. *)
Definition convert_to_nans (ifg : Ifg) : Ifg :=
  if nan_converted ifg then ifg
  else set_converted
         (set_phase_data ifg
            ((λ row : list float,
                (λ x, if PrimFloat.eqb x (nodata_value ifg)
                      then PrimFloat.nan else x) <$> row)
               <$> phase_data ifg))
         true (mm_converted ifg).

(** Modelled from the spec: [Ifg.convert_to_mm] is not among the sources;
    the "phase raster (2D array of radians or mm after conversion)" is
    scaled from radians to millimetres, once. *)
Definition convert_to_mm (ifg : Ifg) : Ifg :=
  if mm_converted ifg then ifg
  else set_converted
         (set_phase_data ifg
            ((λ row : list float,
                (λ x, PrimFloat.mul x (mm_per_radian ifg)) <$> row)
               <$> phase_data ifg))
         (nan_converted ifg) true.

(** Modelled from the spec: [shared.nan_and_mm_convert] is not among the
    sources; it is the first step of [cvd], "Convert phase to displacement
    units", with the NaN conversion that the configuration asks for. *)
Definition nan_and_mm_convert_model (ifg : Ifg) (params : Params) : Ifg :=
  let ifg := if NAN_CONVERSION params then convert_to_nans ifg else ifg in
  convert_to_mm ifg.

Definition grid_get (a : list (list float)) (i j : nat) : float :=
  default 0%float (row ← a !! i; row !! j).

Definition sum_floats (l : list float) : float := foldl PrimFloat.add 0%float l.

(** The autocorrelation grid of lines 104-108 computed in the space domain:
    the circular sum that the inverse transform of the power spectrum
    evaluates (Wiener-Khinchin), divided by the number of non-zero phase
    values and shifted so that zero lag sits at the image centre. *)
Definition space_autocorr (phase : list (list float)) : list (list float) :=
  let '(nr, nc) := shape2 phase in
  let nzc := length (filter (λ x, PrimFloat.eqb x 0 = false) (concat phase)) in
  (λ i : nat,
     (λ j : nat,
        let ty := (i + nr - nr `div` 2) `mod` nr in
        let tx := (j + nc - nc `div` 2) `mod` nc in
        (sum_floats
           ((λ yx : nat * nat,
               (grid_get phase yx.1 yx.2
                * grid_get phase ((yx.1 + ty) `mod` nr) ((yx.2 + tx) `mod` nc))%float)
              <$> (y ← seq 0 nr; x ← seq 0 nc; [(y, x)]))
         / F.float_of_nat nzc)%float) <$> seq 0 nc) <$> seq 0 nr.

(** The exponential by its series, precise enough for the small arguments
    of the examples. *)
Definition exp_series (x : float) : float :=
  foldr (λ k acc, (1 + x / F.float_of_nat k * acc)%float) 1%float (seq 1 40).

(** An interferogram over a phase grid with the given pixel sizes, its centre
    at the middle pixel; [converted] tells whether its phase is already in
    millimetres with NaNs in place. *)
Definition raster (ph : list (list float)) (xs ys : float) (converted : bool)
    (md : gmap string string) (ro : bool) : Ifg :=
  let '(nr, nc) := shape2 ph in
  mkIfg (mkDataset ph md) ro ph md converted converted 0%float 4.5%float
    nr nc (nr * nc) (Z.of_nat (nc `div` 2)) (Z.of_nat (nr `div` 2)) xs ys
    0%Z 1%Z 0%float 1%float.

(** The rasters of a working directory, by path. *)
Definition Files : Type := gmap string Ifg.

Definition blank : Ifg := raster [] 0 0 true ∅ true.

(** The numerical routines and the interferogram I/O over a given set of
    files.  The minimiser returns its seed after evaluating the objective
    there; [str] renders the integer ceiling of a number. *)
Definition external (files : Files) : External := {|
  open_ifg := λ p ro, set_read_only (default blank (files !! p)) ro;
  nan_and_mm_convert := nan_and_mm_convert_model;
  autocorr := space_autocorr;
  np_sum := sum_floats;
  np_exp := exp_series;
  np_norm := λ l, PrimFloat.sqrt (sum_floats (F.square <$> l));
  fmin := λ f x0, _ ← f x0; Ok x0;
  float_str := λ x, pretty (F.ceil_int x);
  PYRATE_MAXVAR := "CVD_MAXVAR";
  PYRATE_ALPHA := "CVD_ALPHA"
|}.

(** Modelled from the spec: [rpe.check_ref_phs_ifgs] is not among the
    sources; the stage is skipped "if a registry is available and every
    interferogram's metadata already marks reference phase as removed". *)
Definition all_ref_phase_removed (d : gmap string RegValue) : bool :=
  forallb (λ kv : string * RegValue,
             match kv.2 with
             | VPreread p =>
                 bool_decide (metadata p !! "REF_PHASE" = Some "REMOVED")
             | _ => true
             end) (map_to_list d).

(** The dates of a registry in ascending order, each once. *)
Definition epochs_of (d : gmap string RegValue) : list date :=
  merge_sort Z.le
    (remove_dups
       (kv ← map_to_list d;
        match kv.2 with
        | VPreread p => [pi_master p; pi_slave p]
        | _ => []
        end)).

(** The other stages over a given set of files: the search settles on pixel
    (1, 1) and the reference phase of an interferogram is the first value of
    its phase grid. *)
Definition stages (files : Files) : Stages := {|
  prepare_ifg := λ p _, default blank (files !! p);
  get_projection_info := λ p, ([0; 1000; 0; 0; 0; -1000]%float, ∅, "WGS84");
  get_epochs := epochs_of;
  find_ref_pixel := λ _ _, Ok (1%Z, 1%Z);
  check_ref_phs_ifgs := λ _ d, Ok (all_ref_phase_removed d);
  est_ref_phs_method1 := λ p _,
    match files !! p with
    | Some ifg => Ok (grid_get (phase_data ifg) 0 0)
    | None => Raise IOError
    end;
  est_ref_phs_method2 := λ p _ _ _,
    match files !! p with
    | Some ifg => Ok (grid_get (phase_data ifg) 0 0)
    | None => Raise IOError
    end
|}.

(** Three small interferograms: a 3×3 raster still in radians, a 5×5 raster
    already converted, and a wide 2×6 raster with 1000 m × 2500 m pixels. *)
Definition raster_3x3 : Ifg :=
  raster [[1; 2; 3]; [4; 5; 6]; [7; 8; 10]]%float 1000 1000 false ∅ false.

Definition raster_5x5 : Ifg :=
  raster [[1; 2; 3; 2; 1]; [2; 4; 6; 4; 2]; [3; 6; 9; 6; 3];
          [2; 4; 6; 4; 2]; [1; 2; 3; 2; 1]]%float 1000 1000 true ∅ false.

Definition raster_2x6 : Ifg :=
  raster [[1; 2; 3; 4; 5; 6]; [2; 1; 0; 3; 1; 2]]%float 1000 2500 true ∅ false.

(** A 2×6 raster with 1000 m × 2500 m pixels whose two rows are equal. *)
Definition raster_twin_rows : Ifg :=
  raster [[1; 2; 3; 4; 5; 6]; [1; 2; 3; 4; 5; 6]]%float 1000 2500 true ∅ false.

Definition params0 : Params := mkParams "/tmp" (-1) (-1) 2 false.

(** The same configuration with reference phase method 1. *)
Definition params_method1 : Params := mkParams "/tmp" (-1) (-1) 1 false.

(** A registry of two interferograms, as [create_ifg_dict] leaves it. *)
Definition two_ifg_registry : gmap string RegValue :=
  list_to_map
    [("b.tif", VPreread (mkPrereadIfg "b.tif" 0 2%Z 3%Z 12 3 3 ∅));
     ("epochlist", VEpochList [1; 2; 3]%Z);
     ("a.tif", VPreread (mkPrereadIfg "a.tif" 0 1%Z 2%Z 12 3 3 ∅));
     ("gt", VGeoTransform [0; 1000; 0; 0; 0; -1000]%float);
     ("md", VMetadata ∅);
     ("wkt", VProjection "WGS84")].

(** The same registry once every interferogram is marked as corrected. *)
Definition corrected_registry : gmap string RegValue :=
  list_to_map
    [("b.tif", VPreread (mkPrereadIfg "b.tif" 0 2%Z 3%Z 12 3 3
                           {["REF_PHASE" := "REMOVED"]}));
     ("epochlist", VEpochList [1; 2; 3]%Z);
     ("a.tif", VPreread (mkPrereadIfg "a.tif" 0 1%Z 2%Z 12 3 3
                           {["REF_PHASE" := "REMOVED"]}));
     ("gt", VGeoTransform [0; 1000; 0; 0; 0; -1000]%float);
     ("md", VMetadata ∅);
     ("wkt", VProjection "WGS84")].

(** A working directory with two rasters. *)
Definition two_files : Files :=
  {["a.tif" := raster_5x5; "b.tif" := raster_3x3]}.

(** A working directory with four 1×1 rasters, of phase 10, 20, 30 and 40,
    and the registry that [create_ifg_dict] makes of them. *)
Definition four_paths : list string := ["a.tif"; "b.tif"; "c.tif"; "d.tif"].

Definition four_files : Files :=
  {["a.tif" := raster [[10]]%float 1000 1000 true ∅ false;
    "b.tif" := raster [[20]]%float 1000 1000 true ∅ false;
    "c.tif" := raster [[30]]%float 1000 1000 true ∅ false;
    "d.tif" := raster [[40]]%float 1000 1000 true ∅ false]}.

Definition four_ifg_registry : gmap string RegValue :=
  list_to_map
    [("a.tif", VPreread (mkPrereadIfg "a.tif" 0 1%Z 2%Z 12 1 1 ∅));
     ("b.tif", VPreread (mkPrereadIfg "b.tif" 0 2%Z 3%Z 12 1 1 ∅));
     ("c.tif", VPreread (mkPrereadIfg "c.tif" 0 3%Z 4%Z 12 1 1 ∅));
     ("d.tif", VPreread (mkPrereadIfg "d.tif" 0 4%Z 5%Z 12 1 1 ∅));
     ("epochlist", VEpochList [1; 2; 3; 4; 5]%Z);
     ("gt", VGeoTransform [0; 1000; 0; 0; 0; -1000]%float);
     ("md", VMetadata ∅);
     ("wkt", VProjection "WGS84")].

(** The corrections computed by three processes for five interferograms. *)
Definition three_shards (r : nat) : list float :=
  match r with
  | 0 => [10; 11]%float
  | 1 => [20; 21]%float
  | _ => [30]%float
  end.

(** An interferogram reduced to its two epochs. *)
#[export] Instance pair_Epochs : Epochs (date * date) :=
  {| master := fst; slave := snd |}.

End Model.

(** ** [pyrate/scripts/run_pyrate.py]: the tiled stages and the gathers

    [mst_calc], [linrate_calc], [timeseries_calc] and [orb_fit_calc], which
    share out tiles or interferograms and meet at a barrier, and
    [maxvar_alpha_calc], which gathers the shards of the processes on the
    master. *)

Module Workflow.

Import Vcm RunPyrate.

(** Modelled from the spec: [shared.Tile] is not among the sources; a tile is
    the "rectangular subregion of an interferogram raster" with the fields
    "{row_start, row_end, col_start, col_end, index}", of which
    [run_pyrate.py] reads the index. *)
Record Tile : Type := mkTile {
  tile_index : nat;
  row_start : nat;
  row_end : nat;
  col_start : nat;
  col_end : nat
}.

(** The entries of the [params] dictionary that the stages below read beside
    those of [Params]. *)
Record StageParams : Type := mkStageParams {
  base : Params;
  NETWORKX_OR_MATLAB_FLAG : Z;
  ORBITAL_FIT_METHOD : Z
}.

(** The collaborators of the tiled stages: the arrays they exchange are
    passed on by [run_pyrate.py] without being looked into. *)
Class Tools : Type := {
  ndarray : Type;
  IfgPart : Type;
  (** [mst.mst_multiprocessing(tile, dest_tifs, preread_ifgs)] *)
  mst_multiprocessing :
    Tile → list string → gmap string RegValue → res ndarray;
  (** [shared.IfgPart(p, t, preread_ifgs)] *)
  ifg_part : string → Tile → gmap string RegValue → res IfgPart;
  (** [linrate.linear_rate(ifg_parts, params, vcmt, mst_grid_n)] *)
  linear_rate :
    list IfgPart → StageParams → list (list float) → ndarray →
    res (ndarray * ndarray * ndarray);
  (** [timeseries.time_series(ifg_parts, params, vcmt, mst_tile)] *)
  time_series :
    list IfgPart → StageParams → list (list float) → ndarray →
    res (ndarray * ndarray * ndarray)
}.

Section tiles.
Context `{!Partition} `{!Tools}.

(** [np.load(file)], the [.npy] files of the working directory being a map
    from their paths. *)
Definition np_load (dir : gmap string ndarray) (file : string) : res ndarray :=
  match dir !! file with
  | Some arr => Ok arr
  | None => Raise IOError
  end.

(** [join(params[cf.TMPDIR], '<stem>_{}.npy'.format(i))]. *)
Definition tile_file (sp : StageParams) (stem : string) (i : nat) : string :=
  path_join (TMPDIR (base sp)) (stem +:+ "_" +:+ pretty i +:+ ".npy").

(** *** [mst_calc] *)

Definition save_mst_tile (sp : StageParams) (dest_tifs : list string)
    (tile : Tile) (i : nat) (preread_ifgs : gmap string RegValue)
    (dir : gmap string ndarray) : res (gmap string ndarray) :=
  mst_tile ←
    (if (NETWORKX_OR_MATLAB_FLAG sp =? 1)%Z then
       mst_multiprocessing tile dest_tifs preread_ifgs
     else if (NETWORKX_OR_MATLAB_FLAG sp =? 0)%Z then Raise ConfigException
     else Raise ConfigException);
  let mst_file_process_n := tile_file sp "mst_mat" i in
  Ok (<[mst_file_process_n := mst_tile]> dir).

(** One process up to the barrier of line 166: [Ok] is the directory with
    which the process reaches the barrier, where it waits for the others. *)
Definition mst_calc (c : Comm) (dest_tifs : list string) (sp : StageParams)
    (tiles : list Tile) (preread_ifgs : gmap string RegValue)
    (dir : gmap string ndarray) : res (gmap string ndarray) :=
  let process_tiles := array_split (size c) tiles (rank c) in
  for_loop
    (λ dir t, save_mst_tile sp dest_tifs t (tile_index t) preread_ifgs dir)
    dir process_tiles.

(** A stage run by all [nprocs] processes on the shared working directory,
    up to its barrier: [Ok] means that every process has reached the
    barrier, so that every process gets past it. *)
Definition all_ranks {S : Type} (nprocs : nat) (stage : Comm → S → res S)
    (s : S) : res S :=
  for_loop (λ s r, stage (mkComm r nprocs) s) s (seq 0 nprocs).

(** *** [linrate_calc] and [timeseries_calc] *)

Definition linrate_calc (c : Comm) (ifg_paths : list string)
    (sp : StageParams) (vcmt : list (list float)) (tiles : list Tile)
    (preread_ifgs : gmap string RegValue) (dir : gmap string ndarray)
  : res (gmap string ndarray) :=
  let process_tiles := array_split (size c) tiles (rank c) in
  for_loop (λ dir t,
    ifg_parts ← for_each (λ p, ifg_part p t preread_ifgs) ifg_paths;
    mst_grid_n ← np_load dir (tile_file sp "mst_mat" (tile_index t));
    out ← linear_rate ifg_parts sp vcmt mst_grid_n;
    let '(rate, error, samples) := out in
    let dir := <[tile_file sp "linrate" (tile_index t) := rate]> dir in
    let dir := <[tile_file sp "linerror" (tile_index t) := error]> dir in
    let dir := <[tile_file sp "linsamples" (tile_index t) := samples]> dir in
    Ok dir) dir process_tiles.

Definition timeseries_calc (c : Comm) (ifg_paths : list string)
    (sp : StageParams) (vcmt : list (list float)) (tiles : list Tile)
    (preread_ifgs : gmap string RegValue) (dir : gmap string ndarray)
  : res (gmap string ndarray) :=
  let process_tiles := array_split (size c) tiles (rank c) in
  for_loop (λ dir t,
    ifg_parts ← for_each (λ p, ifg_part p t preread_ifgs) ifg_paths;
    mst_tile ← np_load dir (tile_file sp "mst_mat" (tile_index t));
    out ← time_series ifg_parts sp vcmt mst_tile;
    let '(tsincr, tscum, _) := out in
    let dir := <[tile_file sp "tsincr" (tile_index t) := tsincr]> dir in
    let dir := <[tile_file sp "tscuml" (tile_index t) := tscum]> dir in
    Ok dir) dir process_tiles.

(** *** [orb_fit_calc] *)

(** A call of [orbital.remove_orbital_error(ifgs, params, preread_ifgs)],
    which corrects the interferograms it is given. *)
Record OrbitalCall : Type := mkOrbitalCall {
  oc_ifgs : list string;
  oc_params : StageParams;
  oc_preread_ifgs : option (gmap string RegValue)
}.

(** The calls of [remove_orbital_error] that one process makes before the
    barrier. *)
Definition orb_fit_calc (c : Comm) (ifg_paths : list string)
    (sp : StageParams) (preread_ifgs : option (gmap string RegValue))
  : list OrbitalCall :=
  if (ORBITAL_FIT_METHOD sp =? 1)%Z then
    let prcs_ifgs := array_split (size c) ifg_paths (rank c) in
    [mkOrbitalCall prcs_ifgs sp preread_ifgs]
  else if rank c =? MASTER_PROCESS then
    [mkOrbitalCall ifg_paths sp preread_ifgs]
  else [].

End tiles.

(** [np.empty(n)]: an array of [n] values that nothing has initialised.  What
    it holds is whatever the memory held, a parameter here; the first
    argument tells the calls of a function apart. *)
Class Memory : Type := {
  np_empty : nat → nat → list float;
  np_empty_length : ∀ site n, length (np_empty site n) = n
}.

(** [comm.Recv(buf, source, tag)] into a buffer that holds values already: a
    shorter message overwrites the front of the buffer, a longer one is a
    truncation error. *)
Definition Recv_into (buf : list float) (source tag : nat)
    (inbox : list Message) : res (list float * list Message) :=
  match take_message source tag inbox with
  | None => Raise Hang
  | Some (m, rest) =>
      let data := msg_payload m in
      if length data <=? length buf
      then Ok (data ++ drop (length data) buf, rest)
      else Raise MPIError
  end.

Section gather.
Context `{!Partition} `{!External} `{!Memory}.

(** *** [maxvar_alpha_calc] *)

(** The loop [for i in range(1, mpiops.size)] of the master process. *)
Fixpoint receive_maxvar (ranks : list nat) (nprocs n : nat)
    (maxvar : list float) (inbox : list Message)
  : res (list float * list Event * list Message) :=
  match ranks with
  | [] => Ok (maxvar, [], inbox)
  | i :: ranks' =>
      let rank_indices := range_split nprocs n i in
      let this_process_maxvar := np_empty i (length (indices rank_indices)) in
      got ← Recv_into this_process_maxvar i i inbox;
      maxvar ← setitem maxvar rank_indices got.1;
      rest ← receive_maxvar ranks' nprocs n maxvar got.2;
      Ok (rest.1.1, Received i i :: rest.1.2, rest.2)
  end.

(** [maxvar_alpha_calc] as one process runs it: the array it returns, what
    the calls of [cvd] left behind, the events and the messages left in the
    master's inbox.  The function does not read its argument
    [preread_ifgs]. *)
Definition maxvar_alpha_calc (c : Comm) (ifg_paths : list string)
    (params : Params) (inbox : list Message)
  : res (list float * list CvdResult * list Event * list Message) :=
  let n := length ifg_paths in
  let process_indices := range_split (size c) n (rank c) in
  let prcs_ifgs := array_split (size c) ifg_paths (rank c) in
  results ← for_each (λ i, cvd (ByPath i) params true true true) prcs_ifgs;
  let process_maxvar := cvd_maxvar <$> results in
  if rank c =? MASTER_PROCESS then
    let maxvar := np_empty 0 n in
    maxvar ← setitem maxvar process_indices process_maxvar;
    got ← receive_maxvar (seq 1 (size c - 1)) (size c) n maxvar inbox;
    Ok (got.1.1, results, got.1.2, got.2)
  else
    let maxvar := np_empty 0 n in
    Ok (maxvar, results,
        [Sent MASTER_PROCESS (rank c) process_maxvar], inbox).

End gather.

End Workflow.

(** ** The notions in which the properties of these stages are stated *)

Module WorkflowSpec.

Import Vcm RunPyrate Workflow.

(** A directory after a sequence of writes, a later write to a file
    replacing an earlier one. *)
Definition write_all {V : Type} (d : gmap string V) (kvs : list (string * V))
  : gmap string V :=
  foldl (λ d kv, <[kv.1 := kv.2]> d) d kvs.

(** A 2-D array of the given shape: so many rows, each of so many entries. *)
Definition rect {A : Type} (shape : nat * nat) (a : list (list A)) : Prop :=
  length a = shape.1 ∧ Forall (λ row, length row = shape.2) a.

(** Entry (i, j) of the array exists and is a NaN. *)
Definition nan_at (a : list (list float)) (i j : nat) : Prop :=
  ∃ v, at2 a i j = Some v ∧ is_nan v = true.

(** Every interferogram of a list has the given shape, as its attributes
    and as its phase array. *)
Definition uniform `{!External} (shape : nat * nat) (paths : list string)
  : Prop :=
  ∀ p, p ∈ paths →
    nrows (open_ifg p true) = shape.1 ∧ ncols (open_ifg p true) = shape.2 ∧
    rect shape (phase_data (open_ifg p true)).

(** A binary64 value that is not below zero: a zero of either sign, a
    positive number, plus infinity or a NaN. *)
Definition sf_not_negative (x : spec_float) : bool :=
  match x with
  | S754_infinity true | S754_finite true _ _ => false
  | _ => true
  end.

End WorkflowSpec.

(** ** Models of the collaborators of these stages *)

Module WorkflowModel.

Import Vcm RunPyrate Model Workflow.

(** Collaborators of the tiled stages whose results tell the tile and the
    inputs they were computed from: an array is a list of numbers, the MST
    of a tile holds its index and the number of interferograms, and the
    rate, error and sample arrays put a mark before the MST they were given. *)
Definition tools : Tools := {|
  ndarray := list nat;
  IfgPart := string * nat;
  mst_multiprocessing := λ t dest_tifs _, Ok [tile_index t; length dest_tifs];
  ifg_part := λ p t _, Ok (p, tile_index t);
  linear_rate := λ parts _ _ mst,
    Ok (length parts :: 1 :: mst, length parts :: 2 :: mst,
        length parts :: 3 :: mst);
  time_series := λ parts _ _ mst,
    Ok (length parts :: 4 :: mst, length parts :: 5 :: mst,
        length parts :: 6 :: mst)
|}.

(** A memory in which every fresh array holds -1. *)
Definition memory : Memory := {|
  np_empty := λ _ n, replicate n (-1)%float;
  np_empty_length := λ _ n, length_replicate n (-1)%float
|}.

Definition three_tiles : list Tile :=
  [mkTile 0 0 2 0 2; mkTile 1 0 2 2 4; mkTile 2 2 4 0 2].

(** NetworkX MST, independent orbital fit. *)
Definition stage_params1 : StageParams := mkStageParams params0 1 1.

(** The MST flag of the Matlab method, orbital fit on the master alone. *)
Definition stage_params0 : StageParams := mkStageParams params0 0 2.

(** A raster of a single row: its centre row is row 0. *)
Definition raster_1x3 : Ifg :=
  raster [[1; 2; 3]]%float 1000 1000 true ∅ false.

(** Three 2×2 rasters, the third with a NaN at row 0, column 1. *)
Definition nan_files : Files :=
  {["a.tif" := raster [[1; 2]; [3; 4]]%float 1000 1000 true ∅ false;
    "b.tif" := raster [[10; 20]; [30; 40]]%float 1000 1000 true ∅ false;
    "c.tif" := raster [[5; PrimFloat.nan]; [7; 8]]%float 1000 1000 true ∅ false]}.

(** Two 5×5 rasters. *)
Definition twin_files : Files :=
  {["a.tif" := raster_5x5; "b.tif" := raster_5x5]}.

(** A registry that holds two interferograms and nothing else. *)
Definition plain_registry : gmap string RegValue :=
  list_to_map
    [("b.tif", VPreread (mkPrereadIfg "b.tif" 0 2%Z 3%Z 12 3 3 ∅));
     ("a.tif", VPreread (mkPrereadIfg "a.tif" 0 1%Z 2%Z 12 3 3 ∅))].

(** A configuration that asks for a reference phase method that does not
    exist. *)
Definition params_method3 : Params := mkParams "/tmp" (-1) (-1) 3 false.

(** What the calls of [cvd] by the master of two processes leave behind, the
    working directory holding the two 5×5 rasters. *)
Definition master_results : list CvdResult :=
  match for_each (λ i, @cvd (external twin_files) (ByPath i) params0 true true true)
          ["a.tif"] with
  | Ok results => results
  | Raise _ => []
  end.

(** The maxvar values of two processes: those of the master, and one sent
    by the other process. *)
Definition two_shards (r : nat) : list float :=
  match r with
  | 0 => cvd_maxvar <$> master_results
  | _ => [7%float]
  end.

End WorkflowModel.

(** * Properties *)

(** ** Primitive floats: the order and the product *)

Module FloatFacts.

Definition sf_nan (x : spec_float) : bool :=
  match x with
  | S754_nan => true
  | _ => false
  end.

Ltac cmp_cases :=
  repeat match goal with
  | |- context [Pos.compare_cont Eq ?a ?b] =>
      change (Pos.compare_cont Eq a b) with (Pos.compare a b)
  | H : context [Pos.compare_cont Eq ?a ?b] |- _ =>
      change (Pos.compare_cont Eq a b) with (Pos.compare a b) in H
  | |- context [Z.compare ?a ?b] => destruct (Z.compare_spec a b)
  | H : context [Z.compare ?a ?b] |- _ => destruct (Z.compare_spec a b)
  | |- context [Pos.compare ?a ?b] => destruct (Pos.compare_spec a b)
  | H : context [Pos.compare ?a ?b] |- _ => destruct (Pos.compare_spec a b)
  end.

(** Case analysis on the class and sign of the operands of a comparison,
    then on the comparisons of exponents and mantissas. *)
Ltac sf_cases :=
  simpl; try done; intros; cmp_cases; simpl in *; try done; try lia.

Lemma SFleb_trans x y z :
  SFleb x y = true → SFleb y z = true → SFleb x z = true.
Proof.
  unfold SFleb, SFcompare.
  destruct x as [sx|sx| |sx mx ex], y as [sy|sy| |sy my ey],
    z as [sz|sz| |sz mz ez];
    try destruct sx; try destruct sy; try destruct sz; sf_cases.
Qed.

Lemma SFleb_total x y :
  sf_nan x = false → sf_nan y = false → SFltb x y = false → SFleb y x = true.
Proof.
  unfold SFleb, SFltb, SFcompare.
  destruct x as [sx|sx| |sx mx ex], y as [sy|sy| |sy my ey];
    try destruct sx; try destruct sy; sf_cases.
Qed.

Lemma SFltb_asym x y : SFltb x y = true → SFltb y x = false.
Proof.
  unfold SFltb, SFcompare.
  destruct x as [sx|sx| |sx mx ex], y as [sy|sy| |sy my ey];
    try destruct sx; try destruct sy; sf_cases.
Qed.

Lemma SFleb_refl x : sf_nan x = false → SFleb x x = true.
Proof.
  unfold SFleb, SFcompare.
  destruct x as [sx|sx| |sx mx ex]; try destruct sx; sf_cases.
Qed.

Lemma SFeqb_refl x : SFeqb x x = negb (sf_nan x).
Proof.
  unfold SFeqb, SFcompare.
  destruct x as [sx|sx| |sx mx ex]; try destruct sx; sf_cases.
Qed.

Lemma is_nan_spec x : is_nan x = sf_nan (Prim2SF x).
Proof.
  unfold is_nan.
  rewrite FloatAxioms.eqb_spec, SFeqb_refl. apply negb_involutive.
Qed.

Lemma leb_trans (x y z : float) :
  (x <=? y)%float = true → (y <=? z)%float = true → (x <=? z)%float = true.
Proof. rewrite !FloatAxioms.leb_spec. apply SFleb_trans. Qed.

Lemma leb_refl (x : float) : is_nan x = false → (x <=? x)%float = true.
Proof. rewrite is_nan_spec, FloatAxioms.leb_spec. apply SFleb_refl. Qed.

Lemma nltb_leb (x y : float) :
  is_nan x = false → is_nan y = false →
  (x <? y)%float = false → (y <=? x)%float = true.
Proof.
  rewrite !is_nan_spec, FloatAxioms.ltb_spec, FloatAxioms.leb_spec.
  apply SFleb_total.
Qed.

Lemma ltb_leb (x y : float) : (x <? y)%float = true → (x <=? y)%float = true.
Proof.
  rewrite FloatAxioms.ltb_spec, FloatAxioms.leb_spec. unfold SFltb, SFleb.
  by destruct (SFcompare _ _) as [[]|].
Qed.

Lemma ltb_asym (x y : float) : (x <? y)%float = true → (y <? x)%float = false.
Proof. rewrite !FloatAxioms.ltb_spec. apply SFltb_asym. Qed.

Lemma leb_not_nan (x y : float) :
  (x <=? y)%float = true → is_nan x = false ∧ is_nan y = false.
Proof.
  rewrite !is_nan_spec, FloatAxioms.leb_spec. unfold SFleb, SFcompare.
  by destruct (Prim2SF x), (Prim2SF y).
Qed.

(** The product of two floats does not depend on their order. *)
Lemma mul_comm (x y : float) : (x * y)%float = (y * x)%float.
Proof.
  apply Prim2SF_inj. rewrite !mul_spec. unfold SF64mul.
  destruct (Prim2SF x) as [sx|sx| |sx mx ex],
    (Prim2SF y) as [sy|sy| |sy my ey];
    simpl; try reflexivity; rewrite ?(xorb_comm sx sy); try reflexivity.
  by rewrite (Pos.mul_comm mx my), (Z.add_comm ex ey).
Qed.

(** [np.max] returns one of the values; when that value is a number, every
    value is at most it (so a NaN among the values is returned). *)
Lemma np_maximum_fold (l : list float) (x m : float) :
  foldl F.np_maximum x l = m →
  m ∈ x :: l ∧
  (is_nan m = false → ∀ a, a ∈ x :: l → (a <=? m)%float = true).
Proof.
  revert x. induction l as [|y l IH]; intros x Hm; simpl in Hm.
  - subst m. split; [by left|].
    intros Hnan a Ha. apply list_elem_of_singleton in Ha as ->.
    by apply leb_refl.
  - destruct (IH _ Hm) as [Hin Hle]. split.
    + apply elem_of_cons in Hin as [->|Hin]; [|by do 2 right].
      unfold F.np_maximum.
      destruct (is_nan x); [by left|].
      destruct (is_nan y); [by right; left|].
      destruct (x <? y)%float; [by right; left|by left].
    + intros Hnan a Ha.
      assert (Hf : (F.np_maximum x y <=? m)%float = true).
      { apply (Hle Hnan). by left. }
      apply elem_of_cons in Ha as [->|Ha];
        [|apply elem_of_cons in Ha as [->|Ha]];
        [| |by apply (Hle Hnan); right].
      * revert Hf. unfold F.np_maximum.
        destruct (is_nan x) eqn:Hx; [done|].
        destruct (is_nan y) eqn:Hy.
        { intros Hf. apply leb_not_nan in Hf as [Hf _]. congruence. }
        destruct (x <? y)%float eqn:Hxy; [|done].
        intros Hf. apply (leb_trans _ y); [by apply ltb_leb|done].
      * revert Hf. unfold F.np_maximum.
        destruct (is_nan x) eqn:Hx.
        { intros Hf. apply leb_not_nan in Hf as [Hf _]. congruence. }
        destruct (is_nan y) eqn:Hy; [done|].
        destruct (x <? y)%float eqn:Hxy; [done|].
        intros Hf. apply (leb_trans _ x); [by apply nltb_leb|done].
Qed.

Lemma np_max_spec (l : list float) (m : float) :
  F.np_max l = Ok m →
  m ∈ l ∧ (is_nan m = false → ∀ a, a ∈ l → (a <=? m)%float = true).
Proof.
  destruct l as [|x l]; [done|]. simpl. intros [= Hm].
  by apply np_maximum_fold.
Qed.

Lemma np_max_nonempty (l : list float) :
  l ≠ [] → ∃ m, F.np_max l = Ok m.
Proof. destruct l; [done|]. intros _. by eexists. Qed.

End FloatFacts.

(** ** The temporal variance/covariance matrix *)

Module VcmFacts.

Import Vcm Spec Model FloatFacts.

Lemma for_each_ok {A B : Type} (f : A → res B) (g : A → B) (l : list A) :
  (∀ x, x ∈ l → f x = Ok (g x)) → for_each f l = Ok (g <$> l).
Proof.
  induction l as [|x l IH]; intros Hf; [done|].
  simpl. rewrite Hf by left. simpl.
  rewrite IH; [done|]. intros y Hy. apply Hf. by right.
Qed.

(** *** The epoch id map *)

Section ids.
Context (dates : list date).

(** A date has id [i] exactly when it is the [i]-th distinct date in
    ascending order. *)
Lemma master_slave_ids_lookup d i :
  master_slave_ids dates !! d = Some i ↔
  merge_sort Z.le (remove_dups dates) !! i = Some d.
Proof.
  unfold master_slave_ids.
  set (dset := merge_sort Z.le (remove_dups dates)).
  assert (Hnd : NoDup (imap (λ i d, (d, i)) dset).*1).
  { rewrite fmap_imap.
    replace (imap (λ n : nat, fst ∘ (λ d0 : Z, (d0, n))) dset) with dset.
    - unfold dset. rewrite merge_sort_Permutation. apply NoDup_remove_dups.
    - clear.
      change (λ n : nat, fst ∘ (λ d0 : Z, (d0, n)))
        with (λ (n : nat) (d : Z), d).
      induction dset as [|x l IH] using rev_ind; [done|].
      rewrite imap_app. simpl. by rewrite <- IH. }
  rewrite <- (elem_of_list_to_map _ _ _ Hnd), elem_of_lookup_imap.
  split.
  - by intros (j & y & [= -> ->] & Hy).
  - eauto.
Qed.

Lemma master_slave_ids_total d :
  d ∈ dates → ∃ i, master_slave_ids dates !! d = Some i.
Proof.
  intros Hd.
  assert (Hin : d ∈ merge_sort Z.le (remove_dups dates)).
  { rewrite merge_sort_Permutation. by apply elem_of_remove_dups. }
  apply list_elem_of_lookup in Hin as [i Hi].
  exists i. by apply master_slave_ids_lookup.
Qed.

(** Two ids are equal exactly when the dates are: the map serves "only for
    O(1) equality tests between epochs". *)
Lemma master_slave_ids_inj d1 d2 i1 i2 :
  master_slave_ids dates !! d1 = Some i1 →
  master_slave_ids dates !! d2 = Some i2 →
  i1 = i2 ↔ d1 = d2.
Proof.
  intros H1 H2. split; intros ->; [|congruence].
  apply master_slave_ids_lookup in H1, H2. congruence.
Qed.

End ids.

(** *** The structure matrix *)

Section vcmt.
Context {I : Type} `{!Epochs I}.

(** The three overwriting assignments of the loop body amount to the case
    distinction [structure_coeff] on the dates. *)
Lemma vcm_pat_entry_coeff (ids : gmap date nat) (a b : I) ma sa mb sb :
  ids !! master a = Some ma → ids !! slave a = Some sa →
  ids !! master b = Some mb → ids !! slave b = Some sb →
  (∀ d1 d2 i1 i2,
     ids !! d1 = Some i1 → ids !! d2 = Some i2 → i1 = i2 ↔ d1 = d2) →
  vcm_pat_entry ma sa mb sb = structure_coeff a b.
Proof.
  intros Hma Hsa Hmb Hsb Hinj.
  assert (E : ∀ d1 d2 i1 i2, ids !! d1 = Some i1 → ids !! d2 = Some i2 →
              (i1 =? i2) = bool_decide (d1 = d2)).
  { intros d1 d2 i1 i2 H1 H2. pose proof (Hinj _ _ _ _ H1 H2) as Hiff.
    destruct (Nat.eqb_spec i1 i2); symmetry;
      [apply bool_decide_eq_true | apply bool_decide_eq_false]; tauto. }
  unfold vcm_pat_entry, structure_coeff, same_pair, share_epoch, connected.
  rewrite (E _ _ _ _ Hma Hmb), (E _ _ _ _ Hsa Hsb),
    (E _ _ _ _ Hma Hsb), (E _ _ _ _ Hsa Hmb).
  by repeat case_bool_decide.
Qed.

Lemma structure_coeff_sym (a b : I) : structure_coeff a b = structure_coeff b a.
Proof.
  unfold structure_coeff, same_pair, share_epoch, connected.
  rewrite (bool_decide_ext (master b = master a) (master a = master b)) by done.
  rewrite (bool_decide_ext (slave b = slave a) (slave a = slave b)) by done.
  rewrite (bool_decide_ext (master b = slave a) (slave a = master b)) by done.
  rewrite (bool_decide_ext (slave b = master a) (master a = slave b)) by done.
  by repeat case_bool_decide.
Qed.

(** The order of the two middle cases matters only for an interferogram
    whose master and slave epochs coincide. *)
Lemma structure_coeff_agree (a b : I) :
  master a ≠ slave a → master b ≠ slave b →
  structure_coeff_spec a b = structure_coeff a b.
Proof.
  intros Ha Hb.
  unfold structure_coeff_spec, structure_coeff, same_pair, share_epoch, connected.
  repeat case_bool_decide; simpl; try done; congruence.
Qed.

Lemma vcm_pat_ok (ifgs : list I) :
  vcm_pat (master_slave_ids ((master <$> ifgs) ++ (slave <$> ifgs))) ifgs =
    Ok ((λ a, structure_coeff a <$> ifgs) <$> ifgs).
Proof.
  set (ids := master_slave_ids _). unfold vcm_pat.
  assert (Htot : ∀ a, a ∈ ifgs →
            (∃ m, ids !! master a = Some m) ∧ (∃ s, ids !! slave a = Some s)).
  { intros a Ha. split; apply master_slave_ids_total; rewrite elem_of_app;
      [left | right]; by apply list_elem_of_fmap_2. }
  apply for_each_ok. intros a Ha.
  destruct (Htot a Ha) as [[ma Hma] [sa Hsa]].
  unfold getitem. rewrite Hma, Hsa. simpl.
  apply for_each_ok. intros b Hb.
  destruct (Htot b Hb) as [[mb Hmb] [sb Hsb]].
  rewrite Hmb, Hsb. simpl. f_equal.
  apply (vcm_pat_entry_coeff ids); try done.
  apply master_slave_ids_inj.
Qed.

Lemma entry_mul2d_outer (std : list float) (c : I → I → float)
    (ifgs : list I) i j :
  entry (mul2d (outer std) ((λ a, c a <$> ifgs) <$> ifgs)) i j =
    si ← std !! i; a ← ifgs !! i; sj ← std !! j; b ← ifgs !! j;
    Some (si * sj * c a b)%float.
Proof.
  unfold entry, mul2d, outer.
  rewrite lookup_zip_with, !list_lookup_fmap.
  destruct (std !! i) as [si|]; [|done]. simpl.
  destruct (ifgs !! i) as [a|]; [|done]. simpl.
  rewrite lookup_zip_with, !list_lookup_fmap.
  destruct (std !! j) as [sj|]; [|done]. simpl.
  by destruct (ifgs !! j) as [b|].
Qed.

(** [get_vcmt] succeeds on a maxvar vector of the right length, with the
    outer product of the standard deviations times the structure matrix. *)
Lemma get_vcmt_seq_ok (ifgs : list I) (maxvar : list float) :
  length maxvar = length ifgs →
  get_vcmt_seq ifgs maxvar =
    Ok (mul2d (outer (sqrt <$> maxvar))
          ((λ a, structure_coeff a <$> ifgs) <$> ifgs)).
Proof.
  intros Hlen. unfold get_vcmt_seq.
  rewrite vcm_pat_ok. simpl.
  unfold std_column. by rewrite decide_True.
Qed.

(** C1 (as amended): for every list of N interferograms and every length-N
    maxvar vector, [get_vcmt] returns the N×N matrix whose (i,j) entry is
    sqrt(maxvar[i]) * sqrt(maxvar[j]) * C[i,j], where C[i,j] is 1.0 for
    equal master and equal slave epochs, else -0.5 if the master of one
    equals the slave of the other, else 0.5 if they share a master or a
    slave epoch, else 0; the matrix is symmetric. *)
Theorem get_vcmt_entries (ifgs : list I) (maxvar : list float) :
  length maxvar = length ifgs →
  vcmt_entries structure_coeff ifgs maxvar.
Proof.
  intros Hlen. unfold vcmt_entries.
  rewrite get_vcmt_seq_ok by done.
  eexists; split; [done|]. split; [|split].
  - unfold mul2d, outer. rewrite length_zip_with, !length_fmap. lia.
  - intros i j a b vi vj Ha Hb Hvi Hvj.
    by rewrite entry_mul2d_outer, !list_lookup_fmap, Ha, Hb, Hvi, Hvj.
  - intros i j. rewrite !entry_mul2d_outer.
    destruct ((sqrt <$> maxvar) !! i) as [si|], (ifgs !! i) as [a|],
      ((sqrt <$> maxvar) !! j) as [sj|], (ifgs !! j) as [b|]; simpl; try done.
    by rewrite (mul_comm si sj), structure_coeff_sym.
Qed.

End vcmt.

(** The example of the specification: A(1,2), B(1,3), C(2,3). *)
Lemma get_vcmt_entries_witness :
  vcmt_entries structure_coeff [(1, 2); (1, 3); (2, 3)]%Z [1; 4; 9]%float.
Proof. apply get_vcmt_entries. reflexivity. Defined.

(** C1 as stated fails on an interferogram whose two epochs coincide: for
    A(1,1) and B(1,2), which share only their master, the code returns -0.5
    at (0,1) because the slave of A is the master of B, where the claim's
    order of cases gives 0.5. *)
Lemma get_vcmt_claimed_order_fails :
  let ifgs := [(1, 1); (1, 2)]%Z in
  let maxvar := [1; 1]%float in
  get_vcmt_seq ifgs maxvar = Ok [[1; -0.5]; [-0.5; 1]]%float ∧
  (sqrt 1 * sqrt 1 * structure_coeff_spec (1, 1)%Z (1, 2)%Z)%float = 0.5%float ∧
  ((-0.5) =? 0.5)%float = false.
Proof. by vm_compute. Qed.

(** *** The registry as argument: the order of the rows *)

Lemma ascii_compare_trans a b c o :
  Ascii.compare a b = o → Ascii.compare b c = o → Ascii.compare a c = o.
Proof.
  unfold Ascii.compare.
  destruct o;
    rewrite ?N.compare_eq_iff, ?N.compare_lt_iff, ?N.compare_gt_iff; lia.
Qed.

Lemma string_compare_refl s : String.compare s s = Eq.
Proof.
  induction s as [|a s IH]; [done|]. simpl.
  unfold Ascii.compare. by rewrite N.compare_refl.
Qed.

Lemma string_compare_lt_trans s1 s2 s3 :
  String.compare s1 s2 = Lt → String.compare s2 s3 = Lt →
  String.compare s1 s3 = Lt.
Proof.
  revert s2 s3.
  induction s1 as [|a s1 IH]; intros [|b s2] [|c s3]; simpl; try done.
  destruct (Ascii.compare a b) eqn:Hab; try done;
    destruct (Ascii.compare b c) eqn:Hbc; try done.
  - apply Ascii.compare_eq_iff in Hab, Hbc. subst.
    rewrite (proj2 (N.compare_eq_iff _ _) eq_refl : Ascii.compare c c = Eq).
    apply IH.
  - apply Ascii.compare_eq_iff in Hab. subst. by rewrite Hbc.
  - apply Ascii.compare_eq_iff in Hbc. subst. by rewrite Hab.
  - by rewrite (ascii_compare_trans _ _ _ _ Hab Hbc).
Qed.

Lemma str_le_lt_eq s1 s2 : str_le s1 s2 ↔ str_lt s1 s2 ∨ s1 = s2.
Proof.
  unfold str_le, str_lt, String.leb, String.ltb.
  destruct (String.compare s1 s2) eqn:Hc.
  - apply String.compare_eq_iff in Hc. naive_solver.
  - naive_solver.
  - split; [done|]. intros [?| ->]; [done|].
    by rewrite string_compare_refl in Hc.
Qed.

Lemma str_lt_irrefl s : ¬ str_lt s s.
Proof. unfold str_lt, String.ltb. by rewrite string_compare_refl. Qed.

#[export] Instance str_lt_trans : Transitive str_lt.
Proof.
  intros s1 s2 s3. unfold str_lt, String.ltb.
  destruct (String.compare s1 s2) eqn:H12; try done.
  destruct (String.compare s2 s3) eqn:H23; try done.
  by rewrite (string_compare_lt_trans _ _ _ H12 H23).
Qed.

#[export] Instance str_lt_antisym : AntiSymm (=) str_lt.
Proof.
  intros s1 s2 H1 H2. destruct (str_lt_irrefl s1). by transitivity s2.
Qed.

#[export] Instance str_le_trans : Transitive str_le.
Proof.
  intros s1 s2 s3. rewrite !str_le_lt_eq. intros [H1| ->] [H2| ->]; eauto.
  left. by transitivity s2.
Qed.

#[export] Instance str_le_total : Total str_le.
Proof. intros s1 s2. apply String.leb_total. Qed.

#[export] Instance key_le_trans {V : Type} : Transitive (@key_le V).
Proof. intros x y z. unfold key_le. apply str_le_trans. Qed.

#[export] Instance key_le_total {V : Type} : Total (@key_le V).
Proof. intros x y. unfold key_le. apply str_le_total. Qed.

Lemma StronglySorted_strict {A : Type} (R S : relation A) (l : list A) :
  (∀ x y, R x y → x ≠ y → S x y) →
  StronglySorted R l → NoDup l → StronglySorted S l.
Proof.
  intros HRS. induction 1 as [|x l Hl IH Hx]; intros Hnd; [constructor|].
  apply NoDup_cons in Hnd as [Hnx Hnd].
  constructor; [by apply IH|].
  rewrite Forall_forall in Hx |- *. intros y Hy.
  apply HRS; [by apply Hx|]. by intros ->.
Qed.

Lemma StronglySorted_lt_NoDup (l : list string) :
  StronglySorted str_lt l → NoDup l.
Proof.
  induction 1 as [|x l Hl IH Hx]; constructor; [|done].
  intros Hin. rewrite Forall_forall in Hx.
  by destruct (str_lt_irrefl x); apply Hx.
Qed.

Section registry.
Context (reg : gmap string RegValue).

(** The entries kept are exactly those whose value is a [PrereadIfg]. *)
Lemma preread_items_elem k p :
  (k, p) ∈ preread_items reg ↔ reg !! k = Some (VPreread p).
Proof.
  unfold preread_items.
  rewrite merge_sort_Permutation, elem_of_map_to_list, lookup_omap.
  destruct (reg !! k) as [[]|]; simpl; naive_solver.
Qed.

Lemma preread_keys_elem k :
  k ∈ (preread_items reg).*1 ↔ ∃ p, reg !! k = Some (VPreread p).
Proof.
  rewrite list_elem_of_fmap. split.
  - intros ([k' p] & -> & Hp). exists p. by apply preread_items_elem.
  - intros [p Hp]. exists (k, p). split; [done|]. by apply preread_items_elem.
Qed.

Lemma preread_items_NoDup : NoDup (preread_items reg).*1.
Proof.
  unfold preread_items. rewrite merge_sort_Permutation.
  apply NoDup_fst_map_to_list.
Qed.

(** They are processed in strictly ascending order of their keys. *)
Lemma preread_items_sorted : StronglySorted str_lt (preread_items reg).*1.
Proof.
  apply (StronglySorted_strict str_le).
  - intros x y Hle Hne. by apply str_le_lt_eq in Hle as [|].
  - apply StronglySorted_fmap with (R1 := key_le); [by intros [] []|].
    unfold preread_items. apply (StronglySorted_merge_sort _).
  - apply preread_items_NoDup.
Qed.

(** The sorted list of interferogram paths is the list of keys that
    [get_vcmt] walks through. *)
Lemma preread_items_unique (paths : list string) :
  StronglySorted str_lt paths →
  (∀ k, k ∈ paths ↔ ∃ p, reg !! k = Some (VPreread p)) →
  paths = (preread_items reg).*1.
Proof.
  intros Hs Hel.
  apply (StronglySorted_unique str_lt);
    [done|apply preread_items_sorted|].
  apply NoDup_Permutation.
  - by apply StronglySorted_lt_NoDup.
  - apply preread_items_NoDup.
  - intros k. by rewrite Hel, preread_keys_elem.
Qed.

(** C9: given the preread registry, [get_vcmt] drops every entry whose value
    is not a [PrereadIfg] and handles the others in ascending order of their
    path keys: with [paths] the sorted list of the keys that hold a
    [PrereadIfg], row and column [i] of the matrix belong to the interferogram
    stored under the [i]-th path. *)
Theorem get_vcmt_registry_order (maxvar : list float) (paths : list string) :
  StronglySorted str_lt paths →
  (∀ k, k ∈ paths ↔ ∃ p, reg !! k = Some (VPreread p)) →
  length maxvar = length paths →
  ∃ vcm, get_vcmt (IfgDict reg) maxvar = Ok vcm ∧
    length vcm = length paths ∧
    ∀ i j ki kj pi pj vi vj,
      paths !! i = Some ki → paths !! j = Some kj →
      reg !! ki = Some (VPreread pi) → reg !! kj = Some (VPreread pj) →
      maxvar !! i = Some vi → maxvar !! j = Some vj →
      entry vcm i j = Some (sqrt vi * sqrt vj * structure_coeff pi pj)%float.
Proof.
  intros Hs Hel Hlen.
  pose proof (preread_items_unique paths Hs Hel) as Hpaths.
  assert (Hlen' : length maxvar = length (preread_values reg)).
  { unfold preread_values. rewrite Hlen, Hpaths. by rewrite !length_fmap. }
  unfold get_vcmt. rewrite get_vcmt_seq_ok by done.
  eexists. split; [done|]. split.
  { unfold mul2d, outer. rewrite length_zip_with, !length_fmap, <- Hlen'. lia. }
  intros i j ki kj pi pj vi vj Hi Hj Hpi Hpj Hvi Hvj.
  assert (Hval : ∀ n k p, paths !! n = Some k →
            reg !! k = Some (VPreread p) → preread_values reg !! n = Some p).
  { intros n k p Hn Hp. rewrite Hpaths, list_lookup_fmap in Hn.
    unfold preread_values. rewrite list_lookup_fmap.
    destruct (preread_items reg !! n) as [[k' p']|] eqn:Hit; [|done].
    simpl in Hn. injection Hn as ->.
    apply list_elem_of_lookup_2, preread_items_elem in Hit.
    rewrite Hit in Hp. by injection Hp as ->. }
  rewrite entry_mul2d_outer, !list_lookup_fmap, Hvi, Hvj.
  by rewrite (Hval _ _ _ Hi Hpi), (Hval _ _ _ Hj Hpj).
Qed.

End registry.

Lemma get_vcmt_registry_order_witness :
  ∃ vcm, get_vcmt (IfgDict two_ifg_registry) [1; 4]%float = Ok vcm ∧
    length vcm = 2 ∧
    ∀ i j ki kj pi pj vi vj,
      ["a.tif"; "b.tif"] !! i = Some ki → ["a.tif"; "b.tif"] !! j = Some kj →
      two_ifg_registry !! ki = Some (VPreread pi) →
      two_ifg_registry !! kj = Some (VPreread pj) →
      [1; 4]%float !! i = Some vi → [1; 4]%float !! j = Some vj →
      entry vcm i j = Some (sqrt vi * sqrt vj * structure_coeff pi pj)%float.
Proof.
  apply (get_vcmt_registry_order two_ifg_registry [1; 4]%float ["a.tif"; "b.tif"]).
  - repeat constructor.
  - intros k.
    replace ["a.tif"; "b.tif"] with (preread_items two_ifg_registry).*1
      by (by vm_compute).
    apply preread_keys_elem.
  - reflexivity.
Defined.

End VcmFacts.

(** ** Covariance versus distance *)

Module CvdFacts.

Import Vcm Spec Model FloatFacts.

Lemma bind_Ok {A B : Type} (m : res A) (k : A → res B) (b : B) :
  m ≫= k = Ok b → ∃ a, m = Ok a ∧ k a = Ok b.
Proof. destruct m as [a|e]; [|done]. intros Hk. by exists a. Qed.

Lemma Ok_inj {A : Type} (a b : A) : Ok a = Ok b → a = b.
Proof.
  intros Hab.
  by refine (match Hab in _ = r return
               match r with Ok y => a = y | Raise _ => True end
             with eq_refl => eq_refl end).
Qed.

Lemma fmap_Ok {A B : Type} (f : A → B) (m : res A) (b : B) :
  f <$> m = Ok b → ∃ a, m = Ok a ∧ b = f a.
Proof.
  destruct m as [a|e]; [|done]. intros Hk. exists a. split; [done|].
  symmetry. by apply Ok_inj.
Qed.

Lemma reshape1_Ok {A : Type} (a : list (list A)) (n : nat) (l : list A) :
  reshape1 a n = Ok l → l = concat a ∧ length (concat a) = n.
Proof.
  unfold reshape1. case_decide; [|done].
  intros Hl. apply Ok_inj in Hl. by subst.
Qed.

Lemma zip_cons {A B : Type} (x : A) (y : B) (l : list A) (k : list B) :
  zip (x :: l) (y :: k) = (x, y) :: zip l k.
Proof. reflexivity. Qed.

(** *** Selection by a boolean mask *)

Section select.
Context {A : Type} (f : float → bool).

Lemma mask_select_snd (rs : list float) (a : list A) :
  (filter (λ bx : bool * A, bx.1 = true) (zip (f <$> rs) a)).*2 =
  (filter (λ ra : float * A, f ra.1 = true) (zip rs a)).*2.
Proof.
  revert a. induction rs as [|r rs IH]; intros [|x a]; try done.
  rewrite fmap_cons, !zip_cons, !filter_cons.
  repeat case_decide; simplify_eq/=; try congruence; by rewrite ?IH.
Qed.

Lemma mask_select_self (rs : list float) :
  (filter (λ bx : bool * float, bx.1 = true) (zip (f <$> rs) rs)).*2 =
  filter (λ r, f r = true) rs.
Proof.
  induction rs as [|r rs IH]; [done|].
  rewrite fmap_cons, !zip_cons, !filter_cons.
  repeat case_decide; simplify_eq/=; try congruence; by rewrite ?IH.
Qed.

Lemma filter_zip_fst (rs : list float) (a : list A) :
  length rs = length a →
  (filter (λ ra : float * A, f ra.1 = true) (zip rs a)).*1 =
  filter (λ r, f r = true) rs.
Proof.
  revert a. induction rs as [|r rs IH]; intros [|x a]; try done.
  intros [= Hlen]. rewrite zip_cons, !filter_cons.
  repeat case_decide; simplify_eq/=; try congruence; by rewrite ?IH.
Qed.

End select.

Section cvd_facts.
Context `{!External}.

(** The two masked arrays of [cvd] are the two columns of [kept_points]. *)
Lemma cvd_select_ok (ifg : Ifg) (rs acgs : list float) :
  length rs = length acgs →
  cvd_select ifg rs acgs =
    Ok ((kept_points ifg rs acgs).*1, (kept_points ifg rs acgs).*2).
Proof.
  intros Hlen. unfold cvd_select, kept_points, mask_select.
  set (cut := ceil_half (num_cells ifg) + nrows ifg).
  assert (Hacg : take (length (take cut rs)) acgs = take cut acgs).
  { rewrite length_take, Hlen.
    destruct (decide (cut ≤ length acgs)).
    - by rewrite Nat.min_l.
    - rewrite Nat.min_r by lia. rewrite !take_ge; [done|lia..]. }
  rewrite Hacg.
  assert (Hl : length (take cut rs) = length (take cut acgs))
    by (by rewrite !length_take, Hlen).
  rewrite !decide_True by (by rewrite length_fmap). simpl.
  rewrite zip_with_take. do 2 f_equal.
  - rewrite mask_select_self.
    by rewrite (filter_zip_fst (λ r, (r <? maxdist ifg)%float) _ _ Hl).
  - apply (mask_select_snd (λ r, (r <? maxdist ifg)%float)).
Qed.

Lemma kept_points_elem (ifg : Ifg) r a :
  (r, a) ∈ kept_points ifg (r_flat ifg) (acg_flat ifg) ↔
  ∃ i, survives ifg i r a.
Proof.
  unfold kept_points, survives.
  rewrite list_elem_of_filter, list_elem_of_lookup.
  split.
  - intros [Hr [i Hi]]. exists i.
    apply lookup_take_Some in Hi as [Hi Hlt].
    rewrite lookup_zip_with in Hi.
    destruct (r_flat ifg !! i) as [r'|]; [|done]. simpl in Hi.
    destruct (acg_flat ifg !! i) as [a'|]; [|done]. simpl in Hi.
    by injection Hi as -> ->.
  - intros (i & Hlt & Hr & Ha & Hd). split; [done|]. exists i.
    apply lookup_take_Some. split; [|done].
    by rewrite lookup_zip_with, Hr, Ha.
Qed.

Lemma kept_acg_elem (ifg : Ifg) a :
  a ∈ (kept_points ifg (r_flat ifg) (acg_flat ifg)).*2 ↔
  ∃ i r, survives ifg i r a.
Proof.
  rewrite list_elem_of_fmap. split.
  - intros ([r a'] & -> & Hin). apply kept_points_elem in Hin as [i Hi].
    by exists i, r.
  - intros (i & r & Hi). exists (r, a). split; [done|].
    apply kept_points_elem. by exists i.
Qed.

(** What a successful call of [cvd] went through. *)
Lemma cvd_inv (ifg_path : IfgArg) (params : Params)
    (calc_alpha write_vals save_acg : bool) (out : CvdResult) :
  cvd ifg_path params calc_alpha write_vals save_acg = Ok out →
  let ifg := nan_and_mm_convert (ifg_of_arg ifg_path write_vals) params in
  let kept := kept_points ifg (r_flat ifg) (acg_flat ifg) in
  length (r_flat ifg) = num_cells ifg ∧
  length (acg_flat ifg) = num_cells ifg ∧
  F.np_max kept.*2 = Ok (cvd_maxvar out) ∧
  (if calc_alpha
   then ∃ alpha, fit_alpha kept.*1 kept.*2 (bin_width ifg) = Ok alpha ∧
                 cvd_alpha out = Some alpha
   else cvd_alpha out = None) ∧
  (if write_vals
   then _add_metadata ifg (cvd_maxvar out) (cvd_alpha out) = Ok (cvd_ifg out)
   else cvd_ifg out = ifg).
Proof.
  unfold cvd. cbv zeta.
  generalize (nan_and_mm_convert (ifg_of_arg ifg_path write_vals) params).
  intros ifg Hcvd.
  apply bind_Ok in Hcvd as (rs & Hrs & Hcvd).
  apply bind_Ok in Hcvd as (acgs & Hacgs & Hcvd).
  apply reshape1_Ok in Hrs as [-> Hlr], Hacgs as [-> Hla].
  fold (r_flat ifg) in Hcvd, Hlr. fold (acg_flat ifg) in Hcvd, Hla.
  rewrite cvd_select_ok in Hcvd by congruence.
  apply bind_Ok in Hcvd as (kept & Hkept & Hcvd).
  apply Ok_inj in Hkept. subst kept.
  cbn [fst snd] in Hcvd.
  apply bind_Ok in Hcvd as (saved & _ & Hcvd).
  apply bind_Ok in Hcvd as (maxvar & Hmax & Hcvd).
  apply bind_Ok in Hcvd as (alpha & Halpha & Hcvd).
  apply bind_Ok in Hcvd as (ifg' & Hifg & Hcvd).
  apply Ok_inj in Hcvd. subst out. cbn [cvd_maxvar cvd_alpha cvd_ifg].
  split; [exact Hlr|]. split; [exact Hla|]. split; [exact Hmax|]. split.
  - destruct calc_alpha.
    + apply fmap_Ok in Halpha as (al & Hal & ->). by exists al.
    + by apply Ok_inj in Halpha.
  - destruct write_vals; [done|]. by apply Ok_inj in Hifg.
Qed.

(** What [cvd] returns as maxvar.  The flattened distance and
    autocorrelation arrays are cut to their first ceil(num_cells/2) + nrows
    elements, of the remaining points those that pass the mask
    [r_dist < maxdist] are kept ([maxdist] being the smaller of
    x_centre*x_size and y_centre*y_size, in km) - the points strictly inside
    the circle - and the returned maxvar is the maximum autocorrelation
    among the points kept: it is the value of one of them and, being a
    number, no kept value exceeds it (a NaN among them is returned as it
    is).  The call does return when the arrays have [num_cells] elements and
    some point is kept. *)
Theorem cvd_maxvar_of_survivors (ifg_path : IfgArg) (params : Params)
    (calc_alpha write_vals save_acg : bool) :
  let ifg := nan_and_mm_convert (ifg_of_arg ifg_path write_vals) params in
  maxdist ifg =
    (if (F.float_of_Z (x_centre ifg) * x_size ifg
           <? F.float_of_Z (y_centre ifg) * y_size ifg)%float
     then (F.float_of_Z (x_centre ifg) * x_size ifg / 1000)%float
     else (F.float_of_Z (y_centre ifg) * y_size ifg / 1000)%float) ∧
  (∀ rs acgs r a,
     cvd_select ifg (r_flat ifg) (acg_flat ifg) = Ok (rs, acgs) →
     length (r_flat ifg) = length (acg_flat ifg) →
     (r, a) ∈ zip rs acgs ↔ ∃ i, survives ifg i r a) ∧
  (∀ i r a, survives ifg i r a → (maxdist ifg <? r)%float = false) ∧
  (∀ out, cvd ifg_path params calc_alpha write_vals save_acg = Ok out →
     (∃ i r, survives ifg i r (cvd_maxvar out)) ∧
     (∀ i r a, survives ifg i r a → is_nan (cvd_maxvar out) = false →
        (a <=? cvd_maxvar out)%float = true)) ∧
  (calc_alpha = false → write_vals = false → save_acg = false →
   length (r_flat ifg) = num_cells ifg →
   length (acg_flat ifg) = num_cells ifg →
   (∃ i r a, survives ifg i r a) →
   ∃ out, cvd ifg_path params calc_alpha write_vals save_acg = Ok out).
Proof.
  intros ifg. split; [done|]. split; [|split; [|split]].
  - intros rs acgs r a Hsel Hlen.
    rewrite cvd_select_ok in Hsel by done.
    assert (Hz : zip rs acgs = kept_points ifg (r_flat ifg) (acg_flat ifg)).
    { set (k := kept_points _ _ _) in *.
      apply Ok_inj in Hsel.
      assert (rs = k.*1 ∧ acgs = k.*2) as [-> ->] by (split; congruence).
      clear. induction k as [|[] k IH]; [done|].
      rewrite !fmap_cons, zip_cons. simpl. by rewrite IH. }
    rewrite Hz. apply kept_points_elem.
  - intros i r a (_ & _ & _ & Hlt). by apply ltb_asym.
  - intros out Hcvd. apply cvd_inv in Hcvd as (_ & _ & Hmax & _).
    apply np_max_spec in Hmax as [Hin Hle]. split.
    + by apply kept_acg_elem.
    + intros i r a Hs Hnan. apply Hle; [done|].
      apply kept_acg_elem. by exists i, r.
  - intros -> -> -> Hlr Hla (i & r & a & Hs).
    unfold cvd. fold ifg. unfold reshape1.
    fold (r_flat ifg). fold (acg_flat ifg).
    rewrite !decide_True by done. simpl.
    rewrite cvd_select_ok by congruence. simpl.
    destruct (np_max_nonempty (kept_points ifg (r_flat ifg) (acg_flat ifg)).*2)
      as [m Hm].
    { intros Hnil. apply fmap_nil_inv in Hnil.
      assert (Hin : (r, a) ∈ kept_points ifg (r_flat ifg) (acg_flat ifg))
        by (apply kept_points_elem; by exists i).
      rewrite Hnil in Hin. by apply elem_of_nil in Hin. }
    rewrite Hm. simpl. by eexists.
Qed.

(** *** The metadata written by [cvd] *)

Lemma _add_metadata_Ok (ifg ifg' : Ifg) (maxvar : float) (alpha : option float) :
  _add_metadata ifg maxvar alpha = Ok ifg' →
  phase_data ifg' = phase_data ifg ∧
  meta_data ifg' =
    <[PYRATE_ALPHA := alpha_str alpha]>
      (<[PYRATE_MAXVAR := float_str maxvar]> (meta_data ifg)) ∧
  dataset ifg' = mkDataset (phase_data ifg) (meta_data ifg').
Proof.
  unfold _add_metadata, write_modified_phase. cbv zeta.
  destruct (is_read_only _); [done|].
  intros Hw. apply Ok_inj in Hw. by subst ifg'.
Qed.

(** C4 (as amended): [cvd] changes the interferogram it works on only
    through the conversion [nan_and_mm_convert] at its entry and, with
    write_vals=True, through the two metadata entries.  With write_vals=False
    the interferogram is left exactly as the conversion leaves it, hence
    unchanged when it is already converted; with write_vals=True the
    metadata are those left by the conversion with exactly the keys maxvar
    and alpha set (to the strings of the two values), every other key
    unchanged, and the phase values are those left by the conversion, which
    are written back with the metadata. *)
Theorem cvd_frame (ifg_path : IfgArg) (params : Params)
    (calc_alpha write_vals save_acg : bool) (out : CvdResult) :
  cvd ifg_path params calc_alpha write_vals save_acg = Ok out →
  let ifg0 := ifg_of_arg ifg_path write_vals in
  let ifg := nan_and_mm_convert ifg0 params in
  phase_data (cvd_ifg out) = phase_data ifg ∧
  (write_vals = false → cvd_ifg out = ifg) ∧
  (write_vals = false → ifg = ifg0 → cvd_ifg out = ifg0) ∧
  (write_vals = true →
   meta_data (cvd_ifg out) =
     <[PYRATE_ALPHA := alpha_str (cvd_alpha out)]>
       (<[PYRATE_MAXVAR := float_str (cvd_maxvar out)]> (meta_data ifg)) ∧
   (∀ k, k ≠ PYRATE_MAXVAR → k ≠ PYRATE_ALPHA →
      meta_data (cvd_ifg out) !! k = meta_data ifg !! k) ∧
   dataset (cvd_ifg out) = mkDataset (phase_data ifg) (meta_data (cvd_ifg out))).
Proof.
  intros Hcvd ifg0 ifg.
  apply cvd_inv in Hcvd as (_ & _ & _ & _ & Hw). fold ifg0 ifg in Hw.
  destruct write_vals.
  - apply _add_metadata_Ok in Hw as (Hph & Hmd & Hds).
    split; [done|]. split; [done|]. split; [done|]. intros _.
    split; [done|]. split; [|done].
    intros k Hk1 Hk2. by rewrite Hmd, !lookup_insert_ne.
  - rewrite Hw. split; [done|]. split; [done|]. split; [|done].
    by intros _ Hconv.
Qed.

(** *** The exponential fit *)

Lemma max_int_spec (l : list Z) (m : Z) :
  max_int l = Ok m → m ∈ l ∧ ∀ b, b ∈ l → (b ≤ m)%Z.
Proof.
  destruct l as [|x l]; [done|]. simpl. intros Hm. apply Ok_inj in Hm.
  revert x m Hm. induction l as [|y l IH]; intros x m Hm; simpl in Hm.
  - subst m. split; [by left|]. intros b Hb.
    by apply list_elem_of_singleton in Hb as ->.
  - destruct (IH _ _ Hm) as [Hin Hle]. split.
    + apply elem_of_cons in Hin as [->|Hin]; [|by do 2 right].
      destruct (x <? y)%Z; [by right; left|by left].
    + intros b Hb.
      assert (Hxy : ((if (x <? y)%Z then y else x) ≤ m)%Z)
        by (apply Hle; by left).
      apply elem_of_cons in Hb as [->|Hb];
        [|apply elem_of_cons in Hb as [->|Hb]].
      * destruct (Z.ltb_spec x y); lia.
      * destruct (Z.ltb_spec x y); lia.
      * apply Hle. by right.
Qed.

(** The fit of [cvd] with calc_alpha=True.  The one-parameter model
    mx * exp(-alpha * r) is fitted to the per-bin mean autocorrelations by
    handing the norm of the residual to the numerical minimiser, seeded at
    2 / (maxbin * bin_width) with bin_width = 2 * max(x_size, y_size) / 1000.
    The bins are 0 .. maxbin-1, bin b standing at distance b * bin_width with
    the mean of the autocorrelations of the kept points whose bin number
    ceil(r / bin_width) is b, and maxbin is the largest bin number.  The
    amplitude mx that [pendiffexp] uses is the mean of bin 0 (an error when
    there is no bin); the maximum that [cvd] returns as maxvar is not passed
    to it. *)
Theorem cvd_alpha_fit (ifg_path : IfgArg) (params : Params)
    (write_vals save_acg : bool) (out : CvdResult) :
  cvd ifg_path params true write_vals save_acg = Ok out →
  let ifg := nan_and_mm_convert (ifg_of_arg ifg_path write_vals) params in
  let kept := kept_points ifg (r_flat ifg) (acg_flat ifg) in
  let bw := (2 * F.py_max (x_size ifg) (y_size ifg) / 1000)%float in
  let rbin := (λ r, F.ceil_int (r / bw)%float) <$> kept.*1 in
  ∃ (maxbin : Z) (cvdav : Cvdav) (alpha : float),
    cvd_alpha out = Some alpha ∧
    fmin (λ a, pendiffexp a cvdav) (2 / (F.float_of_Z maxbin * bw))%float
      = Ok alpha ∧
    (0 ≤ maxbin)%Z ∧ maxbin ∈ rbin ∧ (∀ b, b ∈ rbin → (b ≤ maxbin)%Z) ∧
    length (cvdav_dist cvdav) = Z.to_nat maxbin ∧
    length (cvdav_mean cvdav) = Z.to_nat maxbin ∧
    (∀ b : nat, (Z.of_nat b < maxbin)%Z →
       cvdav_dist cvdav !! b = Some (F.float_of_Z (Z.of_nat b) * bw)%float ∧
       cvdav_mean cvdav !! b =
         Some (np_mean (bin_members rbin kept.*2 (Z.of_nat b)))) ∧
    (∀ a, pendiffexp a cvdav =
          match cvdav_mean cvdav !! 0 with
          | Some mx => Ok (np_norm (model_residual mx cvdav a))
          | None => Raise IndexError
          end).
Proof.
  intros Hcvd ifg kept bw rbin.
  apply cvd_inv in Hcvd as (_ & _ & _ & (alpha & Hfit & Halpha) & _).
  fold ifg in Hfit. fold kept in Hfit.
  assert (Hbw : bin_width ifg = bw).
  { unfold bin_width, bw. by rewrite (mul_comm _ 2). }
  rewrite Hbw in Hfit. unfold fit_alpha in Hfit.
  apply bind_Ok in Hfit as ([maxbin cvdav] & Hbins & Hfit).
  unfold bin_means in Hbins. fold rbin in Hbins.
  apply bind_Ok in Hbins as (maxbin' & Hmax & Hbins).
  destruct (Z.ltb_spec maxbin' 0) as [|Hpos]; [done|].
  apply Ok_inj in Hbins.
  assert (maxbin' = maxbin) as -> by congruence.
  apply max_int_spec in Hmax as [Hin Hle].
  exists maxbin, cvdav, alpha.
  split; [done|]. split; [done|]. split; [done|]. split; [done|].
  split; [done|].
  assert (cvdav =
    mkCvdav
      ((λ b, (F.float_of_Z b * bw)%float) <$>
         (Z.of_nat <$> seq 0 (Z.to_nat maxbin)))
      ((λ b, np_mean (bin_members rbin kept.*2 b)) <$>
         (Z.of_nat <$> seq 0 (Z.to_nat maxbin)))) as -> by congruence.
  cbn [cvdav_dist cvdav_mean].
  split; [by rewrite !length_fmap, length_seq|].
  split; [by rewrite !length_fmap, length_seq|].
  split.
  - intros b Hb.
    rewrite !list_lookup_fmap, lookup_seq_lt by lia. done.
  - intros a. unfold pendiffexp, index, model_residual.
    cbn [cvdav_dist cvdav_mean]. by destruct (_ !! 0).
Qed.

End cvd_facts.

(** *** The three statements on concrete rasters *)

Section examples.

#[local] Instance no_files : External := external ∅.

Lemma cvd_5x5_returns (calc_alpha write_vals : bool) :
  ∃ out, cvd (ByIfg raster_5x5) params0 calc_alpha write_vals false = Ok out.
Proof. destruct calc_alpha, write_vals; vm_compute; by eexists. Qed.

(** On the 5×5 raster the maximum is the zero-lag value, at the centre. *)
Lemma cvd_maxvar_of_survivors_witness :
  ∃ out, cvd (ByIfg raster_5x5) params0 false false false = Ok out ∧
    (∃ i r, survives raster_5x5 i r (cvd_maxvar out)) ∧
    (∀ i r a, survives raster_5x5 i r a → is_nan (cvd_maxvar out) = false →
       (a <=? cvd_maxvar out)%float = true).
Proof.
  destruct (cvd_maxvar_of_survivors (ByIfg raster_5x5) params0 false false false)
    as (_ & _ & _ & Hmax & Hret).
  destruct Hret as [out Hout]; try done.
  { exists 12, 0%float, (grid_get (space_autocorr (phase_data raster_5x5)) 2 2).
    split; [vm_compute; lia|]. by vm_compute. }
  exists out. split; [done|]. by apply Hmax.
Defined.

(** C2 (the code at the failing input): on the wide 2×6 raster the cut
    after ceil(12/2) + 2 = 8 points drops the zero-lag point (index 9), a
    single point is kept (index 7, at 2 km), it falls into bin 1, so bin 0 is
    empty and the amplitude that [pendiffexp] reads, its mean, is NaN, while
    the returned maxvar is the autocorrelation of the kept point: the model
    that is fitted is NaN * exp(-alpha * r), not maxvar * exp(-alpha * r).
    On the 5×5 raster, where the zero-lag point is kept, bin 0 holds that
    point alone and the amplitude is the returned maxvar. *)
Theorem cvd_amplitude_is_not_maxvar :
  let ifg := raster_2x6 in
  let kept := kept_points ifg (r_flat ifg) (acg_flat ifg) in
  let kept5 := kept_points raster_5x5 (r_flat raster_5x5) (acg_flat raster_5x5) in
  ∃ maxvar maxvar5 maxbin5 cvdav5,
    cvd_maxvar <$> cvd (ByIfg ifg) params0 true false false = Ok maxvar ∧
    kept.*1 = [2%float] ∧ kept.*2 = [maxvar] ∧
    bin_means kept.*1 kept.*2 (bin_width ifg)
      = Ok (1%Z, mkCvdav [0%float] [PrimFloat.nan]) ∧
    is_nan PrimFloat.nan = true ∧ is_nan maxvar = false ∧
    cvd_maxvar <$> cvd (ByIfg raster_5x5) params0 true false false
      = Ok maxvar5 ∧
    bin_means kept5.*1 kept5.*2 (bin_width raster_5x5) = Ok (maxbin5, cvdav5) ∧
    cvdav_mean cvdav5 !! 0 = Some maxvar5.
Proof. vm_compute. by do 4 eexists. Qed.

(** C3 (the code at the failing input): on a 2×6 raster with
    1000 m × 2500 m pixels and two equal rows, [maxdist] is 2.5 km and
    point 3, one row above the centre, lies at exactly 2.5 km: it is among
    the first 8 points and not beyond the radius, but the mask
    [r_dist < maxdist] drops it.  The only point kept is point 7, and the
    returned maxvar, its autocorrelation, is smaller than that of point 3:
    it is not the maximum among the points that are not beyond the
    radius. *)
Theorem cvd_drops_the_point_on_the_radius :
  let ifg := raster_twin_rows in
  let kept := kept_points ifg (r_flat ifg) (acg_flat ifg) in
  ∃ maxvar a,
    cvd_maxvar <$> cvd (ByIfg ifg) params0 false false false = Ok maxvar ∧
    maxdist ifg = 2.5%float ∧
    not_beyond_radius ifg 3 2.5 a ∧
    (2.5 <? maxdist ifg)%float = false ∧
    kept = [(2%float, maxvar)] ∧
    (maxvar <? a)%float = true.
Proof.
  vm_compute. do 2 eexists. repeat split; first [reflexivity | lia].
Qed.

Lemma cvd_frame_witness :
  ∃ out, cvd (ByIfg raster_5x5) params0 true true false = Ok out ∧
    phase_data (cvd_ifg out) = phase_data raster_5x5 ∧
    meta_data (cvd_ifg out) =
      <["CVD_ALPHA" := alpha_str (cvd_alpha out)]>
        (<["CVD_MAXVAR" := float_str (cvd_maxvar out)]> (meta_data raster_5x5)).
Proof.
  destruct (cvd_5x5_returns true true) as [out Hout].
  destruct (cvd_frame _ _ _ _ _ _ Hout) as (Hph & _ & _ & Hmd).
  destruct (Hmd eq_refl) as (Hmd' & _ & _).
  by exists out.
Defined.

(** C4 as stated fails on an interferogram that is still in radians: with
    write_vals=False the call leaves its phase converted to millimetres. *)
Lemma cvd_converts_phase :
  phase_data raster_3x3 = [[1; 2; 3]; [4; 5; 6]; [7; 8; 10]]%float ∧
  (λ out, phase_data (cvd_ifg out))
    <$> cvd (ByIfg raster_3x3) params0 false false false
    = Ok [[4.5; 9; 13.5]; [18; 22.5; 27]; [31.5; 36; 45]]%float ∧
  (1 =? 4.5)%float = false.
Proof. by vm_compute. Qed.

End examples.

End CvdFacts.

(** ** The stages of the pipeline *)

Module RunPyrateFacts.

Import Vcm RunPyrate Spec Model FloatFacts.
Import CvdFacts.

(** *** The reference pixel *)

Section ref_pixel.
Context `{!External} `{!Stages}.

(** C6 (as amended): a supplied reference-pixel coordinate with
    refx > ncols - 1 or refy > nrows - 1 makes [ref_pixel_calc] fail with the
    fatal input error [ValueError]; a supplied coordinate with
    0 < refx <= ncols - 1 and 0 < refy <= nrows - 1 is reused without running
    the search. *)
Theorem ref_pixel_calc_bounds (ifg_paths : list string) (params : Params)
    (first : string) :
  ifg_paths !! 0 = Some first →
  let ifg := open_ifg first true in
  let refx := REFX params in
  let refy := REFY params in
  ((Z.of_nat (ncols ifg) - 1 < refx ∨ Z.of_nat (nrows ifg) - 1 < refy)%Z →
   ref_pixel_calc ifg_paths params = Raise ValueError) ∧
  ((0 < refx ≤ Z.of_nat (ncols ifg) - 1)%Z →
   (0 < refy ≤ Z.of_nat (nrows ifg) - 1)%Z →
   ref_pixel_calc ifg_paths params = Ok (refx, refy, [Reusing refx refy])).
Proof.
  intros Hfirst ifg refx refy. unfold ref_pixel_calc, index.
  rewrite Hfirst. simpl. fold ifg refx refy. split.
  - intros Hout.
    destruct (Z.ltb_spec (Z.of_nat (ncols ifg) - 1) refx); [done|].
    destruct (Z.ltb_spec (Z.of_nat (nrows ifg) - 1) refy); [done|]. lia.
  - intros Hx Hy.
    destruct (Z.ltb_spec (Z.of_nat (ncols ifg) - 1) refx); [lia|].
    destruct (Z.ltb_spec (Z.of_nat (nrows ifg) - 1) refy); [lia|].
    destruct (Z.leb_spec refx 0); [lia|].
    destruct (Z.leb_spec refy 0); [lia|]. done.
Qed.

(** C10 (as amended): a supplied coordinate with refx <= 0 or refy <= 0,
    neither component above its upper bound (refx <= ncols - 1 and
    refy <= nrows - 1), is treated as absent: [ref_pixel_calc] runs the
    reference-pixel search and returns what it selects, raising no error of
    its own; in particular (0, 0) is never reused and negative coordinates
    are not reported as a fatal input error. *)
Theorem ref_pixel_calc_nonpositive (ifg_paths : list string) (params : Params)
    (first : string) :
  ifg_paths !! 0 = Some first →
  let ifg := open_ifg first true in
  let refx := REFX params in
  let refy := REFY params in
  (refx ≤ Z.of_nat (ncols ifg) - 1)%Z →
  (refy ≤ Z.of_nat (nrows ifg) - 1)%Z →
  (refx ≤ 0 ∨ refy ≤ 0)%Z →
  ref_pixel_calc ifg_paths params =
    (yx ← find_ref_pixel ifg_paths params;
     Ok (yx.2, yx.1, [Searching; Selected yx.2 yx.1])).
Proof.
  intros Hfirst ifg refx refy Hx Hy Hnonpos. unfold ref_pixel_calc, index.
  rewrite Hfirst. simpl. fold ifg refx refy.
  destruct (Z.ltb_spec (Z.of_nat (ncols ifg) - 1) refx); [lia|].
  destruct (Z.ltb_spec (Z.of_nat (nrows ifg) - 1) refy); [lia|].
  assert (Hor : (refx <=? 0)%Z || (refy <=? 0)%Z = true).
  { destruct (Z.leb_spec refx 0), (Z.leb_spec refy 0); simpl; try done; lia. }
  rewrite Hor. by destruct (find_ref_pixel ifg_paths params) as [[]|].
Qed.

End ref_pixel.

Section ref_pixel_examples.

#[local] Instance two_files_external : External := external two_files.
#[local] Instance two_files_stages : Stages := stages two_files.

Lemma ref_pixel_calc_bounds_witness :
  ref_pixel_calc ["a.tif"; "b.tif"] (mkParams "/tmp" 9 2 2 false)
    = Raise ValueError ∧
  ref_pixel_calc ["a.tif"; "b.tif"] (mkParams "/tmp" 3 2 2 false)
    = Ok (3%Z, 2%Z, [Reusing 3 2]).
Proof.
  split.
  - apply (ref_pixel_calc_bounds _ (mkParams "/tmp" 9 2 2 false) "a.tif");
      [done|]. left. vm_compute. done.
  - apply (ref_pixel_calc_bounds _ (mkParams "/tmp" 3 2 2 false) "a.tif");
      [done| |]; vm_compute; by split.
Defined.

(** C6 as stated fails on the 5×5 raster for the coordinate (-1, -1), which
    is no valid column or row index and yet raises nothing (the search runs),
    and for the in-bounds coordinate (0, 2), which is not reused. *)
Lemma ref_pixel_calc_negative_is_no_error :
  ncols (open_ifg "a.tif" true) = 5 ∧ nrows (open_ifg "a.tif" true) = 5 ∧
  ref_pixel_calc ["a.tif"; "b.tif"] (mkParams "/tmp" (-1) (-1) 2 false)
    = Ok (1%Z, 1%Z, [Searching; Selected 1 1]) ∧
  ref_pixel_calc ["a.tif"; "b.tif"] (mkParams "/tmp" 0 2 2 false)
    = Ok (1%Z, 1%Z, [Searching; Selected 1 1]).
Proof. by vm_compute. Qed.

Lemma ref_pixel_calc_nonpositive_witness :
  ref_pixel_calc ["a.tif"; "b.tif"] (mkParams "/tmp" 0 0 2 false)
    = Ok (1%Z, 1%Z, [Searching; Selected 1 1]).
Proof.
  rewrite (ref_pixel_calc_nonpositive _ (mkParams "/tmp" 0 0 2 false) "a.tif");
    [done|done| | |]; vm_compute; try done. by left.
Defined.

(** C10 as stated fails for the coordinate (0, 7) on the 5×5 raster: refx <= 0,
    but the check of refy against the number of rows comes first and raises
    the fatal input error instead of running the search. *)
Lemma ref_pixel_calc_nonpositive_can_raise :
  nrows (open_ifg "a.tif" true) = 5 ∧
  ref_pixel_calc ["a.tif"; "b.tif"] (mkParams "/tmp" 0 7 2 false)
    = Raise ValueError.
Proof. by vm_compute. Qed.

End ref_pixel_examples.

(** *** The preread registry *)

Section registry.
Context `{!Partition} `{!External} `{!Stages}.

Lemma local_ifgs_dict_lookup (params : Params) (l : list string) (k : string) :
  local_ifgs_dict params l !! k =
    if decide (k ∈ l) then Some (VPreread (make_preread params k)) else None.
Proof.
  unfold local_ifgs_dict.
  assert (Hgen : ∀ acc : gmap string RegValue,
    foldl (λ ifgs_dict d, <[d := VPreread (make_preread params d)]> ifgs_dict)
      acc l !! k =
    if decide (k ∈ l) then Some (VPreread (make_preread params k))
    else acc !! k).
  { induction l as [|x l IH]; intros acc; cbn [foldl].
    - by rewrite decide_False by apply not_elem_of_nil.
    - rewrite IH. destruct (decide (k ∈ l)) as [Hl|Hl].
      + by rewrite decide_True by (by right).
      + destruct (decide (k = x)) as [->|Hne].
        * rewrite decide_True by (by left). by rewrite lookup_insert_eq.
        * rewrite decide_False by (by intros [?|?]%elem_of_cons).
          by rewrite lookup_insert_ne. }
  rewrite Hgen. by case_decide.
Qed.

(** The joined dictionary holds the entry of every path of every shard. *)
Lemma join_dicts_lookup (params : Params) (shard : nat → list string)
    (ranks : list nat) (k : string) :
  _join_dicts ((λ r, local_ifgs_dict params (shard r)) <$> ranks) !! k =
    if decide (k ∈ concat (shard <$> ranks))
    then Some (VPreread (make_preread params k)) else None.
Proof.
  unfold _join_dicts.
  assert (Hgen : ∀ acc : gmap string RegValue,
    foldl (λ assembled D, D ∪ assembled) acc
      ((λ r, local_ifgs_dict params (shard r)) <$> ranks) !! k =
    if decide (k ∈ concat (shard <$> ranks))
    then Some (VPreread (make_preread params k)) else acc !! k).
  { induction ranks as [|r ranks IH]; intros acc;
      cbn [foldl fmap list_fmap concat].
    - by rewrite decide_False by apply not_elem_of_nil.
    - rewrite IH. destruct (decide (k ∈ concat (shard <$> ranks))) as [Hl|Hl].
      + by rewrite decide_True by (apply elem_of_app; by right).
      + rewrite lookup_union, local_ifgs_dict_lookup.
        destruct (decide (k ∈ shard r)) as [Hr|Hr].
        * rewrite decide_True by (apply elem_of_app; by left).
          by destruct (acc !! k).
        * rewrite decide_False by (by intros [?|?]%elem_of_app).
          by destruct (acc !! k). }
  rewrite Hgen. by case_decide.
Qed.

Lemma dump_all_workers (ranks : list nat) (nprocs : nat)
    (dest_tifs : list string) (params : Params)
    (gathered : list (gmap string RegValue)) (fs : FS) :
  Forall (λ r, r ≠ MASTER_PROCESS) ranks →
  dump_all ranks nprocs dest_tifs params gathered fs = Ok fs.
Proof.
  induction 1 as [|r ranks Hr _ IH]; [done|]. simpl.
  unfold create_ifg_dict_dump. simpl.
  destruct (Nat.eqb_spec r MASTER_PROCESS); [done|]. simpl. apply IH.
Qed.

(** C7 (as amended): after [create_ifg_dict] completes, every worker holds
    the same registry: the union of all workers' path→PrereadIfg maps, which
    has an entry for every path of dest_tifs, plus exactly four global keys -
    the epoch list, the geotransform, the raster metadata and the
    well-known-text projection - added once by the master process before the
    structure is persisted and reloaded by all workers. *)
Theorem create_ifg_dict_registry (nprocs : nat) (dest_tifs : list string)
    (params : Params) (fs : FS) (first : string) :
  0 < nprocs →
  partition_complete nprocs dest_tifs →
  array_split nprocs dest_tifs MASTER_PROCESS !! 0 = Some first →
  ∃ (joined reg : gmap string RegValue) (fs' : FS),
    create_ifg_dict nprocs dest_tifs params fs = Ok (replicate nprocs reg, fs') ∧
    pickles fs' !! preread_ifgs_file params = Some reg ∧
    joined = _join_dicts ((λ r, local_ifgs_dict params
                                  (array_split nprocs dest_tifs r))
                            <$> seq 0 nprocs) ∧
    (∀ k, joined !! k =
          if decide (k ∈ dest_tifs)
          then Some (VPreread (make_preread params k)) else None) ∧
    reg = <["wkt" := VProjection (get_projection_info first).2]>
            (<["md" := VMetadata (get_projection_info first).1.2]>
               (<["gt" := VGeoTransform (get_projection_info first).1.1]>
                  (<["epochlist" := VEpochList (get_epochs joined)]> joined))) ∧
    dom reg = list_to_set dest_tifs ∪ {["epochlist"; "gt"; "md"; "wkt"]}.
Proof.
  intros Hpos Hpart Hfirst.
  set (joined := _join_dicts _).
  assert (Hjoined : ∀ k, joined !! k =
            if decide (k ∈ dest_tifs)
            then Some (VPreread (make_preread params k)) else None).
  { intros k. unfold joined.
    rewrite (join_dicts_lookup params (array_split nprocs dest_tifs)).
    apply decide_ext. unfold partition_complete in Hpart. by rewrite Hpart. }
  set (reg := <["wkt" := VProjection (get_projection_info first).2]>
            (<["md" := VMetadata (get_projection_info first).1.2]>
               (<["gt" := VGeoTransform (get_projection_info first).1.1]>
                  (<["epochlist" := VEpochList (get_epochs joined)]> joined)))).
  exists joined, reg,
    (mkFS (<[preread_ifgs_file params := reg]> (pickles fs)) (arrays fs)).
  assert (Hdump :
    dump_all (seq 0 nprocs) nprocs dest_tifs params
      ((λ r, local_ifgs_dict params (array_split nprocs dest_tifs r))
         <$> seq 0 nprocs) fs =
    Ok (mkFS (<[preread_ifgs_file params := reg]> (pickles fs)) (arrays fs))).
  { destruct nprocs as [|n]; [lia|].
    rewrite <- cons_seq at 1. cbn [dump_all].
    unfold create_ifg_dict_dump at 1. cbn [rank size].
    replace (0 =? MASTER_PROCESS) with true by done.
    fold joined. unfold add_global_keys, index.
    unfold MASTER_PROCESS in Hfirst. rewrite Hfirst.
    destruct (get_projection_info first) as [[gt md] wkt] eqn:Hgt.
    cbn -[dump_all]. subst reg. rewrite Hgt. cbn -[dump_all].
    apply dump_all_workers, Forall_seq. intros j Hj. unfold MASTER_PROCESS. lia. }
  split.
  { unfold create_ifg_dict. cbv zeta. rewrite Hdump. simpl.
    rewrite (VcmFacts.for_each_ok _ (λ _, reg)).
    - simpl. do 2 f_equal.
      rewrite (const_fmap _ _ reg) by done. by rewrite length_seq.
    - intros r _. unfold create_ifg_dict_load. simpl.
      by rewrite lookup_insert_eq. }
  split; [by simpl; rewrite lookup_insert_eq|].
  split; [done|]. split; [done|]. split; [done|].
  subst reg. rewrite !dom_insert_L.
  assert (Hdom : dom joined = list_to_set dest_tifs).
  { apply set_eq. intros k.
    rewrite elem_of_dom, elem_of_list_to_set, Hjoined.
    case_decide; split; by try done. }
  rewrite Hdom. apply set_eq. intros k.
  rewrite !elem_of_union, !elem_of_singleton. tauto.
Qed.

End registry.

Section registry_examples.

#[local] Instance registry_partition : Partition := np_array_split.
#[local] Instance registry_external : External := external two_files.
#[local] Instance registry_stages : Stages := stages two_files.

Lemma create_ifg_dict_registry_witness :
  ∃ (reg : gmap string RegValue) (fs' : FS),
    create_ifg_dict 2 ["a.tif"; "b.tif"] params0 (mkFS ∅ ∅)
      = Ok ([reg; reg], fs') ∧
    dom reg = list_to_set ["a.tif"; "b.tif"] ∪ {["epochlist"; "gt"; "md"; "wkt"]}.
Proof.
  assert (Hpart : partition_complete 2 ["a.tif"; "b.tif"]) by (by vm_compute).
  destruct (create_ifg_dict_registry 2 ["a.tif"; "b.tif"] params0 (mkFS ∅ ∅)
              "a.tif" (Nat.lt_0_succ 1) Hpart eq_refl)
    as (joined & reg & fs' & Hrun & _ & _ & _ & _ & Hdom).
  by exists reg, fs'.
Defined.

(** C7 as stated fails on any run: the master adds four entries, not three.
    With one process and one interferogram the registry has five keys; the
    raster metadata stand under "md", which is neither the path nor one of
    the three keys of the claim. *)
Lemma create_ifg_dict_has_four_global_keys :
  ∃ (reg : gmap string RegValue) (fs' : FS),
    create_ifg_dict 1 ["a.tif"] params0 (mkFS ∅ ∅) = Ok ([reg], fs') ∧
    reg !! "md" = Some (VMetadata ∅) ∧
    length (map_to_list reg) = 5 ∧
    bool_decide
      ("md" ∈ (list_to_set ["a.tif"] ∪ {["epochlist"; "gt"; "wkt"]} : gset string))
      = false.
Proof. vm_compute. by do 2 eexists. Qed.

End registry_examples.

(** *** The assembly of the reference phases *)

Lemma elem_of_concat {A : Type} (x : A) (ls : list (list A)) :
  x ∈ concat ls ↔ ∃ l, x ∈ l ∧ l ∈ ls.
Proof.
  induction ls as [|l ls IH]; simpl.
  - split; [by intros ?%elem_of_nil|by intros (l & _ & ?%elem_of_nil)].
  - rewrite elem_of_app, IH. split.
    + intros [Hx|(l' & Hx & Hl')]; [exists l; split; [done|by left]|].
      exists l'. split; [done|by right].
    + intros (l' & Hx & [->|Hl']%elem_of_cons); [by left|].
      right. by exists l'.
Qed.

Section reassembly.
Context `{!Partition}.

(** An index assignment stores each value at its index and nothing else. *)

Lemma scatter_cons (a : list float) j idx v vals :
  scatter a (j :: idx) (v :: vals) = scatter (<[j := v]> a) idx vals.
Proof. reflexivity. Qed.

Lemma scatter_length (a : list float) idx vals :
  length (scatter a idx vals) = length a.
Proof.
  revert a vals. induction idx as [|j idx IH]; intros a [|v vals]; try done.
  by rewrite scatter_cons, IH, length_insert.
Qed.

Lemma scatter_notin (a : list float) idx vals i :
  i ∉ idx → scatter a idx vals !! i = a !! i.
Proof.
  revert a vals. induction idx as [|j idx IH]; intros a [|v vals] Hi; try done.
  rewrite scatter_cons, IH by (intros ?; apply Hi; by right).
  apply list_lookup_insert_ne. intros ->. apply Hi. by left.
Qed.

Lemma scatter_in (a : list float) idx vals k i :
  NoDup idx → length idx = length vals →
  idx !! k = Some i → i < length a →
  scatter a idx vals !! i = vals !! k.
Proof.
  revert a vals k.
  induction idx as [|j idx IH]; intros a [|v vals] k Hnd Hlen Hk Hi; try done.
  apply NoDup_cons in Hnd as [Hj Hnd]. rewrite scatter_cons.
  destruct k as [|k]; simpl in Hk.
  - injection Hk as ->. rewrite scatter_notin by done.
    by apply list_lookup_insert_eq.
  - change ((v :: vals) !! S k) with (vals !! k).
    apply IH; try done; [by injection Hlen|by rewrite length_insert].
Qed.

Lemma range_split_pos (nprocs n r : nat) :
  0 < n →
  range_split nprocs n r = mkIndexArray true (array_split nprocs (seq 0 n) r).
Proof. intros Hn. unfold range_split. by destruct n; [lia|]. Qed.

Lemma setitem_ok (a : list float) idx vals :
  Forall (λ i, i < length a) idx → length vals = length idx →
  setitem a (mkIndexArray true idx) vals = Ok (scatter a idx vals).
Proof.
  intros Hidx Hlen. unfold setitem. cbn [integer_dtype indices].
  assert (Hall : forallb (λ i, i <? length a) idx = true).
  { apply forallb_forall. intros i Hi%list_elem_of_In.
    rewrite Forall_forall in Hidx. apply Nat.ltb_lt. by apply Hidx. }
  by rewrite Hall, Hlen, Nat.eqb_refl.
Qed.

Lemma take_message_unique (inbox : list Message) r payload :
  NoDup (msg_source <$> inbox) →
  mkMessage r r payload ∈ inbox →
  ∃ rest, take_message r r inbox = Some (mkMessage r r payload, rest) ∧
          inbox ≡ₚ mkMessage r r payload :: rest.
Proof.
  induction inbox as [|m inbox IH]; intros Hnd Hin.
  { by apply elem_of_nil in Hin. }
  rewrite fmap_cons in Hnd. apply NoDup_cons in Hnd as [Hm Hnd].
  simpl. apply elem_of_cons in Hin as [<-|Hin].
  - simpl. rewrite !Nat.eqb_refl. simpl. by exists inbox.
  - assert (Hsrc : msg_source m ≠ r).
    { intros Heq. apply Hm. rewrite Heq.
      by apply (list_elem_of_fmap_2 msg_source) in Hin. }
    destruct (Nat.eqb_spec (msg_source m) r); [done|]. simpl.
    destruct (IH Hnd Hin) as (rest & -> & Hperm).
    exists (m :: rest). split; [done|].
    rewrite Hperm. apply Permutation_swap.
Qed.

Section loop.
Context (nprocs n : nat) (shards : nat → list float).

Let idx (r : nat) : list nat := array_split nprocs (seq 0 n) r.
Let step (a : list float) (r : nat) : list float := scatter a (idx r) (shards r).

Lemma fold_step_length (rs : list nat) (a : list float) :
  length (foldl step a rs) = length a.
Proof.
  revert a. induction rs as [|r rs IH]; intros a; [done|].
  simpl. rewrite IH. apply scatter_length.
Qed.

Lemma fold_step_notin (rs : list nat) (a : list float) i :
  i ∉ concat (idx <$> rs) → foldl step a rs !! i = a !! i.
Proof.
  revert a. induction rs as [|r rs IH]; intros a Hi; [done|].
  rewrite fmap_cons in Hi. simpl in Hi. rewrite elem_of_app in Hi.
  simpl. rewrite IH by tauto. apply scatter_notin. tauto.
Qed.

Lemma fold_step_in (rs : list nat) (a : list float) r k i :
  NoDup (concat (idx <$> rs)) →
  (∀ r', r' ∈ rs → length (shards r') = length (idx r')) →
  r ∈ rs → idx r !! k = Some i → i < length a →
  foldl step a rs !! i = shards r !! k.
Proof.
  revert a. induction rs as [|r0 rs IH]; intros a Hnd Hlen Hr Hk Hi.
  { by apply elem_of_nil in Hr. }
  rewrite fmap_cons in Hnd. simpl in Hnd.
  apply NoDup_app in Hnd as (Hnd0 & Hdisj & Hnd).
  simpl. destruct (decide (r = r0)) as [->|Hne].
  - rewrite fold_step_notin.
    + apply scatter_in; try done. symmetry. apply Hlen. by left.
    + apply Hdisj. by eapply list_elem_of_lookup_2.
  - apply IH; try done.
    + intros r' Hr'. apply Hlen. by right.
    + apply elem_of_cons in Hr as [?|?]; done.
    + unfold step. by rewrite scatter_length.
Qed.

Lemma receive_shards_ok (rs : list nat) (a : list float) (inbox : list Message) :
  0 < n →
  NoDup rs →
  inbox ≡ₚ (λ r, mkMessage r r (shards r)) <$> rs →
  (∀ r, r ∈ rs → Forall (λ i, i < length a) (idx r) ∧
                 length (shards r) = length (idx r)) →
  receive_shards rs nprocs n a inbox =
    Ok (foldl step a rs, (λ r, Received r r) <$> rs, []).
Proof.
  intros Hn. revert a inbox.
  induction rs as [|r rs IH]; intros a inbox Hnd Hperm Hok.
  { apply Permutation_nil_r in Hperm. by subst. }
  apply NoDup_cons in Hnd as [Hr Hnd].
  destruct (Hok r) as [Hidx Hlen]; [by left|].
  destruct (take_message_unique inbox r (shards r)) as (rest & Htake & Hrest).
  { rewrite Hperm, <- list_fmap_compose.
    replace (msg_source ∘ _ <$> r :: rs) with (r :: rs).
    - by apply NoDup_cons.
    - clear. induction (r :: rs) as [|x l IHl]; [done|].
      by rewrite fmap_cons, <- IHl. }
  { rewrite Hperm. by left. }
  cbn [receive_shards]. rewrite range_split_pos by done. cbn [indices].
  fold (idx r). unfold Recv. rewrite Htake.
  cbn [msg_payload]. rewrite Hlen, Nat.leb_refl, Nat.sub_diag.
  cbn [replicate]. rewrite app_nil_r.
  change (Ok (shards r, rest) ≫= ?k) with (k (shards r, rest)).
  cbn [fst snd]. rewrite setitem_ok by done.
  change (Ok ?x ≫= ?k) with (k x). cbv beta.
  rewrite (IH (scatter a (idx r) (shards r)) rest); [done|done| |].
  - rewrite Hperm, fmap_cons in Hrest. by apply Permutation_cons_inv in Hrest.
  - intros r' Hr'. rewrite scatter_length. apply Hok. by right.
Qed.

(** The assembly when the master and the other processes split the same
    list of [n] interferograms, [n] not zero: the master stores the shard of
    each rank r at exactly the indices that the partition of range(n)
    assigns to r (its own shard first), receiving the shards of the other
    ranks by point-to-point messages tagged by the sender's rank, in
    ascending order of rank; for given shards the assembled array is the
    same whatever the order in which the messages arrived. *)
Theorem assemble_ref_phs_order_invariant (inbox inbox' : list Message) :
  0 < nprocs → 0 < n →
  partition_complete nprocs (seq 0 n) →
  (∀ r, r < nprocs →
     length (shards r) = length (array_split nprocs (seq 0 n) r)) →
  inbox ≡ₚ shard_messages nprocs shards →
  inbox' ≡ₚ shard_messages nprocs shards →
  ∃ ref_phs,
    assemble_ref_phs nprocs n (shards MASTER_PROCESS) inbox =
      Ok (ref_phs, (λ r, Received r r) <$> seq 1 (nprocs - 1), []) ∧
    assemble_ref_phs nprocs n (shards MASTER_PROCESS) inbox' =
      assemble_ref_phs nprocs n (shards MASTER_PROCESS) inbox ∧
    length ref_phs = n ∧
    ∀ r k i, r < nprocs →
      array_split nprocs (seq 0 n) r !! k = Some i →
      ref_phs !! i = shards r !! k.
Proof.
  intros Hpos Hn Hpart Hlen Hin Hin'. unfold partition_complete in Hpart.
  assert (Hnd : NoDup (concat (idx <$> seq 0 nprocs))).
  { unfold idx. rewrite Hpart. apply NoDup_seq. }
  assert (Hrange : ∀ r i, r < nprocs → i ∈ idx r → i < n).
  { intros r i Hr Hi.
    assert (Hc : i ∈ concat (idx <$> seq 0 nprocs)).
    { apply elem_of_concat. exists (idx r). split; [done|].
      apply list_elem_of_fmap_2, elem_of_seq. lia. }
    unfold idx in Hc. rewrite Hpart in Hc. apply elem_of_seq in Hc. lia. }
  set (zeros := replicate n 0%float).
  assert (Hz : length zeros = n) by apply length_replicate.
  assert (Hrun : ∀ box, box ≡ₚ shard_messages nprocs shards →
    assemble_ref_phs nprocs n (shards MASTER_PROCESS) box =
      Ok (foldl step zeros (seq 0 nprocs),
          (λ r, Received r r) <$> seq 1 (nprocs - 1), [])).
  { intros box Hbox. unfold assemble_ref_phs. fold zeros.
    rewrite range_split_pos by done. fold (idx MASTER_PROCESS).
    rewrite setitem_ok.
    - change (Ok ?x ≫= ?k) with (k x). cbv beta.
      rewrite receive_shards_ok.
      + do 3 f_equal. destruct nprocs as [|p]; [lia|].
        by rewrite <- cons_seq, Nat.sub_succ, Nat.sub_0_r.
      + done.
      + apply NoDup_seq.
      + done.
      + intros r Hr%elem_of_seq. rewrite scatter_length, Hz. split.
        * apply Forall_forall. intros i Hi. apply (Hrange r); [lia|done].
        * apply Hlen. lia.
    - apply Forall_forall. intros i Hi. rewrite Hz.
      apply (Hrange MASTER_PROCESS); [done|done].
    - apply Hlen. done. }
  exists (foldl step zeros (seq 0 nprocs)).
  split; [by apply Hrun|]. split; [by rewrite !Hrun|].
  split; [by rewrite fold_step_length|].
  intros r k i Hr Hk. apply fold_step_in; try done.
  - intros r' Hr'%elem_of_seq. apply Hlen. lia.
  - apply elem_of_seq. lia.
  - rewrite Hz. apply (Hrange r); [done|]. by eapply list_elem_of_lookup_2.
Qed.
End loop.
End reassembly.


Section reassembly_example.

#[local] Instance reassembly_partition : Partition := np_array_split.

Lemma assemble_ref_phs_order_invariant_witness :
  ∃ ref_phs,
    assemble_ref_phs 3 5 (three_shards MASTER_PROCESS)
      [mkMessage 2 2 (three_shards 2); mkMessage 1 1 (three_shards 1)] =
      Ok (ref_phs, (λ r, Received r r) <$> seq 1 (3 - 1), []) ∧
    assemble_ref_phs 3 5 (three_shards MASTER_PROCESS)
      [mkMessage 1 1 (three_shards 1); mkMessage 2 2 (three_shards 2)] =
    assemble_ref_phs 3 5 (three_shards MASTER_PROCESS)
      [mkMessage 2 2 (three_shards 2); mkMessage 1 1 (three_shards 1)] ∧
    length ref_phs = 5 ∧
    ∀ r k i, r < 3 →
      array_split 3 (seq 0 5) r !! k = Some i →
      ref_phs !! i = three_shards r !! k.
Proof.
  apply (assemble_ref_phs_order_invariant 3 5 three_shards).
  - lia.
  - lia.
  - by vm_compute.
  - intros [|[|[|r]]] Hr; vm_compute; try done. lia.
  - apply Permutation_swap.
  - done.
Defined.

End reassembly_example.

(** *** The skip rule of the reference phase stage *)

Section skip_rule.
Context `{!Partition} `{!External} `{!Stages}.

(** On the master process, a registry whose interferograms are all marked as
    corrected ends the stage at once. *)
Lemma ref_phase_estimation_master_skips (nprocs : nat) (ifg_paths : list string)
    (params : Params) (refpx refpy : Z) (d : gmap string RegValue)
    (root_comp : option (list bool)) (inbox : list Message) :
  d ≠ ∅ →
  check_ref_phs_ifgs (sorted_keys d) d = Ok true →
  ref_phase_estimation (mkComm MASTER_PROCESS nprocs) ifg_paths params
    refpx refpy (Some d) root_comp inbox = Ok ([], inbox).
Proof.
  intros Hne Hcheck. unfold ref_phase_estimation, truthy.
  rewrite bool_decide_eq_false_2 by done. simpl. by rewrite Hcheck.
Qed.

(** On every other process the test of the registry is not made: the stage
    runs as if no registry had been given. *)
Lemma ref_phase_estimation_worker_never_skips (c : Comm)
    (ifg_paths : list string) (params : Params) (refpx refpy : Z)
    (preread_ifgs : option (gmap string RegValue))
    (root_comp : option (list bool)) (inbox : list Message) :
  rank c ≠ MASTER_PROCESS →
  ref_phase_estimation c ifg_paths params refpx refpy preread_ifgs root_comp
    inbox =
  estimate_and_gather c ifg_paths params refpx refpy root_comp inbox.
Proof.
  intros Hrank. unfold ref_phase_estimation.
  destruct preread_ifgs as [d|]; [|done].
  destruct (Nat.eqb_spec (rank c) MASTER_PROCESS); [done|].
  by rewrite andb_false_r.
Qed.

End skip_rule.

Section skip_rule_example.

#[local] Instance skip_partition : Partition := np_array_split.
#[local] Instance skip_external : External := external two_files.
#[local] Instance skip_stages : Stages := stages two_files.

(** C5 (the code at the failing input): two processes, a registry in which
    both interferograms are marked as corrected, method 2.  The master skips
    the stage; process 1 does not: it corrects its interferogram again and
    sends its value to the master, which no longer receives it. *)
Theorem ref_phase_skip_only_on_master :
  all_ref_phase_removed corrected_registry = true ∧
  ref_phase_estimation (mkComm 0 2) ["a.tif"; "b.tif"] params0 1 1
    (Some corrected_registry) None [] = Ok ([], []) ∧
  ref_phase_estimation (mkComm 1 2) ["a.tif"; "b.tif"] params0 1 1
    (Some corrected_registry) None []
    = Ok ([Corrected "b.tif" 1; Sent 0 1 [1%float]], []).
Proof. by vm_compute. Qed.

End skip_rule_example.

(** *** The assembly in the call of the pipeline *)

Section registry_call.

#[local] Instance call_partition : Partition := np_array_split.
#[local] Instance call_external : External := external four_files.
#[local] Instance call_stages : Stages := stages four_files.

(** C8 (the code at the failing input): the call of [process_ifgs], line
    436, with four interferograms, two processes, method 2 and the registry
    of [create_ifg_dict].  Process 1 corrects its shard of the four paths,
    c.tif and d.tif, and sends the two values.  The master has replaced the
    four paths by the eight sorted keys of the registry (line 297): its own
    shard is the first four keys, all four interferograms, and the index
    array it uses for rank 1 is that of range(8), [4; 5; 6; 7].  The array
    it saves has eight entries, the two values of process 1 stand at
    indices 4 and 5 and not at the indices 2 and 3 that the partition of the
    four interferograms assigns to rank 1, and two entries are zeros that no
    process computed. *)
Theorem ref_phase_estimation_registry_misplaces_shards :
  array_split 2 four_paths 1 = ["c.tif"; "d.tif"] ∧
  array_split 2 (seq 0 (length four_paths)) 1 = [2; 3] ∧
  sorted_keys four_ifg_registry =
    ["a.tif"; "b.tif"; "c.tif"; "d.tif"; "epochlist"; "gt"; "md"; "wkt"] ∧
  indices (range_split 2 (length (sorted_keys four_ifg_registry)) 1)
    = [4; 5; 6; 7] ∧
  ref_phase_estimation (mkComm 1 2) four_paths params0 1 1
    (Some four_ifg_registry) None []
    = Ok ([Corrected "c.tif" 30; Corrected "d.tif" 40;
           Sent 0 1 [30; 40]%float], []) ∧
  ref_phase_estimation (mkComm 0 2) four_paths params0 1 1
    (Some four_ifg_registry) None [mkMessage 1 1 [30; 40]%float]
    = Ok ([Corrected "a.tif" 10; Corrected "b.tif" 20;
           Corrected "c.tif" 30; Corrected "d.tif" 40; Received 1 1;
           Saved "/tmp/ref_phs.npy" [10; 20; 30; 40; 30; 40; 0; 0]%float],
          []).
Proof. by vm_compute. Qed.

End registry_call.

End RunPyrateFacts.

(** ** The shape of the variance/covariance matrix *)

Module VcmShapeFacts.

Import Vcm Spec Model FloatFacts VcmFacts CvdFacts.

(** X1: [get_vcmt] returns a matrix exactly when [maxvar] holds one value per
    interferogram - for a registry, one per [PrereadIfg] entry, the entries
    under the global keys not counting.  With any other length it raises
    ValueError (from the reshape of the standard deviations, after the
    structure matrix is filled); with that length N the matrix has N rows
    of N entries each. *)
Theorem get_vcmt_shape (ifgs : IfgsArg PrereadIfg) (maxvar : list float) :
  let n := match ifgs with
           | IfgSeq l => length l
           | IfgDict d => length (map_to_list (omap as_preread d))
           end in
  (length maxvar ≠ n → get_vcmt ifgs maxvar = Raise ValueError) ∧
  (length maxvar = n →
   ∃ vcm, get_vcmt ifgs maxvar = Ok vcm ∧ length vcm = n ∧
          ∀ row, row ∈ vcm → length row = n).
Proof.
  intros n.
  set (l := match ifgs with IfgSeq l => l | IfgDict d => preread_values d end).
  assert (Hn : n = length l).
  { unfold n, l. destruct ifgs as [l'|d]; [done|].
    unfold preread_values, preread_items.
    by rewrite length_fmap, merge_sort_Permutation. }
  assert (Hrun : get_vcmt ifgs maxvar = get_vcmt_seq l maxvar)
    by (by destruct ifgs).
  rewrite Hrun, Hn. clear Hrun Hn n. split.
  - intros Hlen. unfold get_vcmt_seq. rewrite vcm_pat_ok.
    change (Ok ?x ≫= ?k) with (k x). cbv beta.
    unfold std_column. by rewrite decide_False.
  - intros Hlen. rewrite get_vcmt_seq_ok by done.
    eexists. split; [done|]. unfold mul2d, outer. split.
    + rewrite length_zip_with, !length_fmap. lia.
    + intros row (i & Hrow)%list_elem_of_lookup.
      rewrite lookup_zip_with, !list_lookup_fmap in Hrow.
      destruct (maxvar !! i) as [v|]; [|done]. simpl in Hrow.
      destruct (l !! i) as [a|]; [|done]. simpl in Hrow.
      injection Hrow as <-. rewrite length_zip_with, !length_fmap. lia.
Qed.

End VcmShapeFacts.

(** ** The search radius of [cvd] *)

Module CvdRadiusFacts.

Import Vcm Spec Model WorkflowSpec WorkflowModel.
Import FloatFacts VcmFacts CvdFacts RunPyrateFacts.

(** *** The sign of a radial distance *)

Lemma binary_round_aux_sign prec emax s m e l :
  match SpecFloat.binary_round_aux prec emax s m e l with
  | S754_infinity s' | S754_finite s' _ _ => s' = s
  | _ => True
  end.
Proof.
  unfold SpecFloat.binary_round_aux.
  destruct (SpecFloat.shr_fexp _ _ _ _ _) as [mrs' e'].
  destruct (SpecFloat.shr_fexp _ _ _ _ _) as [mrs'' e''].
  destruct (SpecFloat.shr_m mrs''); [done| |done].
  by destruct (_ <=? _)%Z.
Qed.

Lemma sqrt_not_negative (x : float) : sf_not_negative (Prim2SF (sqrt x)) = true.
Proof.
  rewrite sqrt_spec. unfold SF64sqrt, SFsqrt.
  destruct (Prim2SF x) as [s| [|] | |[|] m e]; try done.
  destruct (SFsqrt_core_binary _ _ _ _) as [[mz ez] lz].
  pose proof (binary_round_aux_sign prec emax false mz ez lz) as Hs.
  destruct (SpecFloat.binary_round_aux _ _ _ _ _ _); try done; by subst.
Qed.

Lemma div_1000_not_negative (x : float) :
  sf_not_negative (Prim2SF x) = true →
  sf_not_negative (Prim2SF (x / 1000)) = true.
Proof.
  rewrite div_spec. unfold SF64div, SFdiv.
  assert (H1000 : ∃ m e, Prim2SF 1000 = S754_finite false m e)
    by (vm_compute; eauto).
  destruct H1000 as (m1 & e1 & ->).
  destruct (Prim2SF x) as [s| [|] | |[|] m e]; try done.
  intros _. destruct (SFdiv_core_binary _ _ _ _ _ _) as [[mz ez] lz].
  pose proof (binary_round_aux_sign prec emax (xorb false false) mz ez lz) as Hs.
  destruct (SpecFloat.binary_round_aux _ _ _ _ _ _); try done; by subst.
Qed.

(** Nothing that is not negative lies below a bound that is not positive. *)
Lemma ltb_not_negative (r m : float) :
  sf_not_negative (Prim2SF r) = true → (0 <? m)%float = false →
  (r <? m)%float = false.
Proof.
  rewrite !ltb_spec. unfold SFltb.
  change (Prim2SF 0) with (S754_zero false).
  destruct (Prim2SF r) as [sr| [|] | |[|] mr er],
           (Prim2SF m) as [sm| [|] | |[|] mm em]; simpl; try done.
Qed.

Section radius.
Context `{!External}.

Lemma r_flat_not_negative (ifg : Ifg) (r : float) :
  r ∈ r_flat ifg → sf_not_negative (Prim2SF r) = true.
Proof.
  unfold r_flat, radial_distance.
  intros (row & Hr & Hrow)%elem_of_concat.
  apply list_elem_of_fmap in Hrow as (yy & -> & _).
  apply list_elem_of_fmap in Hr as (xx & -> & _).
  apply div_1000_not_negative, sqrt_not_negative.
Qed.

Lemma filter_none {A : Type} (P : A → Prop) `{!∀ x, Decision (P x)}
    (l : list A) :
  (∀ x, x ∈ l → ¬ P x) → filter P l = [].
Proof.
  induction l as [|x l IH]; intros Hl; [done|].
  rewrite filter_cons, decide_False by (apply Hl; by left).
  apply IH. intros y Hy. apply Hl. by right.
Qed.

Lemma kept_points_nil (ifg : Ifg) :
  (0 <? maxdist ifg)%float = false →
  kept_points ifg (r_flat ifg) (acg_flat ifg) = [].
Proof.
  intros Hmax. unfold kept_points.
  apply filter_none.
  intros [r a] (i & Hi & _)%elem_of_take Hlt. simpl in Hlt.
  assert (Hr : r ∈ r_flat ifg).
  { rewrite lookup_zip_with in Hi.
    destruct (r_flat ifg !! i) as [r'|] eqn:Hr'; [|done]. simpl in Hi.
    destruct (acg_flat ifg !! i) as [a'|]; [|done]. simpl in Hi.
    injection Hi as -> ->. by eapply list_elem_of_lookup_2. }
  rewrite ltb_not_negative in Hlt; [done| |done].
  by apply (r_flat_not_negative ifg).
Qed.

(** X2: [cvd] fails with ValueError on an interferogram whose search radius
    [maxdist] is not positive - as when a centre index is 0, for a raster of
    a single row or column: a radial distance is a square root over 1000 and
    never below zero, so no point lies strictly inside the circle and
    [np.max] is taken of an empty array.  (With save_acg=True the
    interferogram must be given by its path, the save coming first.) *)
Theorem cvd_needs_positive_radius (ifg_path : IfgArg) (params : Params)
    (calc_alpha write_vals save_acg : bool) :
  let ifg := nan_and_mm_convert (ifg_of_arg ifg_path write_vals) params in
  (0 <? maxdist ifg)%float = false →
  (save_acg = false ∨ ∃ p, ifg_path = ByPath p) →
  cvd ifg_path params calc_alpha write_vals save_acg = Raise ValueError.
Proof.
  intros ifg Hmax Hsave. unfold cvd. fold ifg. unfold reshape1.
  fold (r_flat ifg). fold (acg_flat ifg).
  destruct (decide (length (r_flat ifg) = num_cells ifg)) as [Hlr|]; [|done].
  change (Ok ?x ≫= ?k) with (k x). cbv beta.
  destruct (decide (length (acg_flat ifg) = num_cells ifg)) as [Hla|]; [|done].
  change (Ok ?x ≫= ?k) with (k x). cbv beta.
  rewrite cvd_select_ok by congruence.
  change (Ok ?x ≫= ?k) with (k x). cbv beta.
  rewrite kept_points_nil by done. cbn [fmap list_fmap fst snd].
  destruct Hsave as [->|[p ->]]; [done|].
  by destruct save_acg.
Qed.

End radius.

Section cvd_examples.

#[local] Instance radius_external : External := external ∅.

Lemma cvd_needs_positive_radius_witness :
  (0 <? maxdist raster_1x3)%float = false ∧
  cvd (ByIfg raster_1x3) params0 true false false = Raise ValueError.
Proof.
  split; [by vm_compute|].
  apply (cvd_needs_positive_radius (ByIfg raster_1x3) params0 true false false).
  - by vm_compute.
  - by left.
Defined.

End cvd_examples.

End CvdRadiusFacts.

(** ** More on the registry and on the reference phase stage *)

Module PipelineFacts.

Import Vcm RunPyrate Spec Model WorkflowModel.
Import FloatFacts VcmFacts CvdFacts RunPyrateFacts.

(** *** [_join_dicts] *)

Lemma join_dicts_fold (dicts : list (gmap string RegValue))
    (acc : gmap string RegValue) (k : string) :
  foldl (λ assembled D, D ∪ assembled) acc dicts !! k =
  foldl (λ o D, match D !! k with Some v => Some v | None => o end)
    (acc !! k) dicts.
Proof.
  revert acc. induction dicts as [|D dicts IH]; intros acc; [done|].
  cbn [foldl]. rewrite IH. f_equal. rewrite lookup_union.
  by destruct (D !! k), (acc !! k).
Qed.

Lemma pick_fold_none (dicts : list (gmap string RegValue)) (k : string)
    (o : option RegValue) :
  (∀ D, D ∈ dicts → D !! k = None) →
  foldl (λ o D, match D !! k with Some v => Some v | None => o end) o dicts = o.
Proof.
  revert o. induction dicts as [|D dicts IH]; intros o Hnone; [done|].
  cbn [foldl]. rewrite (Hnone D) by (by left).
  apply IH. intros D' HD'. apply Hnone. by right.
Qed.

(** X3: in the dictionary that [_join_dicts] assembles a key holds the
    value of the last dictionary of the list that has the key, and a key
    that no dictionary has is absent. *)
Theorem join_dicts_last_wins (ds1 ds2 : list (gmap string RegValue))
    (D : gmap string RegValue) (k : string) (v : RegValue) :
  D !! k = Some v →
  (∀ D', D' ∈ ds2 → D' !! k = None) →
  _join_dicts (ds1 ++ D :: ds2) !! k = Some v ∧
  ∀ k', (∀ D', D' ∈ ds1 ++ D :: ds2 → D' !! k' = None) →
        _join_dicts (ds1 ++ D :: ds2) !! k' = None.
Proof.
  intros HD Hlater. unfold _join_dicts. split.
  - rewrite join_dicts_fold, foldl_app. cbn [foldl]. rewrite HD.
    by apply pick_fold_none.
  - intros k' Hnone. rewrite join_dicts_fold.
    by rewrite pick_fold_none.
Qed.

(** *** [create_ifg_dict] without interferograms for the master *)

Section registry.
Context `{!Partition} `{!External} `{!Stages}.

(** X4: [create_ifg_dict] fails with IndexError when the shard of the
    master process is empty (as for an empty list of interferograms),
    whatever the other processes hold: the master reads the projection of
    the first path of its own shard. *)
Theorem create_ifg_dict_empty_master_shard (nprocs : nat)
    (dest_tifs : list string) (params : Params) (fs : FS) :
  0 < nprocs →
  array_split nprocs dest_tifs MASTER_PROCESS = [] →
  create_ifg_dict nprocs dest_tifs params fs = Raise IndexError.
Proof.
  intros Hpos Hshard. unfold create_ifg_dict. cbv zeta.
  destruct nprocs as [|p]; [lia|]. rewrite <- cons_seq.
  rewrite fmap_cons. cbn [dump_all].
  unfold create_ifg_dict_dump at 1. cbn [rank size].
  change (0 =? MASTER_PROCESS) with true. cbv iota zeta.
  unfold MASTER_PROCESS in Hshard. rewrite Hshard.
  unfold add_global_keys, index. done.
Qed.

(** *** [ref_phase_estimation] *)

Lemma for_each_length {A B : Type} (f : A → res B) (l : list A) (ys : list B) :
  for_each f l = Ok ys → length ys = length l.
Proof.
  revert ys. induction l as [|x l IH]; intros ys Hys.
  - apply Ok_inj in Hys. by subst.
  - cbn [for_each] in Hys. change (Py.bind ?m ?k) with (m ≫= k) in Hys.
    apply bind_Ok in Hys as (y & _ & Hys).
    apply bind_Ok in Hys as (ys' & Hys' & Hys).
    apply Ok_inj in Hys. subst ys. cbn. f_equal. by apply IH.
Qed.

Lemma correct_shard_Ok (est : string → res float) (paths : list string)
    (vals : list float) (events : list Event) :
  correct_shard est paths = Ok (vals, events) →
  length vals = length paths ∧ events = zip_with Corrected paths vals.
Proof.
  unfold correct_shard. intros Hrun.
  apply bind_Ok in Hrun as (vs & Hvs & Hrun). apply Ok_inj in Hrun.
  assert (vals = vs ∧ events = zip_with Corrected paths vs) as [-> ->]
    by (split; congruence).
  split; [|done]. by eapply for_each_length.
Qed.

(** A process other than the master in [phase_sum], up to the broadcast. *)
Lemma phase_sum_off_master (c : Comm) (ifg_paths : list string)
    (inbox inbox' : list Message) (comp : option (list bool))
    (events : list Event) :
  rank c ≠ MASTER_PROCESS →
  phase_sum c ifg_paths inbox = Ok (comp, events, inbox') →
  comp = None ∧ inbox' = inbox ∧ ∃ payload, events = [Sent 0 (rank c) payload].
Proof.
  intros Hrank Hrun. unfold phase_sum in Hrun.
  apply bind_Ok in Hrun as ([shape s] & _ & Hrun).
  destruct (Nat.eqb_spec (rank c) MASTER_PROCESS); [done|].
  apply Ok_inj in Hrun.
  assert (comp = None ∧ events = [Sent 0 (rank c) (concat s)] ∧
          inbox' = inbox) as (-> & -> & ->) by (repeat split; congruence).
  split; [done|]. split; [done|]. by eexists.
Qed.

(** What the choice of the method computes on a process other than the
    master, when it returns. *)
Lemma computed_Ok (c : Comm) (ifg_paths : list string) (params : Params)
    (refpx refpy : Z) (root_comp : option (list bool))
    (inbox inbox' : list Message) (vals : list float) (events : list Event) :
  rank c ≠ MASTER_PROCESS →
  (if (REF_EST_METHOD params =? 1)%Z then
     summed ← phase_sum c ifg_paths inbox;
     comp ← bcast_comp summed.1.1 root_comp;
     corrected ← ref_phs_method1 c ifg_paths comp;
     Ok (corrected.1, summed.1.2 ++ Broadcast 0 :: corrected.2, summed.2)
   else if (REF_EST_METHOD params =? 2)%Z then
     corrected ← ref_phs_method2 c ifg_paths params refpx refpy;
     Ok (corrected.1, corrected.2, inbox)
   else Raise ConfigException) = Ok (vals, events, inbox') →
  inbox' = inbox ∧
  length vals = length (array_split (size c) ifg_paths (rank c)) ∧
  ∃ sums,
    events =
      sums ++ zip_with Corrected (array_split (size c) ifg_paths (rank c)) vals ∧
    (if (REF_EST_METHOD params =? 1)%Z
     then (∃ payload, sums = [Sent 0 (rank c) payload; Broadcast 0]) ∧
          is_Some root_comp
     else sums = []).
Proof.
  intros Hrank. destruct (REF_EST_METHOD params =? 1)%Z.
  - intros Hrun.
    apply bind_Ok in Hrun as ([[own sums] box] & Hsum & Hrun).
    cbn [fst snd] in Hrun.
    apply bind_Ok in Hrun as (comp & Hcomp & Hrun).
    apply bind_Ok in Hrun as ([vs evs] & Hcor & Hrun).
    apply Ok_inj in Hrun. cbn [fst snd] in Hrun.
    apply phase_sum_off_master in Hsum as (-> & -> & payload & ->); [|done].
    apply correct_shard_Ok in Hcor as [Hlen ->].
    assert (vals = vs) as -> by congruence.
    split; [congruence|]. split; [done|].
    exists [Sent 0 (rank c) payload; Broadcast 0].
    split; [cbn [app] in *; congruence|]. split; [by eexists|].
    destruct root_comp; [by eexists|done].
  - destruct (REF_EST_METHOD params =? 2)%Z; [|done].
    intros Hrun. apply bind_Ok in Hrun as ([vs evs] & Hcor & Hrun).
    apply Ok_inj in Hrun. cbn [fst snd] in Hrun.
    apply correct_shard_Ok in Hcor as [Hlen ->].
    assert (vals = vs) as -> by congruence.
    split; [congruence|]. split; [done|]. exists [].
    split; [cbn [app]; congruence|done].
Qed.


(** X6: with REF_EST_METHOD other than 1 and 2, [ref_phase_estimation]
    raises ConfigException on every process that gets past the test of the
    registry: always without a registry or with an empty one, and always on
    a process other than the master.  The master with a registry raises it
    only after [check_ref_phs_ifgs] has answered False; when the answer is
    True it returns normally and the configuration error goes unnoticed. *)
Theorem ref_phase_estimation_bad_method (c : Comm) (ifg_paths : list string)
    (params : Params) (refpx refpy : Z) (d : gmap string RegValue)
    (root_comp : option (list bool)) (inbox : list Message) :
  REF_EST_METHOD params ≠ 1%Z → REF_EST_METHOD params ≠ 2%Z →
  ref_phase_estimation c ifg_paths params refpx refpy None root_comp inbox
    = Raise ConfigException ∧
  (rank c ≠ MASTER_PROCESS ∨ d = ∅ →
   ref_phase_estimation c ifg_paths params refpx refpy (Some d) root_comp
     inbox = Raise ConfigException) ∧
  (rank c = MASTER_PROCESS → d ≠ ∅ →
   ref_phase_estimation c ifg_paths params refpx refpy (Some d) root_comp
     inbox =
     skip ← check_ref_phs_ifgs (sorted_keys d) d;
     if skip : bool then Ok ([], inbox) else Raise ConfigException).
Proof.
  intros Hm1 Hm2.
  assert (Hbad : ∀ paths,
            estimate_and_gather c paths params refpx refpy root_comp inbox
            = Raise ConfigException).
  { intros paths. unfold estimate_and_gather.
    destruct (Z.eqb_spec (REF_EST_METHOD params) 1); [done|].
    by destruct (Z.eqb_spec (REF_EST_METHOD params) 2). }
  split; [apply Hbad|]. split.
  - intros [Hrank | ->].
    + by rewrite ref_phase_estimation_worker_never_skips.
    + unfold ref_phase_estimation, truthy.
      rewrite bool_decide_eq_true_2 by done. apply Hbad.
  - intros Hrank Hne. unfold ref_phase_estimation, truthy.
    rewrite bool_decide_eq_false_2 by done. rewrite Hrank.
    cbn [negb andb]. change (MASTER_PROCESS =? MASTER_PROCESS) with true.
    cbv iota. destruct (check_ref_phs_ifgs _ _) as [[|]|e]; [done| |done].
    apply Hbad.
Qed.

(** *** The master's view of the interferogram list *)

Lemma setitem_length (a : list float) ix vals a' :
  setitem a ix vals = Ok a' → length a' = length a.
Proof.
  unfold setitem. destruct (integer_dtype ix); [|done].
  destruct (forallb _ _); [|done].
  destruct (_ =? _).
  - intros Ha. apply Ok_inj in Ha. subst. apply scatter_length.
  - destruct vals as [|v [|? ?]]; try done.
    intros Ha. apply Ok_inj in Ha. subst. apply scatter_length.
Qed.

Lemma receive_shards_length (rs : list nat) (nprocs n : nat)
    (a : list float) (inbox : list Message) a' events inbox' :
  receive_shards rs nprocs n a inbox = Ok (a', events, inbox') →
  length a' = length a.
Proof.
  revert a inbox a' events inbox'.
  induction rs as [|r rs IH]; intros a inbox a' events inbox' Hrun.
  - apply Ok_inj in Hrun. congruence.
  - cbn [receive_shards] in Hrun.
    apply bind_Ok in Hrun as (got & _ & Hrun).
    apply bind_Ok in Hrun as (a1 & Ha1 & Hrun).
    apply bind_Ok in Hrun as ([[a2 ev2] in2] & Hrest & Hrun).
    apply Ok_inj in Hrun. cbn [fst snd] in Hrun.
    apply IH in Hrest. apply setitem_length in Ha1.
    assert (a' = a2) as -> by congruence. congruence.
Qed.

Lemma sorted_keys_length (d : gmap string RegValue) :
  length (sorted_keys d) = length (map_to_list d).
Proof.
  unfold sorted_keys. by rewrite merge_sort_Permutation, length_fmap.
Qed.

(** X7: on the master process a non-empty registry replaces the [ifg_paths]
    argument by the sorted keys of the registry: the outcome does not depend
    on the argument, and when the stage is not skipped the array saved to
    ref_phs.npy, the last thing the master does, has one entry per key of
    the registry (whatever the keys are), not one per path passed in. *)
Theorem ref_phase_estimation_master_paths (nprocs : nat)
    (paths1 paths2 : list string) (params : Params) (refpx refpy : Z)
    (d : gmap string RegValue) (root_comp : option (list bool))
    (inbox : list Message) :
  d ≠ ∅ →
  ref_phase_estimation (mkComm MASTER_PROCESS nprocs) paths1 params
    refpx refpy (Some d) root_comp inbox =
  ref_phase_estimation (mkComm MASTER_PROCESS nprocs) paths2 params
    refpx refpy (Some d) root_comp inbox ∧
  ∀ events inbox',
    ref_phase_estimation (mkComm MASTER_PROCESS nprocs) paths1 params
      refpx refpy (Some d) root_comp inbox = Ok (events, inbox') →
    (events = [] ∧ check_ref_phs_ifgs (sorted_keys d) d = Ok true) ∨
    ∃ events' ref_phs,
      events = events' ++ [Saved (path_join (TMPDIR params) "ref_phs.npy") ref_phs] ∧
      length ref_phs = length (map_to_list d).
Proof.
  intros Hne. unfold ref_phase_estimation, truthy.
  rewrite bool_decide_eq_false_2 by done. cbn [negb andb rank].
  change (MASTER_PROCESS =? MASTER_PROCESS) with true. cbv iota.
  split; [done|]. intros events inbox' Hrun.
  apply bind_Ok in Hrun as (skip & Hskip & Hrun). destruct skip.
  { left. apply Ok_inj in Hrun. split; [congruence|done]. }
  right. unfold estimate_and_gather in Hrun.
  apply bind_Ok in Hrun as ([[vals corrections] box0] & _ & Hrun).
  cbn [rank size] in Hrun.
  change (MASTER_PROCESS =? MASTER_PROCESS) with true in Hrun.
  cbv iota in Hrun.
  apply bind_Ok in Hrun as ([[arr ev] box] & Hasm & Hrun).
  apply Ok_inj in Hrun. cbn [fst snd] in Hrun.
  exists (corrections ++ ev), arr. split.
  - rewrite <- app_assoc. congruence.
  - unfold assemble_ref_phs in Hasm.
    apply bind_Ok in Hasm as (a0 & Ha0 & Hasm).
    apply receive_shards_length in Hasm. apply setitem_length in Ha0.
    rewrite Hasm, Ha0, length_replicate. apply sorted_keys_length.
Qed.

End registry.

Lemma join_dicts_last_wins_witness :
  _join_dicts ([{["a.tif" := VProjection "first"]}] ++
               {["a.tif" := VProjection "second"]} ::
               [{["b.tif" := VProjection "other"]}]) !! "a.tif"
    = Some (VProjection "second").
Proof.
  apply (join_dicts_last_wins [{["a.tif" := VProjection "first"]}]
           [{["b.tif" := VProjection "other"]}]
           {["a.tif" := VProjection "second"]} "a.tif" (VProjection "second")).
  - by vm_compute.
  - intros D' ->%list_elem_of_singleton. by vm_compute.
Defined.

Section pipeline_examples.

#[local] Instance ex_partition : Partition := np_array_split.
#[local] Instance ex_external : External := external two_files.
#[local] Instance ex_stages : Stages := stages two_files.

Lemma create_ifg_dict_empty_master_shard_witness :
  create_ifg_dict 2 [] params0 (mkFS ∅ ∅) = Raise IndexError.
Proof.
  apply create_ifg_dict_empty_master_shard; [lia|reflexivity].
Defined.


Lemma corrected_registry_not_empty : corrected_registry ≠ ∅.
Proof.
  intros Heq. apply (f_equal (λ d : gmap string RegValue, d !! "gt")) in Heq.
  by vm_compute in Heq.
Qed.

Lemma plain_registry_not_empty : plain_registry ≠ ∅.
Proof.
  intros Heq. apply (f_equal (λ d : gmap string RegValue, d !! "a.tif")) in Heq.
  by vm_compute in Heq.
Qed.

Lemma ref_phase_estimation_bad_method_witness :
  ref_phase_estimation (mkComm 0 2) ["a.tif"; "b.tif"] params_method3 1 1
    None None [] = Raise ConfigException ∧
  ref_phase_estimation (mkComm 1 2) ["a.tif"; "b.tif"] params_method3 1 1
    (Some corrected_registry) None [] = Raise ConfigException ∧
  ref_phase_estimation (mkComm 0 2) ["a.tif"; "b.tif"] params_method3 1 1
    (Some corrected_registry) None [] = Ok ([], []).
Proof.
  destruct (ref_phase_estimation_bad_method (mkComm 0 2) ["a.tif"; "b.tif"]
              params_method3 1 1 corrected_registry None [])
    as (Hnone & _ & Hmaster); [by vm_compute|by vm_compute|].
  destruct (ref_phase_estimation_bad_method (mkComm 1 2) ["a.tif"; "b.tif"]
              params_method3 1 1 corrected_registry None [])
    as (_ & Hworker & _); [by vm_compute|by vm_compute|].
  split; [exact Hnone|]. split.
  - apply Hworker. left. by vm_compute.
  - etrans; [apply Hmaster; [reflexivity|apply corrected_registry_not_empty]|].
    by vm_compute.
Defined.

Lemma ref_phase_estimation_master_paths_witness :
  ref_phase_estimation (mkComm MASTER_PROCESS 1) [] params0 1 1
    (Some plain_registry) None [] =
  ref_phase_estimation (mkComm MASTER_PROCESS 1) ["a.tif"; "b.tif"] params0
    1 1 (Some plain_registry) None [] ∧
  ref_phase_estimation (mkComm MASTER_PROCESS 1) [] params0 1 1
    (Some plain_registry) None [] =
  Ok ([Corrected "a.tif" 1; Corrected "b.tif" 1;
       Saved "/tmp/ref_phs.npy" [1; 1]%float], []).
Proof.
  destruct (ref_phase_estimation_master_paths 1 [] ["a.tif"; "b.tif"] params0
              1 1 plain_registry None [] plain_registry_not_empty)
    as [Hsame _].
  split; [exact Hsame|]. by vm_compute.
Defined.

End pipeline_examples.

End PipelineFacts.

(** ** The tiled stages *)

Module TileFacts.

Import Vcm RunPyrate Workflow WorkflowSpec WorkflowModel.
Import CvdFacts RunPyrateFacts.

Lemma for_loop_app {S A : Type} (body : S → A → res S) (s : S) (l1 l2 : list A) :
  for_loop body s (l1 ++ l2) = s' ← for_loop body s l1; for_loop body s' l2.
Proof.
  revert s. induction l1 as [|x l1 IH]; intros s; [done|].
  simpl. destruct (body s x) as [s'|e]; [|done]. apply IH.
Qed.

(** A loop whose body never raises is a fold. *)
Lemma for_loop_ok {S A : Type} (body : S → A → res S) (step : S → A → S)
    (I : S → Prop) (s : S) (l : list A) :
  I s →
  (∀ s x, I s → x ∈ l → body s x = Ok (step s x) ∧ I (step s x)) →
  for_loop body s l = Ok (foldl step s l) ∧ I (foldl step s l).
Proof.
  revert s. induction l as [|x l IH]; intros s Hs Hbody; [done|].
  destruct (Hbody s x Hs) as [Hx Hs']; [by left|].
  simpl. rewrite Hx. change (Ok ?a ≫= ?k) with (k a). cbv beta.
  apply IH; [done|]. intros s0 y Hs0 Hy. apply Hbody; [done|by right].
Qed.

(** The ranks of a run, one after the other, go through the shards in rank
    order. *)
Lemma all_ranks_concat `{!Partition} {S A : Type} (nprocs : nat) (l : list A)
    (body : S → A → res S) (s : S) :
  all_ranks nprocs
    (λ c s, for_loop body s (array_split (size c) l (rank c))) s =
  for_loop body s (concat (array_split nprocs l <$> seq 0 nprocs)).
Proof.
  unfold all_ranks. generalize (seq 0 nprocs). intros rs. revert s.
  induction rs as [|r rs IH]; intros s; [done|].
  rewrite fmap_cons. cbn [concat for_loop rank size].
  rewrite for_loop_app.
  destruct (for_loop body s (array_split nprocs l r)) as [s'|e]; [|done].
  apply IH.
Qed.

(** *** File names *)

Lemma string_length_app (s1 s2 : string) :
  String.length (s1 +:+ s2) = String.length s1 + String.length s2.
Proof. induction s1 as [|a s1 IH]; [done|]. cbn. by rewrite <- IH. Qed.

Lemma string_app_inj_r (s s1 s2 : string) : s1 +:+ s = s2 +:+ s → s1 = s2.
Proof.
  revert s2. induction s1 as [|a s1 IH]; intros [|b s2] Heq; [done| | |].
  - apply (f_equal String.length) in Heq.
    change (String b s2 +:+ s) with (String b (s2 +:+ s)) in Heq.
    rewrite string_length_app in Heq. cbn in Heq.
    rewrite string_length_app in Heq. lia.
  - apply (f_equal String.length) in Heq.
    change (String a s1 +:+ s) with (String a (s1 +:+ s)) in Heq.
    rewrite string_length_app in Heq. cbn in Heq.
    rewrite string_length_app in Heq. lia.
  - change (String a (s1 +:+ s) = String b (s2 +:+ s)) in Heq.
    injection Heq as -> Heq. f_equal. by apply IH.
Qed.

Section names.
Context (sp : StageParams).

Lemma tile_file_inj (stem : string) (i j : nat) :
  tile_file sp stem i = tile_file sp stem j → i = j.
Proof.
  unfold tile_file, path_join. intros Heq.
  do 4 apply String.app_inj in Heq.
  apply string_app_inj_r in Heq. by apply pretty_nat_inj in Heq.
Qed.

Lemma string_app_assoc (s1 s2 s3 : string) :
  (s1 +:+ s2) +:+ s3 = s1 +:+ s2 +:+ s3.
Proof.
  induction s1 as [|a s1 IH]; [done|].
  change (String a ((s1 +:+ s2) +:+ s3) = String a (s1 +:+ s2 +:+ s3)).
  by rewrite IH.
Qed.

(** Two stems that part ways after a common prefix name different files. *)
Lemma tile_file_stem (p : string) (a b : Ascii.ascii) (s1 s2 : string) (i j : nat) :
  a ≠ b →
  tile_file sp (p +:+ String a s1) i ≠ tile_file sp (p +:+ String b s2) j.
Proof.
  intros Hab. unfold tile_file, path_join. intros Heq.
  do 2 apply String.app_inj in Heq.
  rewrite !string_app_assoc in Heq. apply String.app_inj in Heq.
  change (String a (s1 +:+ "_" +:+ pretty i +:+ ".npy") =
          String b (s2 +:+ "_" +:+ pretty j +:+ ".npy")) in Heq.
  by injection Heq.
Qed.

End names.

(** *** Writes to distinct files *)

Section writes.
Context {V : Type}.

Lemma write_all_notin (d : gmap string V) kvs k :
  k ∉ kvs.*1 → write_all d kvs !! k = d !! k.
Proof.
  revert d. induction kvs as [|[k' v'] kvs IH]; intros d Hk; [done|].
  rewrite fmap_cons, not_elem_of_cons in Hk. destruct Hk as [Hne Hk].
  change (write_all (<[k' := v']> d) kvs !! k = d !! k).
  rewrite IH by done. by apply lookup_insert_ne.
Qed.

Lemma write_all_in (d : gmap string V) kvs k v :
  NoDup kvs.*1 → (k, v) ∈ kvs → write_all d kvs !! k = Some v.
Proof.
  revert d. induction kvs as [|[k' v'] kvs IH]; intros d Hnd Hin.
  { by apply elem_of_nil in Hin. }
  rewrite fmap_cons in Hnd. apply NoDup_cons in Hnd as [Hk' Hnd].
  change (write_all (<[k' := v']> d) kvs !! k = Some v).
  apply elem_of_cons in Hin as [[= -> ->]|Hin].
  - rewrite write_all_notin by done. apply lookup_insert_eq.
  - by apply IH.
Qed.

End writes.

Section mst.
Context `{!Partition} `{!Tools}.
Context (dest_tifs : list string) (sp : StageParams) (tiles : list Tile)
  (preread_ifgs : gmap string RegValue).

Let mst_file (t : Tile) : string := tile_file sp "mst_mat" (tile_index t).

Lemma mst_files_NoDup (l : list Tile) :
  NoDup (tile_index <$> l) → NoDup (mst_file <$> l).
Proof.
  intros Hnd. unfold mst_file.
  rewrite (list_fmap_compose tile_index (tile_file sp "mst_mat")).
  apply NoDup_fmap_2; [|done]. intros i j. apply tile_file_inj.
Qed.

Lemma mst_loop_ok (m : Tile → ndarray) (l : list Tile) (dir : gmap string ndarray) :
  NETWORKX_OR_MATLAB_FLAG sp = 1%Z →
  (∀ t, t ∈ l → mst_multiprocessing t dest_tifs preread_ifgs = Ok (m t)) →
  for_loop
    (λ dir t, save_mst_tile sp dest_tifs t (tile_index t) preread_ifgs dir)
    dir l =
  Ok (write_all dir ((λ t, (mst_file t, m t)) <$> l)).
Proof.
  intros Hflag Hm.
  destruct (for_loop_ok
    (λ dir t, save_mst_tile sp dest_tifs t (tile_index t) preread_ifgs dir)
    (λ dir t, <[mst_file t := m t]> dir) (λ _, True) dir l I) as [-> _].
  - intros d t _ Ht. split; [|done]. unfold save_mst_tile.
    by rewrite Hflag, (Hm t Ht).
  - f_equal. unfold write_all. by rewrite foldl_fmap.
Qed.

(** The MST stage over all processes writes one file per tile of every
    shard, in rank order. *)
Lemma mst_all_ranks_ok (nprocs : nat) (m : Tile → ndarray) (dir : gmap string ndarray) :
  NETWORKX_OR_MATLAB_FLAG sp = 1%Z →
  partition_complete nprocs tiles →
  (∀ t, t ∈ tiles →
     mst_multiprocessing t dest_tifs preread_ifgs = Ok (m t)) →
  all_ranks nprocs (λ c, mst_calc c dest_tifs sp tiles preread_ifgs) dir =
    Ok (write_all dir
          ((λ t, (mst_file t, m t)) <$>
             concat (array_split nprocs tiles <$> seq 0 nprocs))).
Proof.
  intros Hflag Hpart Hm. unfold partition_complete in Hpart.
  etrans; [apply (all_ranks_concat nprocs tiles
    (λ dir t, save_mst_tile sp dest_tifs t (tile_index t) preread_ifgs dir))|].
  apply mst_loop_ok; [done|]. intros t Ht. apply Hm. by rewrite <- Hpart.
Qed.

Lemma mst_written_lookup (m : Tile → ndarray) (l : list Tile) (dir : gmap string ndarray) t :
  NoDup (tile_index <$> l) → t ∈ l →
  write_all dir ((λ t, (mst_file t, m t)) <$> l) !! mst_file t = Some (m t).
Proof.
  intros Hnd Ht. apply write_all_in.
  - rewrite <- list_fmap_compose.
    change (NoDup (mst_file <$> l)). by apply mst_files_NoDup.
  - by apply (list_elem_of_fmap_2 (λ t, (mst_file t, m t))) in Ht.
Qed.

Lemma mst_written_frame (m : Tile → ndarray) (l : list Tile) (dir : gmap string ndarray) f :
  (∀ t, t ∈ l → f ≠ mst_file t) →
  write_all dir ((λ t, (mst_file t, m t)) <$> l) !! f = dir !! f.
Proof.
  intros Hf. apply write_all_notin. rewrite <- list_fmap_compose.
  intros (t & -> & Ht)%list_elem_of_fmap. by apply (Hf t).
Qed.

(** X8: with the NetworkX flag, after [mst_calc] has run on all processes
    (the shards of the tiles covering the tiles, the tile indices distinct),
    the working directory holds for every tile the file mst_mat_<index>.npy
    with the MST computed for that tile, and every other file is as it was
    before. *)
Theorem mst_calc_saves_every_tile (nprocs : nat) (m : Tile → ndarray)
    (dir : gmap string ndarray) :
  NETWORKX_OR_MATLAB_FLAG sp = 1%Z →
  partition_complete nprocs tiles →
  NoDup (tile_index <$> tiles) →
  (∀ t, t ∈ tiles →
     mst_multiprocessing t dest_tifs preread_ifgs = Ok (m t)) →
  ∃ dir',
    all_ranks nprocs (λ c, mst_calc c dest_tifs sp tiles preread_ifgs) dir
      = Ok dir' ∧
    (∀ t, t ∈ tiles →
       dir' !! tile_file sp "mst_mat" (tile_index t) = Some (m t)) ∧
    (∀ f, (∀ t, t ∈ tiles → f ≠ tile_file sp "mst_mat" (tile_index t)) →
       dir' !! f = dir !! f).
Proof.
  intros Hflag Hpart Hnd Hm. eexists.
  split; [by apply mst_all_ranks_ok|]. unfold partition_complete in Hpart.
  split.
  - intros t Ht. apply mst_written_lookup; by rewrite Hpart.
  - intros f Hf. apply mst_written_frame. intros t Ht. apply Hf.
    by rewrite <- Hpart.
Qed.

(** X9: with NETWORKX_OR_MATLAB_FLAG other than 1, a process whose shard of
    the tiles is not empty raises ConfigException in [mst_calc] at its first
    tile, before any MST is computed or saved.  A process whose shard is
    empty raises nothing: it goes on to the barrier of line 166 with the
    directory as it was, the flag being looked at only inside the loop over
    the tiles. *)
Theorem mst_calc_unsupported_flag (c : Comm) (dir : gmap string ndarray) :
  NETWORKX_OR_MATLAB_FLAG sp ≠ 1%Z →
  mst_calc c dest_tifs sp tiles preread_ifgs dir =
    match array_split (size c) tiles (rank c) with
    | [] => Ok dir
    | _ :: _ => Raise ConfigException
    end.
Proof.
  intros Hflag. unfold mst_calc. cbv zeta.
  destruct (array_split _ _ _) as [|t l]; [done|].
  cbn [for_loop]. unfold save_mst_tile.
  destruct (Z.eqb_spec (NETWORKX_OR_MATLAB_FLAG sp) 1); [done|].
  by destruct (NETWORKX_OR_MATLAB_FLAG sp =? 0)%Z.
Qed.

End mst.

(** *** The tiled stages after the MST stage *)

Ltac stem_clash H :=
  exfalso; revert H;
  first [ apply (tile_file_stem _ ""); done
        | apply (tile_file_stem _ "lin"); done
        | apply (tile_file_stem _ "ts"); done ].

Section linrate.
Context `{!Partition} `{!Tools}.
Context (ifg_paths : list string) (sp : StageParams) (tiles : list Tile)
  (vcmt : list (list float)) (preread_ifgs : gmap string RegValue).
Context (m : Tile → ndarray) (parts : Tile → list IfgPart)
  (rate err smp : Tile → ndarray).

Let mst_file (t : Tile) : string := tile_file sp "mst_mat" (tile_index t).

Let lin_files (t : Tile) : list (string * ndarray) :=
  [(tile_file sp "linrate" (tile_index t), rate t);
   (tile_file sp "linerror" (tile_index t), err t);
   (tile_file sp "linsamples" (tile_index t), smp t)].

Lemma lin_files_elem (l : list Tile) f :
  f ∈ (l ≫= lin_files).*1 →
  ∃ t, t ∈ l ∧ (f = tile_file sp "linrate" (tile_index t) ∨
                f = tile_file sp "linerror" (tile_index t) ∨
                f = tile_file sp "linsamples" (tile_index t)).
Proof.
  intros ([f' v] & -> & (t & Hin & Ht)%list_elem_of_bind)%list_elem_of_fmap.
  exists t. split; [done|]. unfold lin_files in Hin.
  repeat (apply elem_of_cons in Hin as [[= -> ->]|Hin]; [by eauto|]).
  by apply elem_of_nil in Hin.
Qed.

Lemma lin_files_NoDup (l : list Tile) :
  NoDup (tile_index <$> l) → NoDup (l ≫= lin_files).*1.
Proof.
  induction l as [|t l IH]; intros Hnd; [constructor|].
  rewrite fmap_cons in Hnd. apply NoDup_cons in Hnd as [Ht Hnd].
  rewrite bind_cons, fmap_app. apply NoDup_app. split; [|split].
  - cbn. repeat (apply NoDup_cons; split);
      rewrite ?elem_of_cons, ?elem_of_nil; try apply NoDup_nil_2.
    + intros [H1|[H1|[]]]; stem_clash H1.
    + intros [H1|[]]; stem_clash H1.
    + by intros [].
  - intros f Hf (t' & Ht' & Hcase)%lin_files_elem.
    assert (Hidx : tile_index t ≠ tile_index t').
    { intros Heq. apply Ht. rewrite Heq. by apply list_elem_of_fmap_2. }
    cbn in Hf. rewrite !elem_of_cons, elem_of_nil in Hf.
    destruct Hf as [->|[->|[->|[]]]], Hcase as [H1|[H1|H1]];
      first [ by apply tile_file_inj in H1 | stem_clash H1 ].
  - by apply IH.
Qed.

Lemma linrate_loop_ok (l : list Tile) (dir : gmap string ndarray) :
  (∀ t, t ∈ l →
     for_each (λ p, ifg_part p t preread_ifgs) ifg_paths = Ok (parts t) ∧
     linear_rate (parts t) sp vcmt (m t) = Ok (rate t, err t, smp t) ∧
     dir !! mst_file t = Some (m t)) →
  for_loop (λ dir t,
    ifg_parts ← for_each (λ p, ifg_part p t preread_ifgs) ifg_paths;
    mst_grid_n ← np_load dir (tile_file sp "mst_mat" (tile_index t));
    out ← linear_rate ifg_parts sp vcmt mst_grid_n;
    let '(rate, error, samples) := out in
    let dir := <[tile_file sp "linrate" (tile_index t) := rate]> dir in
    let dir := <[tile_file sp "linerror" (tile_index t) := error]> dir in
    let dir := <[tile_file sp "linsamples" (tile_index t) := samples]> dir in
    Ok dir) dir l =
  Ok (write_all dir (l ≫= lin_files)).
Proof.
  revert dir. induction l as [|t l IH]; intros dir Hl; [done|].
  destruct (Hl t) as (Hparts & Hlin & Hmst); [by left|].
  cbn [for_loop]. rewrite Hparts.
  change (Ok ?a ≫= ?k) with (k a). cbv beta.
  unfold np_load. fold (mst_file t). rewrite Hmst.
  change (Ok ?a ≫= ?k) with (k a). cbv beta. rewrite Hlin.
  change (Ok ?a ≫= ?k) with (k a). cbv beta iota zeta.
  change (Ok ?a ≫= ?k) with (k a). cbv beta.
  rewrite IH; [done|].
  intros t' Ht'. destruct (Hl t') as (Hparts' & Hlin' & Hmst'); [by right|].
  split; [done|]. split; [done|].
  rewrite !lookup_insert_ne; [done|..]; intros H1; stem_clash H1.
Qed.

Lemma lin_written_lookup (l : list Tile) (dir : gmap string ndarray) t :
  NoDup (tile_index <$> l) → t ∈ l →
  write_all dir (l ≫= lin_files) !! tile_file sp "linrate" (tile_index t)
    = Some (rate t) ∧
  write_all dir (l ≫= lin_files) !! tile_file sp "linerror" (tile_index t)
    = Some (err t) ∧
  write_all dir (l ≫= lin_files) !! tile_file sp "linsamples" (tile_index t)
    = Some (smp t).
Proof.
  intros Hnd Ht.
  assert (Hin : ∀ kv, kv ∈ lin_files t → kv ∈ l ≫= lin_files).
  { intros kv Hkv. apply list_elem_of_bind. by exists t. }
  split; [|split]; (apply write_all_in; [by apply lin_files_NoDup|]);
    apply Hin; unfold lin_files; rewrite !elem_of_cons; by auto.
Qed.

Lemma lin_written_frame (l : list Tile) (dir : gmap string ndarray) t :
  write_all dir (l ≫= lin_files) !! mst_file t = dir !! mst_file t.
Proof.
  apply write_all_notin. intros (t' & _ & [H1|[H1|H1]])%lin_files_elem;
    stem_clash H1.
Qed.

(** X10: [linrate_calc] after [mst_calc], both on all processes over the
    same tiles (shards covering the tiles, tile indices distinct): every
    load of an MST file succeeds, the matrix loaded for a tile is the one
    that [mst_calc] computed for that same tile, whichever process saved it,
    and the three results of [linear_rate] on it are saved as
    linrate_<index>.npy, linerror_<index>.npy and linsamples_<index>.npy;
    the MST files are left in place. *)
Theorem linrate_calc_loads_own_mst (nprocs : nat) (dir : gmap string ndarray) :
  NETWORKX_OR_MATLAB_FLAG sp = 1%Z →
  partition_complete nprocs tiles →
  NoDup (tile_index <$> tiles) →
  (∀ t, t ∈ tiles →
     mst_multiprocessing t ifg_paths preread_ifgs = Ok (m t) ∧
     for_each (λ p, ifg_part p t preread_ifgs) ifg_paths = Ok (parts t) ∧
     linear_rate (parts t) sp vcmt (m t) = Ok (rate t, err t, smp t)) →
  ∃ dir1 dir2,
    all_ranks nprocs (λ c, mst_calc c ifg_paths sp tiles preread_ifgs) dir
      = Ok dir1 ∧
    all_ranks nprocs
      (λ c, linrate_calc c ifg_paths sp vcmt tiles preread_ifgs) dir1
      = Ok dir2 ∧
    ∀ t, t ∈ tiles →
      dir2 !! tile_file sp "linrate" (tile_index t) = Some (rate t) ∧
      dir2 !! tile_file sp "linerror" (tile_index t) = Some (err t) ∧
      dir2 !! tile_file sp "linsamples" (tile_index t) = Some (smp t) ∧
      dir2 !! tile_file sp "mst_mat" (tile_index t) = Some (m t).
Proof.
  intros Hflag Hpart Hnd Hall.
  pose proof Hpart as Hperm. unfold partition_complete in Hperm.
  set (l := concat (array_split nprocs tiles <$> seq 0 nprocs)) in *.
  assert (Hndl : NoDup (tile_index <$> l)) by (by rewrite Hperm).
  set (dir1 := write_all dir ((λ t, (mst_file t, m t)) <$> l)).
  exists dir1, (write_all dir1 (l ≫= lin_files)).
  split; [|split].
  - apply mst_all_ranks_ok; [done|done|]. intros t Ht. by apply Hall.
  - etrans; [apply (all_ranks_concat nprocs tiles)|]. fold l.
    apply linrate_loop_ok. intros t Ht.
    destruct (Hall t) as (_ & Hparts & Hlin); [by rewrite <- Hperm|].
    split; [done|]. split; [done|]. by apply mst_written_lookup.
  - intros t Ht. rewrite <- Hperm in Ht.
    destruct (lin_written_lookup l dir1 t Hndl Ht) as (H1 & H2 & H3).
    split; [done|]. split; [done|]. split; [done|].
    etrans; [apply lin_written_frame|]. by apply mst_written_lookup.
Qed.

End linrate.

Section timeseries.
Context `{!Partition} `{!Tools}.
Context (ifg_paths : list string) (sp : StageParams) (tiles : list Tile)
  (vcmt : list (list float)) (preread_ifgs : gmap string RegValue).
Context (m : Tile → ndarray) (parts : Tile → list IfgPart)
  (tsincr tscum other : Tile → ndarray).

Let mst_file (t : Tile) : string := tile_file sp "mst_mat" (tile_index t).

Let ts_files (t : Tile) : list (string * ndarray) :=
  [(tile_file sp "tsincr" (tile_index t), tsincr t);
   (tile_file sp "tscuml" (tile_index t), tscum t)].

Lemma ts_files_elem (l : list Tile) f :
  f ∈ (l ≫= ts_files).*1 →
  ∃ t, t ∈ l ∧ (f = tile_file sp "tsincr" (tile_index t) ∨
                f = tile_file sp "tscuml" (tile_index t)).
Proof.
  intros ([f' v] & -> & (t & Hin & Ht)%list_elem_of_bind)%list_elem_of_fmap.
  exists t. split; [done|]. unfold ts_files in Hin.
  repeat (apply elem_of_cons in Hin as [[= -> ->]|Hin]; [by eauto|]).
  by apply elem_of_nil in Hin.
Qed.

Lemma ts_files_NoDup (l : list Tile) :
  NoDup (tile_index <$> l) → NoDup (l ≫= ts_files).*1.
Proof.
  induction l as [|t l IH]; intros Hnd; [constructor|].
  rewrite fmap_cons in Hnd. apply NoDup_cons in Hnd as [Ht Hnd].
  rewrite bind_cons, fmap_app. apply NoDup_app. split; [|split].
  - cbn. repeat (apply NoDup_cons; split);
      rewrite ?elem_of_cons, ?elem_of_nil; try apply NoDup_nil_2.
    + intros [H1|[]]; stem_clash H1.
    + by intros [].
  - intros f Hf (t' & Ht' & Hcase)%ts_files_elem.
    assert (Hidx : tile_index t ≠ tile_index t').
    { intros Heq. apply Ht. rewrite Heq. by apply list_elem_of_fmap_2. }
    cbn in Hf. rewrite !elem_of_cons, elem_of_nil in Hf.
    destruct Hf as [->|[->|[]]], Hcase as [H1|H1];
      first [ by apply tile_file_inj in H1 | stem_clash H1 ].
  - by apply IH.
Qed.

Lemma timeseries_loop_ok (l : list Tile) (dir : gmap string ndarray) :
  (∀ t, t ∈ l →
     for_each (λ p, ifg_part p t preread_ifgs) ifg_paths = Ok (parts t) ∧
     time_series (parts t) sp vcmt (m t) = Ok (tsincr t, tscum t, other t) ∧
     dir !! mst_file t = Some (m t)) →
  for_loop (λ dir t,
    ifg_parts ← for_each (λ p, ifg_part p t preread_ifgs) ifg_paths;
    mst_tile ← np_load dir (tile_file sp "mst_mat" (tile_index t));
    out ← time_series ifg_parts sp vcmt mst_tile;
    let '(tsincr, tscum, _) := out in
    let dir := <[tile_file sp "tsincr" (tile_index t) := tsincr]> dir in
    let dir := <[tile_file sp "tscuml" (tile_index t) := tscum]> dir in
    Ok dir) dir l =
  Ok (write_all dir (l ≫= ts_files)).
Proof.
  revert dir. induction l as [|t l IH]; intros dir Hl; [done|].
  destruct (Hl t) as (Hparts & Hts & Hmst); [by left|].
  cbn [for_loop]. rewrite Hparts.
  change (Ok ?a ≫= ?k) with (k a). cbv beta.
  unfold np_load. fold (mst_file t). rewrite Hmst.
  change (Ok ?a ≫= ?k) with (k a). cbv beta. rewrite Hts.
  change (Ok ?a ≫= ?k) with (k a). cbv beta iota zeta.
  change (Ok ?a ≫= ?k) with (k a). cbv beta.
  rewrite IH; [done|].
  intros t' Ht'. destruct (Hl t') as (Hparts' & Hts' & Hmst'); [by right|].
  split; [done|]. split; [done|].
  rewrite !lookup_insert_ne; [done|..]; intros H1; stem_clash H1.
Qed.

Lemma ts_written_lookup (l : list Tile) (dir : gmap string ndarray) t :
  NoDup (tile_index <$> l) → t ∈ l →
  write_all dir (l ≫= ts_files) !! tile_file sp "tsincr" (tile_index t)
    = Some (tsincr t) ∧
  write_all dir (l ≫= ts_files) !! tile_file sp "tscuml" (tile_index t)
    = Some (tscum t).
Proof.
  intros Hnd Ht.
  assert (Hin : ∀ kv, kv ∈ ts_files t → kv ∈ l ≫= ts_files).
  { intros kv Hkv. apply list_elem_of_bind. by exists t. }
  split; (apply write_all_in; [by apply ts_files_NoDup|]);
    apply Hin; unfold ts_files; rewrite !elem_of_cons; by auto.
Qed.

Lemma ts_written_frame (l : list Tile) (dir : gmap string ndarray) t :
  write_all dir (l ≫= ts_files) !! mst_file t = dir !! mst_file t.
Proof.
  apply write_all_notin. intros (t' & _ & [H1|H1])%ts_files_elem;
    stem_clash H1.
Qed.

(** X11: [timeseries_calc] after [mst_calc], on all processes over the same
    tiles: every load of an MST file succeeds with the matrix computed for
    that same tile, the first two results of [time_series] on it are saved
    as tsincr_<index>.npy and tscuml_<index>.npy, the third is dropped, and
    the MST files are unchanged. *)
Theorem timeseries_calc_loads_own_mst (nprocs : nat)
    (dir : gmap string ndarray) :
  NETWORKX_OR_MATLAB_FLAG sp = 1%Z →
  partition_complete nprocs tiles →
  NoDup (tile_index <$> tiles) →
  (∀ t, t ∈ tiles →
     mst_multiprocessing t ifg_paths preread_ifgs = Ok (m t) ∧
     for_each (λ p, ifg_part p t preread_ifgs) ifg_paths = Ok (parts t) ∧
     time_series (parts t) sp vcmt (m t) = Ok (tsincr t, tscum t, other t)) →
  ∃ dir1 dir2,
    all_ranks nprocs (λ c, mst_calc c ifg_paths sp tiles preread_ifgs) dir
      = Ok dir1 ∧
    all_ranks nprocs
      (λ c, timeseries_calc c ifg_paths sp vcmt tiles preread_ifgs) dir1
      = Ok dir2 ∧
    (∀ t, t ∈ tiles →
       dir2 !! tile_file sp "tsincr" (tile_index t) = Some (tsincr t) ∧
       dir2 !! tile_file sp "tscuml" (tile_index t) = Some (tscum t)) ∧
    (∀ t, t ∈ tiles →
       dir2 !! tile_file sp "mst_mat" (tile_index t) =
       dir1 !! tile_file sp "mst_mat" (tile_index t)).
Proof.
  intros Hflag Hpart Hnd Hall.
  pose proof Hpart as Hperm. unfold partition_complete in Hperm.
  set (l := concat (array_split nprocs tiles <$> seq 0 nprocs)) in *.
  assert (Hndl : NoDup (tile_index <$> l)) by (by rewrite Hperm).
  set (dir1 := write_all dir ((λ t, (mst_file t, m t)) <$> l)).
  exists dir1, (write_all dir1 (l ≫= ts_files)).
  split; [|split; [|split]].
  - apply mst_all_ranks_ok; [done|done|]. intros t Ht. by apply Hall.
  - etrans; [apply (all_ranks_concat nprocs tiles)|]. fold l.
    apply timeseries_loop_ok. intros t Ht.
    destruct (Hall t) as (_ & Hparts & Hts); [by rewrite <- Hperm|].
    split; [done|]. split; [done|]. by apply mst_written_lookup.
  - intros t Ht. rewrite <- Hperm in Ht.
    by apply ts_written_lookup.
  - intros t Ht. apply ts_written_frame.
Qed.

End timeseries.

(** *** The orbital correction *)

Section orbital.
Context `{!Partition}.

(** The interferograms that the calls of all processes correct, in the
    order of the ranks. *)
Lemma orb_workers_idle (ifg_paths : list string) (sp : StageParams)
    (preread_ifgs : option (gmap string RegValue))
    (nprocs : nat) (rs : list nat) :
  ORBITAL_FIT_METHOD sp ≠ 1%Z → Forall (λ r, r ≠ MASTER_PROCESS) rs →
  concat ((λ r, orb_fit_calc (mkComm r nprocs) ifg_paths sp preread_ifgs)
            <$> rs) = [].
Proof.
  intros Hm. induction 1 as [|r rs Hr _ IH]; [done|].
  rewrite fmap_cons. cbn [concat]. rewrite IH, app_nil_r.
  unfold orb_fit_calc. destruct (Z.eqb_spec (ORBITAL_FIT_METHOD sp) 1); [done|].
  cbn [rank]. by destruct (Nat.eqb_spec r MASTER_PROCESS).
Qed.

(** X12: over all processes [orb_fit_calc] hands every interferogram to
    [remove_orbital_error] exactly once, in either mode: with
    ORBITAL_FIT_METHOD = 1 each process passes its own shard, otherwise the
    master passes the whole list and no other process makes a call. *)
Theorem orb_fit_calc_corrects_each_once (nprocs : nat)
    (ifg_paths : list string) (sp : StageParams)
    (preread_ifgs : option (gmap string RegValue)) :
  0 < nprocs →
  partition_complete nprocs ifg_paths →
  concat (oc_ifgs <$>
    concat ((λ r, orb_fit_calc (mkComm r nprocs) ifg_paths sp preread_ifgs)
              <$> seq 0 nprocs)) ≡ₚ ifg_paths ∧
  (ORBITAL_FIT_METHOD sp ≠ 1%Z →
   ∀ r, r ≠ MASTER_PROCESS →
     orb_fit_calc (mkComm r nprocs) ifg_paths sp preread_ifgs = []).
Proof.
  intros Hpos Hpart. split.
  - destruct (Z.eqb_spec (ORBITAL_FIT_METHOD sp) 1) as [Hm|Hm].
    + unfold partition_complete in Hpart. etrans; [|exact Hpart].
      apply reflexive_eq. f_equal. generalize (seq 0 nprocs). intros rs.
      induction rs as [|r rs IH]; [done|].
      rewrite !fmap_cons. cbn [concat]. rewrite fmap_app, IH.
      unfold orb_fit_calc. by rewrite Hm.
    + destruct nprocs as [|p]; [lia|]. rewrite <- cons_seq, fmap_cons.
      cbn [concat].
      rewrite orb_workers_idle; [|done|].
      * unfold orb_fit_calc.
        destruct (Z.eqb_spec (ORBITAL_FIT_METHOD sp) 1); [done|].
        cbn. by rewrite !app_nil_r.
      * apply Forall_forall. intros r Hr%elem_of_seq. unfold MASTER_PROCESS. lia.
  - intros Hm r Hr. unfold orb_fit_calc.
    destruct (Z.eqb_spec (ORBITAL_FIT_METHOD sp) 1); [done|].
    cbn [rank]. by destruct (Nat.eqb_spec r MASTER_PROCESS).
Qed.

End orbital.

Section tile_examples.

#[local] Instance tile_partition : Partition := np_array_split.
#[local] Instance tile_tools : Tools := tools.

Lemma three_tiles_NoDup : NoDup (tile_index <$> three_tiles).
Proof. apply (bool_decide_unpack _). by vm_compute. Qed.

Lemma mst_calc_saves_every_tile_witness :
  ∃ dir',
    all_ranks 2 (λ c, mst_calc c ["a.tif"; "b.tif"] stage_params1 three_tiles ∅) ∅
      = Ok dir' ∧
    (∀ t, t ∈ three_tiles →
       dir' !! tile_file stage_params1 "mst_mat" (tile_index t)
         = Some [tile_index t; 2]) ∧
    (∀ f, (∀ t, t ∈ three_tiles →
             f ≠ tile_file stage_params1 "mst_mat" (tile_index t)) →
       dir' !! f = (∅ : gmap string (list nat)) !! f).
Proof.
  apply (@mst_calc_saves_every_tile np_array_split tools
           ["a.tif"; "b.tif"] stage_params1 three_tiles
           ∅ 2 (λ t, [tile_index t; 2]) ∅).
  - reflexivity.
  - by vm_compute.
  - apply three_tiles_NoDup.
  - intros t _. reflexivity.
Defined.

Lemma mst_calc_unsupported_flag_witness :
  mst_calc (mkComm 0 4) ["a.tif"] stage_params0 three_tiles ∅ ∅
    = Raise ConfigException ∧
  mst_calc (mkComm 3 4) ["a.tif"] stage_params0 three_tiles ∅ ∅ = Ok ∅.
Proof.
  split.
  - by rewrite mst_calc_unsupported_flag by (by vm_compute).
  - by rewrite mst_calc_unsupported_flag by (by vm_compute).
Defined.

Lemma linrate_calc_loads_own_mst_witness :
  ∃ dir1 dir2,
    all_ranks 2 (λ c, mst_calc c ["a.tif"; "b.tif"] stage_params1 three_tiles ∅) ∅
      = Ok dir1 ∧
    all_ranks 2
      (λ c, linrate_calc c ["a.tif"; "b.tif"] stage_params1 [] three_tiles ∅) dir1
      = Ok dir2 ∧
    ∀ t, t ∈ three_tiles →
      dir2 !! tile_file stage_params1 "linrate" (tile_index t)
        = Some [2; 1; tile_index t; 2] ∧
      dir2 !! tile_file stage_params1 "linerror" (tile_index t)
        = Some [2; 2; tile_index t; 2] ∧
      dir2 !! tile_file stage_params1 "linsamples" (tile_index t)
        = Some [2; 3; tile_index t; 2] ∧
      dir2 !! tile_file stage_params1 "mst_mat" (tile_index t)
        = Some [tile_index t; 2].
Proof.
  apply (@linrate_calc_loads_own_mst np_array_split tools
           ["a.tif"; "b.tif"] stage_params1 three_tiles
           [] ∅ (λ t, [tile_index t; 2])
           (λ t, [("a.tif", tile_index t); ("b.tif", tile_index t)])
           (λ t, [2; 1; tile_index t; 2]) (λ t, [2; 2; tile_index t; 2])
           (λ t, [2; 3; tile_index t; 2]) 2 ∅).
  - reflexivity.
  - by vm_compute.
  - apply three_tiles_NoDup.
  - intros t _. split; [reflexivity|]. split; reflexivity.
Defined.

Lemma timeseries_calc_loads_own_mst_witness :
  ∃ dir1 dir2,
    all_ranks 2 (λ c, mst_calc c ["a.tif"; "b.tif"] stage_params1 three_tiles ∅) ∅
      = Ok dir1 ∧
    all_ranks 2
      (λ c, timeseries_calc c ["a.tif"; "b.tif"] stage_params1 [] three_tiles ∅)
      dir1 = Ok dir2 ∧
    (∀ t, t ∈ three_tiles →
       dir2 !! tile_file stage_params1 "tsincr" (tile_index t)
         = Some [2; 4; tile_index t; 2] ∧
       dir2 !! tile_file stage_params1 "tscuml" (tile_index t)
         = Some [2; 5; tile_index t; 2]) ∧
    (∀ t, t ∈ three_tiles →
       dir2 !! tile_file stage_params1 "mst_mat" (tile_index t) =
       dir1 !! tile_file stage_params1 "mst_mat" (tile_index t)).
Proof.
  apply (@timeseries_calc_loads_own_mst np_array_split tools
           ["a.tif"; "b.tif"] stage_params1
           three_tiles [] ∅ (λ t, [tile_index t; 2])
           (λ t, [("a.tif", tile_index t); ("b.tif", tile_index t)])
           (λ t, [2; 4; tile_index t; 2]) (λ t, [2; 5; tile_index t; 2])
           (λ t, [2; 6; tile_index t; 2]) 2 ∅).
  - reflexivity.
  - by vm_compute.
  - apply three_tiles_NoDup.
  - intros t _. split; [reflexivity|]. split; reflexivity.
Defined.

Lemma orb_fit_calc_corrects_each_once_witness :
  concat (oc_ifgs <$>
    concat ((λ r, orb_fit_calc (mkComm r 2) ["a.tif"; "b.tif"; "c.tif"]
                    stage_params0 None) <$> seq 0 2))
    ≡ₚ ["a.tif"; "b.tif"; "c.tif"] ∧
  concat (oc_ifgs <$>
    concat ((λ r, orb_fit_calc (mkComm r 2) ["a.tif"; "b.tif"; "c.tif"]
                    stage_params1 None) <$> seq 0 2))
    ≡ₚ ["a.tif"; "b.tif"; "c.tif"].
Proof.
  split.
  - apply (orb_fit_calc_corrects_each_once 2 ["a.tif"; "b.tif"; "c.tif"]
             stage_params0 None); [lia|by vm_compute].
  - apply (orb_fit_calc_corrects_each_once 2 ["a.tif"; "b.tif"; "c.tif"]
             stage_params1 None); [lia|by vm_compute].
Defined.

End tile_examples.

End TileFacts.

(** ** The gathers of [maxvar_alpha_calc] and [phase_sum] *)

Module GatherFacts.

Import Vcm RunPyrate Spec Model Workflow WorkflowSpec WorkflowModel.
Import FloatFacts CvdFacts RunPyrateFacts TileFacts.

Section maxvar.
Context `{!Partition} `{!External} `{!Memory}.
Context (nprocs n : nat) (shards : nat → list float).

Let idx (r : nat) : list nat := array_split nprocs (seq 0 n) r.
Let step (a : list float) (r : nat) : list float := scatter a (idx r) (shards r).

Lemma receive_maxvar_ok (rs : list nat) (a : list float) (inbox : list Message) :
  0 < n →
  NoDup rs →
  inbox ≡ₚ (λ r, mkMessage r r (shards r)) <$> rs →
  (∀ r, r ∈ rs → Forall (λ i, i < length a) (idx r) ∧
                 length (shards r) = length (idx r)) →
  receive_maxvar rs nprocs n a inbox =
    Ok (foldl step a rs, (λ r, Received r r) <$> rs, []).
Proof.
  intros Hn. revert a inbox.
  induction rs as [|r rs IH]; intros a inbox Hnd Hperm Hok.
  { apply Permutation_nil_r in Hperm. by subst. }
  apply NoDup_cons in Hnd as [Hr Hnd].
  destruct (Hok r) as [Hidx Hlen]; [by left|].
  destruct (take_message_unique inbox r (shards r)) as (rest & Htake & Hrest).
  { rewrite Hperm, <- list_fmap_compose.
    replace (msg_source ∘ _ <$> r :: rs) with (r :: rs).
    - by apply NoDup_cons.
    - clear. induction (r :: rs) as [|x l IHl]; [done|].
      by rewrite fmap_cons, <- IHl. }
  { rewrite Hperm. by left. }
  cbn [receive_maxvar]. rewrite range_split_pos by done. cbn [indices].
  fold (idx r). unfold Recv_into. rewrite Htake.
  cbn [msg_payload]. rewrite np_empty_length, Hlen, Nat.leb_refl.
  rewrite drop_ge by (by rewrite np_empty_length). rewrite app_nil_r.
  change (Ok (shards r, rest) ≫= ?k) with (k (shards r, rest)).
  cbn [fst snd]. rewrite setitem_ok by done.
  change (Ok ?x ≫= ?k) with (k x). cbv beta.
  rewrite (IH (scatter a (idx r) (shards r)) rest); [done|done| |].
  - rewrite Hperm, fmap_cons in Hrest. by apply Permutation_cons_inv in Hrest.
  - intros r' Hr'. rewrite scatter_length. apply Hok. by right.
Qed.

End maxvar.

Section maxvar_calc.
Context `{!Partition} `{!External} `{!Memory}.

(** X13: on the master, [maxvar_alpha_calc] on a list that is not empty
    returns an array of len(ifg_paths) values in which no value of the
    uninitialised [np.empty] buffer is left: every index i is the k-th index
    of the shard of some rank r, and holds the k-th maxvar value of that
    rank - the master's own from its calls of [cvd], the others from the
    messages tagged by rank, in whatever order they arrived.  On an empty
    list it raises IndexError at line 514: the index array of an empty
    range is not an integer array.  (The shards of range(n) cover it, and
    each rank holds one value per index of its shard.) *)
Theorem maxvar_alpha_calc_no_uninitialised (nprocs : nat)
    (ifg_paths : list string) (params : Params) (shards : nat → list float)
    (results : list CvdResult) (inbox : list Message) :
  let n := length ifg_paths in
  0 < nprocs →
  partition_complete nprocs (seq 0 n) →
  for_each (λ i, cvd (ByPath i) params true true true)
    (array_split nprocs ifg_paths MASTER_PROCESS) = Ok results →
  shards MASTER_PROCESS = cvd_maxvar <$> results →
  (∀ r, r < nprocs →
     length (shards r) = length (array_split nprocs (seq 0 n) r)) →
  inbox ≡ₚ shard_messages nprocs shards →
  (n = 0 →
   maxvar_alpha_calc (mkComm MASTER_PROCESS nprocs) ifg_paths params inbox =
     Raise IndexError) ∧
  (0 < n →
   ∃ maxvar,
     maxvar_alpha_calc (mkComm MASTER_PROCESS nprocs) ifg_paths params inbox =
       Ok (maxvar, results, (λ r, Received r r) <$> seq 1 (nprocs - 1), []) ∧
     length maxvar = n ∧
     (∀ r k i, r < nprocs →
        array_split nprocs (seq 0 n) r !! k = Some i →
        maxvar !! i = shards r !! k) ∧
     (∀ i, i < n →
        ∃ r k v, r < nprocs ∧ array_split nprocs (seq 0 n) r !! k = Some i ∧
                 shards r !! k = Some v ∧ maxvar !! i = Some v)).
Proof.
  intros n Hpos Hpart Hcvd Hown Hlen Hin. split.
  { intros Hn0. unfold maxvar_alpha_calc. cbn [rank size]. rewrite Hcvd.
    change (Ok ?x ≫= ?k) with (k x). cbv beta zeta.
    change (MASTER_PROCESS =? MASTER_PROCESS) with true. cbv iota.
    unfold range_split. fold n. by rewrite Hn0. }
  intros Hn. unfold partition_complete in Hpart.
  set (idx := λ r, array_split nprocs (seq 0 n) r).
  set (step := λ (a : list float) r, scatter a (idx r) (shards r)).
  assert (Hnd : NoDup (concat (idx <$> seq 0 nprocs))).
  { unfold idx. rewrite Hpart. apply NoDup_seq. }
  assert (Hrange : ∀ r i, r < nprocs → i ∈ idx r → i < n).
  { intros r i Hr Hi.
    assert (Hc : i ∈ concat (idx <$> seq 0 nprocs)).
    { apply elem_of_concat. exists (idx r). split; [done|].
      apply list_elem_of_fmap_2, elem_of_seq. lia. }
    unfold idx in Hc. rewrite Hpart in Hc. apply elem_of_seq in Hc. lia. }
  set (junk := np_empty 0 n).
  assert (Hz : length junk = n) by apply np_empty_length.
  set (maxvar := foldl step junk (seq 0 nprocs)).
  assert (Hentry : ∀ r k i, r < nprocs → idx r !! k = Some i →
            maxvar !! i = shards r !! k).
  { intros r k i Hr Hk. apply (fold_step_in nprocs n shards); try done.
    - intros r' Hr'%elem_of_seq. apply Hlen. lia.
    - apply elem_of_seq. lia.
    - rewrite Hz. apply (Hrange r); [done|]. by eapply list_elem_of_lookup_2. }
  exists maxvar. split; [|split; [|split]].
  - unfold maxvar_alpha_calc. cbn [rank size]. fold n. rewrite Hcvd.
    change (Ok ?x ≫= ?k) with (k x). cbv beta zeta.
    change (MASTER_PROCESS =? MASTER_PROCESS) with true. cbv iota.
    fold junk. rewrite <- Hown. rewrite range_split_pos by done.
    fold (idx MASTER_PROCESS).
    rewrite setitem_ok.
    + change (Ok ?x ≫= ?k) with (k x). cbv beta.
      rewrite (receive_maxvar_ok nprocs n shards).
      * change (Ok ?x ≫= ?k) with (k x). cbn [fst snd].
        do 4 f_equal. unfold maxvar.
        destruct nprocs as [|p]; [lia|].
        by rewrite <- cons_seq, Nat.sub_succ, Nat.sub_0_r.
      * done.
      * apply NoDup_seq.
      * done.
      * intros r Hr%elem_of_seq. rewrite scatter_length, Hz. split.
        -- apply Forall_forall. intros i Hi. apply (Hrange r); [lia|done].
        -- apply Hlen. lia.
    + apply Forall_forall. intros i Hi. rewrite Hz.
      apply (Hrange MASTER_PROCESS); [done|done].
    + apply Hlen. done.
  - etrans; [apply (fold_step_length nprocs n shards)|done].
  - exact Hentry.
  - intros i Hi.
    assert (Hc : i ∈ concat (idx <$> seq 0 nprocs)).
    { unfold idx. rewrite Hpart. apply elem_of_seq. lia. }
    apply elem_of_concat in Hc as (l & Hil & (r & -> & Hr%elem_of_seq)%list_elem_of_fmap).
    apply list_elem_of_lookup in Hil as [k Hk].
    assert (Hkv : is_Some (shards r !! k)).
    { apply lookup_lt_is_Some. rewrite Hlen by lia.
      by eapply lookup_lt_Some. }
    destruct Hkv as [v Hv]. exists r, k, v.
    split; [lia|]. split; [done|]. split; [done|].
    rewrite <- Hv. apply Hentry; [lia|done].
Qed.

(** X14: a process other than the master returns from [maxvar_alpha_calc]
    the uninitialised buffer as [np.empty] made it: none of the values it
    computed is stored in it.  Its values, one per interferogram of its
    shard, leave in a single message to the master tagged with its rank,
    and it receives nothing. *)
Theorem maxvar_alpha_calc_worker (c : Comm) (ifg_paths : list string)
    (params : Params) (inbox : list Message) maxvar results events inbox' :
  rank c ≠ MASTER_PROCESS →
  maxvar_alpha_calc c ifg_paths params inbox =
    Ok (maxvar, results, events, inbox') →
  maxvar = np_empty 0 (length ifg_paths) ∧
  events = [Sent MASTER_PROCESS (rank c) (cvd_maxvar <$> results)] ∧
  length results = length (array_split (size c) ifg_paths (rank c)) ∧
  inbox' = inbox.
Proof.
  intros Hrank. unfold maxvar_alpha_calc.
  intros Hrun. apply bind_Ok in Hrun as (res0 & Hcvd & Hrun).
  destruct (Nat.eqb_spec (rank c) MASTER_PROCESS); [done|].
  apply Ok_inj in Hrun.
  assert (maxvar = np_empty 0 (length ifg_paths) ∧ results = res0 ∧
          events = [Sent MASTER_PROCESS (rank c) (cvd_maxvar <$> res0)] ∧
          inbox' = inbox) as (-> & -> & -> & ->).
  { repeat split; congruence. }
  split; [done|]. split; [done|]. split; [|done].
  clear -Hcvd. revert res0 Hcvd.
  induction (array_split (size c) ifg_paths (rank c)) as [|p l IH];
    intros res0 Hcvd.
  - apply Ok_inj in Hcvd. by subst.
  - cbn [for_each] in Hcvd.
    change (Py.bind ?m ?k) with (m ≫= k) in Hcvd.
    apply bind_Ok in Hcvd as (o & _ & Hcvd).
    apply bind_Ok in Hcvd as (os & Hos & Hcvd).
    apply Ok_inj in Hcvd. subst res0. cbn. f_equal. by apply IH.
Qed.

End maxvar_calc.

(** A NaN on either side of a sum is a NaN of the sum. *)
Lemma add_nan (x y : float) :
  is_nan x = true ∨ is_nan y = true → is_nan (x + y) = true.
Proof.
  rewrite !is_nan_spec, add_spec. unfold SF64add, SFadd.
  destruct (Prim2SF x), (Prim2SF y); simpl; intros [?|?]; done.
Qed.

(** *** Rectangular arrays *)

Lemma rect_shape2 {A : Type} shape (a b : list (list A)) :
  rect shape a → rect shape b → shape2 a = shape2 b.
Proof.
  intros [Ha Hra] [Hb Hrb]. unfold shape2. rewrite Ha, Hb. f_equal.
  destruct a as [|ra a], b as [|rb b]; simpl in *; try congruence.
  apply Forall_cons in Hra as [-> _]. by apply Forall_cons in Hrb as [-> _].
Qed.

Lemma at2_is_Some {A : Type} shape (a : list (list A)) i j :
  rect shape a → i < shape.1 → j < shape.2 → is_Some (at2 a i j).
Proof.
  intros [Ha Hra] Hi Hj. unfold at2.
  destruct (lookup_lt_is_Some_2 a i) as [row Hrow]; [lia|].
  rewrite Hrow. simpl. apply lookup_lt_is_Some_2.
  rewrite Forall_forall in Hra. rewrite (Hra row); [done|].
  by eapply list_elem_of_lookup_2.
Qed.

Lemma at2_bounds {A : Type} shape (a : list (list A)) i j v :
  rect shape a → at2 a i j = Some v → i < shape.1 ∧ j < shape.2.
Proof.
  intros [Ha Hra] Hv. unfold at2 in Hv.
  destruct (a !! i) as [row|] eqn:Hrow; [|done]. simpl in Hv.
  split.
  - rewrite <- Ha. by eapply lookup_lt_Some.
  - rewrite Forall_forall in Hra. rewrite <- (Hra row).
    + by eapply lookup_lt_Some.
    + by eapply list_elem_of_lookup_2.
Qed.

Lemma rect_zeros2 shape : rect shape (zeros2 shape).
Proof.
  unfold zeros2. split; [apply length_replicate|].
  apply Forall_forall. intros row [-> _]%elem_of_replicate.
  apply length_replicate.
Qed.

(** In-place addition of an array of the same shape adds entry by entry. *)
Lemma iadd2d_rect shape (a b : list (list float)) :
  rect shape a → rect shape b →
  ∃ c, iadd2d a b = Ok c ∧ rect shape c ∧
    ∀ i j x y, at2 a i j = Some x → at2 b i j = Some y →
      at2 c i j = Some (x + y)%float.
Proof.
  intros Ha Hb. unfold iadd2d.
  rewrite (rect_shape2 shape a b Ha Hb).
  destruct (shape2 b) as [rb cb] eqn:Hsb.
  rewrite !Nat.eqb_refl. cbn [orb andb].
  eexists. split; [done|]. split.
  - destruct Ha as [Hla Hra]. split; [by rewrite length_imap|].
    apply Forall_forall. intros row (i & row' & -> & Hrow)%elem_of_lookup_imap.
    rewrite length_imap. rewrite Forall_forall in Hra. apply Hra.
    by eapply list_elem_of_lookup_2.
  - intros i j x y Hx Hy.
    destruct (at2_bounds shape a i j x Ha Hx) as [Hi Hj].
    assert (Hrb : rb = shape.1 ∧ (shape.1 ≠ 0 → cb = shape.2)).
    { destruct Hb as [Hlb Hrrb]. unfold shape2 in Hsb.
      injection Hsb as <- <-. split; [done|].
      destruct b as [|r0 b]; [simpl in Hlb; lia|].
      intros _. by apply Forall_cons in Hrrb as [-> _]. }
    destruct Hrb as [-> Hcb]. rewrite Hcb by lia.
    unfold at2 in Hx |- *.
    destruct (a !! i) as [row|] eqn:Hrow; [|done]. simpl in Hx.
    rewrite list_lookup_imap, Hrow. simpl.
    rewrite list_lookup_imap, Hx. simpl. f_equal. f_equal.
    assert (Hbi : (if shape.1 =? 1 then 0 else i) = i).
    { destruct (Nat.eqb_spec shape.1 1); lia. }
    assert (Hbj : (if shape.2 =? 1 then 0 else j) = j).
    { destruct (Nat.eqb_spec shape.2 1); lia. }
    rewrite Hbi, Hbj. fold (at2 b i j). by rewrite Hy.
Qed.

Lemma iadd2d_nan shape (a b c : list (list float)) i j :
  rect shape a → rect shape b → iadd2d a b = Ok c →
  nan_at a i j ∨ nan_at b i j → nan_at c i j.
Proof.
  intros Ha Hb Hc Hnan.
  destruct (iadd2d_rect shape a b Ha Hb) as (c' & Hc' & _ & Hsum).
  rewrite Hc in Hc'. apply Ok_inj in Hc'. subst c'.
  assert (Hij : i < shape.1 ∧ j < shape.2).
  { destruct Hnan as [(v & Hv & _)|(v & Hv & _)];
      [by apply (at2_bounds shape a i j v)|by apply (at2_bounds shape b i j v)]. }
  destruct Hij as [Hi Hj].
  destruct (at2_is_Some shape a i j Ha Hi Hj) as [x Hx].
  destruct (at2_is_Some shape b i j Hb Hi Hj) as [y Hy].
  exists (x + y)%float. split; [by apply Hsum|].
  apply add_nan.
  destruct Hnan as [(v & Hv & Hn)|(v & Hv & Hn)]; [left|right]; congruence.
Qed.

(** *** The sum of a list of arrays *)

Lemma sum_loop_ok shape (phase : string → list (list float))
    (l : list string) (a : list (list float)) :
  rect shape a → (∀ p, p ∈ l → rect shape (phase p)) →
  ∃ c, for_loop (λ phs_sum d, iadd2d phs_sum (phase d)) a l = Ok c ∧
    rect shape c ∧
    ∀ i j, (nan_at a i j ∨ ∃ p, p ∈ l ∧ nan_at (phase p) i j) → nan_at c i j.
Proof.
  revert a. induction l as [|p l IH]; intros a Ha Hl.
  { exists a. split; [done|]. split; [done|].
    intros i j [?|(p & []%elem_of_nil & _)]. done. }
  destruct (iadd2d_rect shape a (phase p) Ha) as (a' & Ha' & Hra' & _).
  { apply Hl. by left. }
  destruct (IH a' Hra') as (c & Hc & Hrc & Hnan).
  { intros q Hq. apply Hl. by right. }
  exists c. split; [|split; [done|]].
  - cbn [for_loop]. rewrite Ha'. exact Hc.
  - intros i j Hij. apply Hnan.
    destruct Hij as [Hij|(q & [->|Hq]%elem_of_cons & Hij)].
    + left. apply (iadd2d_nan shape a (phase p)); auto. apply Hl. by left.
    + left. apply (iadd2d_nan shape a (phase p)); auto. apply Hl. by left.
    + right. by exists q.
Qed.

(** *** Flat buffers *)

Lemma rect_concat_length {A : Type} shape (a : list (list A)) :
  rect shape a → length (concat a) = shape.1 * shape.2.
Proof.
  destruct shape as [n1 n2]. intros [Ha Hra]. simpl in *. subst n1.
  induction Hra as [|row a Hrow _ IH]; [done|].
  simpl. rewrite length_app, IH, Hrow. lia.
Qed.

Lemma unflatten_concat shape (a : list (list float)) :
  rect shape a → unflatten shape (concat a) = a.
Proof.
  destruct shape as [n1 n2]. intros [Ha Hra]. unfold unflatten. simpl in *.
  subst n1. induction Hra as [|row a Hrow _ IH]; [done|].
  simpl. rewrite take_app_length' by done. rewrite drop_app_length' by done.
  by rewrite IH.
Qed.

(** *** Column-major order *)

Lemma bind_blocks_lookup {A B : Type} (f : A → list B) (k : nat)
    (l : list A) (j i : nat) (x : A) :
  (∀ y, y ∈ l → length (f y) = k) → l !! j = Some x → i < k →
  (l ≫= f) !! (j * k + i) = f x !! i.
Proof.
  revert j. induction l as [|y l IH]; intros j Hlen Hj Hi; [done|].
  rewrite bind_cons. destruct j as [|j].
  - injection Hj as ->. simpl. apply lookup_app_l.
    rewrite Hlen; [done|by left].
  - simpl in Hj. rewrite lookup_app_r by (rewrite Hlen; [lia|by left]).
    rewrite Hlen by (by left).
    replace (S j * k + i - k) with (j * k + i) by lia.
    apply IH; [|done|done]. intros z Hz. apply Hlen. by right.
Qed.

Lemma bind_blocks_length {A B : Type} (f : A → list B) (k : nat) (l : list A) :
  (∀ y, y ∈ l → length (f y) = k) → length (l ≫= f) = length l * k.
Proof.
  induction l as [|y l IH]; intros Hlen; [done|].
  rewrite bind_cons, length_app, IH, Hlen; [simpl; lia|by left|].
  intros z Hz. apply Hlen. by right.
Qed.

Lemma column_length {A : Type} shape (a : list (list A)) j :
  rect shape a → j < shape.2 →
  length (i ← seq 0 shape.1; option_list (at2 a i j)) = shape.1.
Proof.
  intros Ha Hj.
  rewrite (bind_blocks_length _ 1); [rewrite length_seq; lia|].
  intros i Hi%elem_of_seq.
  destruct (at2_is_Some shape a i j Ha) as [v ->]; [lia|done|done].
Qed.

Lemma ravel_F_lookup {A : Type} shape (a : list (list A)) i j :
  rect shape a → i < shape.1 → j < shape.2 →
  ravel_F shape a !! (j * shape.1 + i) = at2 a i j.
Proof.
  intros Ha Hi Hj. unfold ravel_F.
  rewrite (bind_blocks_lookup _ shape.1 _ j i j); [| |by apply lookup_seq_lt|done].
  - replace i with (i * 1 + 0) at 1 by lia.
    rewrite (bind_blocks_lookup _ 1 _ i 0 i); [| |by apply lookup_seq_lt|lia].
    + by destruct (at2_is_Some shape a i j Ha Hi Hj) as [v ->].
    + intros i' Hi'%elem_of_seq.
      destruct (at2_is_Some shape a i' j Ha) as [v ->]; [lia|done|done].
  - intros j' Hj'%elem_of_seq. apply column_length; [done|lia].
Qed.

Lemma ravel_F_length {A : Type} shape (a : list (list A)) :
  rect shape a → length (ravel_F shape a) = shape.1 * shape.2.
Proof.
  intros Ha. unfold ravel_F.
  rewrite (bind_blocks_length _ shape.1); [rewrite length_seq; lia|].
  intros j Hj%elem_of_seq. apply column_length; [done|lia].
Qed.

Section phase_sum.
Context `{!Partition} `{!External}.

Lemma local_phase_sum_ok (c : Comm) (ifg_paths : list string) shape :
  array_split (size c) ifg_paths (rank c) ≠ [] →
  uniform shape (array_split (size c) ifg_paths (rank c)) →
  ∃ phs_sum, local_phase_sum c ifg_paths = Ok (shape, phs_sum) ∧
    rect shape phs_sum ∧
    ∀ p i j, p ∈ array_split (size c) ifg_paths (rank c) →
      nan_at (phase_data (open_ifg p true)) i j → nan_at phs_sum i j.
Proof.
  intros Hne Huni. unfold local_phase_sum. cbv zeta.
  destruct (array_split (size c) ifg_paths (rank c)) as [|p0 l] eqn:Hshard;
    [done|].
  unfold index. cbn [lookup list_lookup].
  change (Ok ?x ≫= ?k) with (k x). cbv beta.
  destruct (Huni p0) as (Hr & Hc & _); [by left|].
  rewrite Hr, Hc. rewrite <- surjective_pairing.
  destruct (sum_loop_ok shape (λ d, phase_data (open_ifg d true)) (p0 :: l)
              (zeros2 shape)) as (s & Hs & Hrs & Hnan).
  { apply rect_zeros2. }
  { intros p Hp. by apply Huni. }
  exists s. rewrite Hs. split; [done|]. split; [done|].
  intros p i j Hp Hpn. apply Hnan. right. by exists p.
Qed.

Lemma receive_sums_ok shape (sums : nat → list (list float)) (rs : list nat)
    (a : list (list float)) (inbox : list Message) :
  NoDup rs →
  inbox ≡ₚ (λ r, mkMessage r r (concat (sums r))) <$> rs →
  (∀ r, r ∈ rs → rect shape (sums r)) →
  rect shape a →
  ∃ total,
    receive_sums rs shape a inbox = Ok (total, (λ r, Received r r) <$> rs, []) ∧
    rect shape total ∧
    ∀ i j, (nan_at a i j ∨ ∃ r, r ∈ rs ∧ nan_at (sums r) i j) →
      nan_at total i j.
Proof.
  revert a inbox. induction rs as [|r rs IH]; intros a inbox Hnd Hperm Hrs Ha.
  { apply Permutation_nil_r in Hperm. subst. exists a.
    split; [done|]. split; [done|].
    intros i j [?|(r & []%elem_of_nil & _)]. done. }
  apply NoDup_cons in Hnd as [Hr Hnd].
  assert (Hrect : rect shape (sums r)) by (apply Hrs; by left).
  destruct (take_message_unique inbox r (concat (sums r)))
    as (rest & Htake & Hrest).
  { rewrite Hperm, <- list_fmap_compose.
    replace (msg_source ∘ _ <$> r :: rs) with (r :: rs).
    - by apply NoDup_cons.
    - clear. induction (r :: rs) as [|x l IHl]; [done|].
      by rewrite fmap_cons, <- IHl. }
  { rewrite Hperm. by left. }
  destruct (iadd2d_rect shape a (sums r) Ha Hrect) as (a' & Ha' & Hra' & _).
  destruct (IH a' rest Hnd) as (total & Htotal & Hrt & Hnan); [| |done|].
  { rewrite Hperm, fmap_cons in Hrest. by apply Permutation_cons_inv in Hrest. }
  { intros r' Hr'. apply Hrs. by right. }
  exists total. split; [|split; [done|]].
  - cbn [receive_sums]. unfold Recv. rewrite Htake. cbn [msg_payload].
    rewrite (rect_concat_length shape) by done.
    rewrite Nat.leb_refl, Nat.sub_diag. cbn [replicate]. rewrite app_nil_r.
    change (Ok ?x ≫= ?k) with (k x). cbv beta zeta. cbn [fst snd].
    rewrite unflatten_concat by done. rewrite Ha'.
    change (Ok ?x ≫= ?k) with (k x). cbv beta. by rewrite Htotal.
  - intros i j Hij. apply Hnan.
    destruct Hij as [Hij|(q & [->|Hq]%elem_of_cons & Hij)].
    + left. apply (iadd2d_nan shape a (sums r)); auto.
    + left. apply (iadd2d_nan shape a (sums r)); auto.
    + right. by exists q.
Qed.

(** What the run of a process other than the master tells about the message
    it sends. *)
Lemma phase_sum_sent (c : Comm) (ifg_paths : list string) shape
    (inbox : list Message) payload events inbox' :
  rank c ≠ MASTER_PROCESS →
  uniform shape (array_split (size c) ifg_paths (rank c)) →
  phase_sum c ifg_paths inbox = Ok (None, Sent 0 (rank c) payload :: events, inbox') →
  ∃ phs_sum, payload = concat phs_sum ∧ rect shape phs_sum ∧
    ∀ p i j, p ∈ array_split (size c) ifg_paths (rank c) →
      nan_at (phase_data (open_ifg p true)) i j → nan_at phs_sum i j.
Proof.
  intros Hrank Huni Hrun.
  destruct (decide (array_split (size c) ifg_paths (rank c) = [])) as [He|Hne].
  { unfold phase_sum, local_phase_sum in Hrun. cbv zeta in Hrun.
    by rewrite He in Hrun. }
  destruct (local_phase_sum_ok c ifg_paths shape Hne Huni)
    as (s & Hs & Hrs & Hnan).
  exists s. split; [|done].
  unfold phase_sum in Hrun. rewrite Hs in Hrun.
  change (Ok ?x ≫= ?k) with (k x) in Hrun. cbv beta iota in Hrun.
  destruct (Nat.eqb_spec (rank c) MASTER_PROCESS); [done|].
  apply Ok_inj in Hrun. congruence.
Qed.

(** X15: the mask [comp] that the master gets from [phase_sum] is true at
    every pixel at which the phase of at least one interferogram of the
    stack is NaN, whichever process summed that interferogram: for
    interferograms of one shape (nrows, ncols), the pixel in row i and
    column j stands at position j * nrows + i of [comp] (column-major
    order), and [comp] has nrows * ncols entries.  The messages are the
    partial sums that the other processes send when they run [phase_sum]. *)
Theorem phase_sum_flags_every_nan (nprocs : nat) (ifg_paths : list string)
    (shape : nat * nat) (payload : nat → list float) (inbox : list Message) :
  0 < nprocs →
  partition_complete nprocs ifg_paths →
  array_split nprocs ifg_paths MASTER_PROCESS ≠ [] →
  uniform shape ifg_paths →
  (∀ r, 0 < r < nprocs →
     phase_sum (mkComm r nprocs) ifg_paths [] =
       Ok (None, [Sent 0 r (payload r)], [])) →
  inbox ≡ₚ shard_messages nprocs payload →
  ∃ comp,
    phase_sum (mkComm MASTER_PROCESS nprocs) ifg_paths inbox =
      Ok (Some comp, (λ r, Received r r) <$> seq 1 (nprocs - 1), []) ∧
    length comp = shape.1 * shape.2 ∧
    ∀ p i j v, p ∈ ifg_paths →
      at2 (phase_data (open_ifg p true)) i j = Some v → is_nan v = true →
      comp !! (j * shape.1 + i) = Some true.
Proof.
  intros Hpos Hpart Hne Huni Hsent Hin. unfold partition_complete in Hpart.
  assert (Hsub : ∀ r, r < nprocs → ∀ p, p ∈ array_split nprocs ifg_paths r →
            p ∈ ifg_paths).
  { intros r Hr p Hp. rewrite <- Hpart. apply elem_of_concat.
    exists (array_split nprocs ifg_paths r). split; [done|].
    apply list_elem_of_fmap_2, elem_of_seq. lia. }
  assert (Hunir : ∀ r, r < nprocs →
            uniform shape (array_split nprocs ifg_paths r)).
  { intros r Hr p Hp. apply Huni. by apply (Hsub r). }
  set (sums := λ r, unflatten shape (payload r)).
  assert (Hsums : ∀ r, r ∈ seq 1 (nprocs - 1) →
    concat (sums r) = payload r ∧ rect shape (sums r) ∧
    ∀ p i j, p ∈ array_split nprocs ifg_paths r →
      nan_at (phase_data (open_ifg p true)) i j → nan_at (sums r) i j).
  { intros r Hr%elem_of_seq.
    destruct (phase_sum_sent (mkComm r nprocs) ifg_paths shape [] (payload r) [] [])
      as (s & Hpay & Hrs & Hnan).
    - cbn. unfold MASTER_PROCESS. lia.
    - apply (Hunir r). lia.
    - apply (Hsent r). lia.
    - unfold sums. rewrite Hpay. rewrite unflatten_concat by done.
      split; [done|]. split; [done|]. exact Hnan. }
  destruct (local_phase_sum_ok (mkComm MASTER_PROCESS nprocs) ifg_paths shape)
    as (s0 & Hs0 & Hrs0 & Hnan0); [done|by apply Hunir|].
  destruct (receive_sums_ok shape sums (seq 1 (nprocs - 1)) s0 inbox)
    as (total & Htotal & Hrt & Hnan).
  { apply NoDup_seq. }
  { rewrite Hin. unfold shard_messages. apply reflexive_eq.
    apply Forall_fmap_ext_1, Forall_forall. intros r Hr.
    by destruct (Hsums r Hr) as (-> & _). }
  { intros r Hr. by apply Hsums. }
  { done. }
  set (flags := (λ row : list float, is_nan <$> row) <$> total).
  assert (Hrf : rect shape flags).
  { destruct Hrt as [Hl Hrows]. split; [by unfold flags; rewrite length_fmap|].
    unfold flags. apply Forall_fmap. eapply Forall_impl; [exact Hrows|].
    intros row Hrow. simpl. by rewrite length_fmap. }
  exists (ravel_F shape flags). split; [|split].
  - unfold phase_sum. rewrite Hs0.
    change (Ok ?x ≫= ?k) with (k x). cbv beta iota. cbn [rank size].
    change (MASTER_PROCESS =? MASTER_PROCESS) with true. cbv iota.
    rewrite Htotal. done.
  - by apply ravel_F_length.
  - intros p i j v Hp Hv Hnanv.
    assert (Hpn : nan_at (phase_data (open_ifg p true)) i j) by (by exists v).
    assert (Htn : nan_at total i j).
    { rewrite <- Hpart in Hp.
      apply elem_of_concat in Hp
        as (l & Hpl & (r & -> & Hr%elem_of_seq)%list_elem_of_fmap).
      apply Hnan. destruct r as [|r].
      - left. by apply (Hnan0 p).
      - right. exists (S r). split; [apply elem_of_seq; lia|].
        destruct (Hsums (S r)) as (_ & _ & Hn); [apply elem_of_seq; lia|].
        by apply (Hn p). }
    destruct Htn as (t & Ht & Htnan).
    destruct (at2_bounds shape total i j t Hrt Ht) as [Hi Hj].
    rewrite ravel_F_lookup by done.
    unfold flags, at2. unfold at2 in Ht. rewrite list_lookup_fmap.
    destruct (total !! i) as [row|]; [|done]. simpl in *.
    by rewrite list_lookup_fmap, Ht, <- Htnan.
Qed.

(** X16: on a process other than the master, [phase_sum] fails with
    IndexError when the shard of the process is empty (more processes than
    interferograms); when it reaches the broadcast it has no mask of its
    own ([comp] is None until then), has sent exactly one message, to rank 0
    and tagged with its rank, and has received nothing. *)
Theorem phase_sum_worker (c : Comm) (ifg_paths : list string)
    (inbox : list Message) :
  rank c ≠ MASTER_PROCESS →
  (array_split (size c) ifg_paths (rank c) = [] →
   phase_sum c ifg_paths inbox = Raise IndexError) ∧
  (∀ comp events inbox',
     phase_sum c ifg_paths inbox = Ok (comp, events, inbox') →
     comp = None ∧ inbox' = inbox ∧
     ∃ payload, events = [Sent 0 (rank c) payload]).
Proof.
  intros Hrank. split.
  - intros He. unfold phase_sum, local_phase_sum. cbv zeta. by rewrite He.
  - intros comp events inbox' Hrun. unfold phase_sum in Hrun.
    apply bind_Ok in Hrun as ([shape s] & _ & Hrun).
    destruct (Nat.eqb_spec (rank c) MASTER_PROCESS); [done|].
    apply Ok_inj in Hrun.
    assert (comp = None ∧ events = [Sent 0 (rank c) (concat s)] ∧
            inbox' = inbox) as (-> & -> & ->) by (repeat split; congruence).
    split; [done|]. split; [done|]. by eexists.
Qed.

End phase_sum.

Section maxvar_examples.

#[local] Instance mv_partition : Partition := np_array_split.
#[local] Instance mv_external : External := external twin_files.
#[local] Instance mv_memory : Memory := memory.

Lemma maxvar_alpha_calc_no_uninitialised_witness :
  (∃ maxvar,
     maxvar_alpha_calc (mkComm MASTER_PROCESS 2) ["a.tif"; "b.tif"] params0
       [mkMessage 1 1 [7%float]] =
       Ok (maxvar, master_results, [Received 1 1], []) ∧
     length maxvar = 2 ∧
     maxvar !! 1 = Some 7%float ∧
     maxvar !! 0 = cvd_maxvar <$> master_results !! 0) ∧
  maxvar_alpha_calc (mkComm MASTER_PROCESS 2) [] params0 [mkMessage 1 1 []]
    = Raise IndexError.
Proof.
  split.
  - destruct (maxvar_alpha_calc_no_uninitialised 2 ["a.tif"; "b.tif"] params0
                two_shards master_results [mkMessage 1 1 [7%float]])
      as [_ Hmain].
    + lia.
    + by vm_compute.
    + by vm_compute.
    + reflexivity.
    + intros [|[|r]] Hr; [by vm_compute|by vm_compute|lia].
    + done.
    + destruct Hmain as (maxvar & Hrun & Hlen & Hentry & _); [simpl; lia|].
      exists maxvar. split; [exact Hrun|]. split; [exact Hlen|]. split.
      * apply (Hentry 1 0 1); [lia|by vm_compute].
      * rewrite (Hentry 0 0 0); [|lia|by vm_compute].
        unfold two_shards. by rewrite list_lookup_fmap.
  - destruct (maxvar_alpha_calc_no_uninitialised 2 [] params0
                (λ _, []) [] [mkMessage 1 1 []]) as [Hempty _].
    + lia.
    + by vm_compute.
    + by vm_compute.
    + reflexivity.
    + intros [|[|r]] Hr; [by vm_compute|by vm_compute|lia].
    + done.
    + by apply Hempty.
Defined.

Lemma maxvar_alpha_calc_worker_witness :
  ∃ maxvar results events inbox',
    maxvar_alpha_calc (mkComm 1 2) ["a.tif"; "b.tif"] params0 [] =
      Ok (maxvar, results, events, inbox') ∧
    maxvar = [-1; -1]%float ∧
    events = [Sent MASTER_PROCESS 1 (cvd_maxvar <$> results)] ∧
    length results = 1 ∧ inbox' = [].
Proof.
  destruct (maxvar_alpha_calc (mkComm 1 2) ["a.tif"; "b.tif"] params0 [])
    as [[[[maxvar results] events] inbox']|e] eqn:Hrun;
    [|by vm_compute in Hrun].
  exists maxvar, results, events, inbox'. split; [done|].
  destruct (maxvar_alpha_calc_worker (mkComm 1 2) ["a.tif"; "b.tif"] params0 []
              maxvar results events inbox') as (Hm & He & Hl & Hi);
    [by vm_compute|exact Hrun|].
  split; [exact Hm|]. split; [exact He|]. split; [exact Hl|exact Hi].
Defined.

End maxvar_examples.

Section phase_sum_examples.

#[local] Instance ps_partition : Partition := np_array_split.
#[local] Instance ps_external : External := external nan_files.

Lemma nan_files_uniform : uniform (2, 2) ["a.tif"; "b.tif"; "c.tif"].
Proof.
  intros p Hp.
  repeat (apply elem_of_cons in Hp as [->|Hp]);
    [| | |by apply elem_of_nil in Hp];
    (split; [reflexivity|]; split; [reflexivity|];
     split; [reflexivity|repeat constructor]).
Qed.

Lemma phase_sum_flags_every_nan_witness :
  ∃ comp,
    phase_sum (mkComm MASTER_PROCESS 2) ["a.tif"; "b.tif"; "c.tif"]
      [mkMessage 1 1 [5; PrimFloat.nan; 7; 8]%float] =
      Ok (Some comp, [Received 1 1], []) ∧
    length comp = 4 ∧
    comp !! 2 = Some true.
Proof.
  destruct (phase_sum_flags_every_nan 2 ["a.tif"; "b.tif"; "c.tif"] (2, 2)
              (λ _, [5; PrimFloat.nan; 7; 8]%float)
              [mkMessage 1 1 [5; PrimFloat.nan; 7; 8]%float])
    as (comp & Hrun & Hlen & Hnan).
  - lia.
  - by vm_compute.
  - by vm_compute.
  - apply nan_files_uniform.
  - intros [|[|r]] Hr; [lia|by vm_compute|lia].
  - done.
  - exists comp. split; [exact Hrun|]. split; [exact Hlen|].
    apply (Hnan "c.tif" 0 1 PrimFloat.nan); [|by vm_compute|by vm_compute].
    do 2 right. by left.
Defined.

Lemma phase_sum_worker_witness :
  phase_sum (mkComm 3 4) ["a.tif"; "b.tif"; "c.tif"] [] = Raise IndexError ∧
  ∀ comp events inbox',
    phase_sum (mkComm 1 2) ["a.tif"; "b.tif"; "c.tif"] [] =
      Ok (comp, events, inbox') →
    comp = None ∧ inbox' = [] ∧ ∃ payload, events = [Sent 0 1 payload].
Proof.
  split.
  - apply (phase_sum_worker (mkComm 3 4) ["a.tif"; "b.tif"; "c.tif"] []);
      [by vm_compute|reflexivity].
  - apply (phase_sum_worker (mkComm 1 2) ["a.tif"; "b.tif"; "c.tif"] []).
    by vm_compute.
Defined.

End phase_sum_examples.

End GatherFacts.
